(** * A shallow embedding of the chess engine of [chess.cpp]

    The engine keeps a 64-cell board of [char]s, generates pseudo-legal and
    legal moves, and searches with negamax / alpha-beta and a process-wide
    transposition table.  The definitions below follow [chess.cpp] function by
    function:

    - [char] and [int] values are integers in [Z]; signed overflow is
      undefined behaviour in C++ and none of the engine's own arithmetic can
      reach it, so no wrap-around is modelled.  The character
      classification functions are those of the "C" locale.
    - [std::array<char, 64>] is a [list Z]; a position is well formed when the
      list has 64 cells.  Reads are [cell], writes are stdpp's list insert.
    - In-place mutation of the [Position] and of the global
      [transpositionTable] is explicit state passing.
    - Loops whose termination is not structural carry a fuel argument; the
      lemmas named [..._fuel] and [..._total] show that the fuel suffices.
    - [std::sort] and the random source are parameters of the development. *)

From Stdlib Require Import ZArith List Lia QArith Qabs String Ascii DecimalString Permutation.
From Stdlib Require DecimalZ DecimalPos.
From stdpp Require Import gmap list strings.

Open Scope Z_scope.

(* ------------------------------------------------------------------------- *)
(** ** Characters *)
(* ------------------------------------------------------------------------- *)

Module Chr.
(** Character literals of the source, as their ASCII codes. *)
Abbreviation p := 112 (only parsing).
Abbreviation n := 110 (only parsing).
Abbreviation b := 98 (only parsing).
Abbreviation r := 114 (only parsing).
Abbreviation q := 113 (only parsing).
Abbreviation k := 107 (only parsing).
Abbreviation P := 80 (only parsing).
Abbreviation K := 75 (only parsing).
Abbreviation zero := 48 (only parsing).
Abbreviation eight := 56 (only parsing).
Abbreviation a := 97 (only parsing).
End Chr.

(** [std::isupper], [std::islower], [std::tolower], [std::toupper]; a code
    outside the letters is neither upper nor lower case and is mapped to
    itself. *)
Definition isupper (c : Z) : bool := (65 <=? c) && (c <=? 90).
Definition islower (c : Z) : bool := (97 <=? c) && (c <=? 122).
Definition tolower (c : Z) : Z := if isupper c then c + 32 else c.
Definition toupper (c : Z) : Z := if islower c then c - 32 else c.

(* ------------------------------------------------------------------------- *)
(** ** Enumerations and structs *)
(* ------------------------------------------------------------------------- *)

Inductive Side : Set := WHITE | BLACK.

(** [Side(s ^ 1)]. *)
Definition flipSide (s : Side) : Side :=
  match s with WHITE => BLACK | BLACK => WHITE end.

(** The integer value of the enumerator. *)
Definition sideNum (s : Side) : Z :=
  match s with WHITE => 0 | BLACK => 1 end.

Record Move : Set := mkMove { from : Z; to : Z; captured : Z; promo : Z }.

Record Position : Set := mkPosition { board : list Z; side : Side }.

Record Undo : Set := mkUndo { um : Move }.

(** A [std::array<char, 64>] always has 64 cells. *)
Definition wfPosition (pos : Position) : Prop := length (board pos) = 64%nat.

(** [b[sq]] and [b[sq] = v]. *)
Definition cell (b : list Z) (sq : Z) : Z := nth (Z.to_nat sq) b 0.
Definition setCell (b : list Z) (sq : Z) (v : Z) : list Z := <[Z.to_nat sq := v]> b.

(* ------------------------------------------------------------------------- *)
(** ** Helper functions *)
(* ------------------------------------------------------------------------- *)

Definition fileOf (square : Z) : Z := Z.land square 7.
Definition rankOf (square : Z) : Z := Z.shiftr square 3.
Definition isOnBoard (square : Z) : bool := (0 <=? square) && (square <? 64).

Definition pieceValue (p : Z) : Z :=
  let l := tolower p in
  if l =? Chr.p then 100
  else if l =? Chr.n then 320
  else if l =? Chr.b then 330
  else if l =? Chr.r then 500
  else if l =? Chr.q then 900
  else if l =? Chr.k then 20000
  else 0.

Definition isWhitePiece (p : Z) : bool := isupper p.
Definition isBlackPiece (p : Z) : bool := islower p.

Definition knightOffsets : list Z := [-17; -15; -10; -6; 6; 10; 15; 17].
Definition bishopOffsets : list Z := [-9; -7; 7; 9].
Definition rookOffsets : list Z := [-8; -1; 1; 8].
Definition kingOffsets : list Z := [-9; -8; -7; -1; 1; 7; 8; 9].

(** [addMove]: [push_back] unless the target cell holds a king. *)
Definition addMove (moves : list Move) (pos : Position) (from to promo : Z) : list Move :=
  let cap := cell (board pos) to in
  if negb (cap =? 0) && (tolower cap =? Chr.k) then moves
  else moves ++ [mkMove from to cap promo].

(* ------------------------------------------------------------------------- *)
(** ** Attack detection *)
(* ------------------------------------------------------------------------- *)

(** [(bySide == WHITE) ? isWhitePiece(c) : isBlackPiece(c)]. *)
Definition isSidePiece (bySide : Side) (c : Z) : bool :=
  match bySide with WHITE => isWhitePiece c | BLACK => isBlackPiece c end.

(** Every ray on the board is shorter than this. *)
Definition rayFuel : nat := 64.

(** The diagonal loop of [isAttacked] continues while the file moved by one. *)
Definition diagStepOk (prev sq : Z) : bool := Z.abs (fileOf prev - fileOf sq) =? 1.

(** The orthogonal loops break when a horizontal step changes the rank. *)
Definition orthoStepBad (d prev sq : Z) : bool :=
  ((d =? -1) || (d =? 1)) && negb (rankOf prev =? rankOf sq).

(** One sliding loop of [isAttacked], from [sq] in direction [d]: skip empty
    cells, and at the first occupied one answer whether it holds an attacker
    ([return true]) or a blocker ([break]). *)
Fixpoint attackRay (fuel : nat) (b : list Z) (bySide : Side) (d : Z)
    (stepOk : Z -> Z -> bool) (isKind : Z -> bool) (sq : Z) : bool :=
  match fuel with
  | O => false
  | S fuel' =>
      if isOnBoard sq && stepOk (sq - d) sq then
        if cell b sq =? 0 then attackRay fuel' b bySide d stepOk isKind (sq + d)
        else isSidePiece bySide (cell b sq) && isKind (tolower (cell b sq))
      else false
  end.

Definition isAttacked (pos : Position) (target : Z) (bySide : Side) : bool :=
  let b := board pos in
  (* Pawns *)
  (let dir := match bySide with WHITE => 8 | BLACK => -8 end in
   existsb (fun dx =>
     let sq := target + dir + dx in
     isOnBoard sq && (Z.abs (fileOf sq - fileOf target) =? 1)
     && negb (cell b sq =? 0) && isSidePiece bySide (cell b sq)
     && (tolower (cell b sq) =? Chr.p)) [-1; 1])
  (* Knights *)
  || existsb (fun d =>
     let sq := target + d in
     if negb (isOnBoard sq) then false
     else if Z.abs (fileOf target - fileOf sq) >? 2 then false
     else negb (cell b sq =? 0) && isSidePiece bySide (cell b sq)
          && (tolower (cell b sq) =? Chr.n)) knightOffsets
  (* Bishops / Queens *)
  || existsb (fun d =>
     attackRay rayFuel b bySide d diagStepOk
       (fun l => (l =? Chr.b) || (l =? Chr.q)) (target + d)) bishopOffsets
  (* Rooks / Queens *)
  || existsb (fun d =>
     attackRay rayFuel b bySide d (fun prev sq => negb (orthoStepBad d prev sq))
       (fun l => (l =? Chr.r) || (l =? Chr.q)) (target + d)) rookOffsets
  (* King *)
  || existsb (fun d =>
     let sq := target + d in
     isOnBoard sq && (Z.abs (fileOf target - fileOf sq) <=? 1)
     && negb (cell b sq =? 0) && isSidePiece bySide (cell b sq)
     && (tolower (cell b sq) =? Chr.k)) kingOffsets.

(** The squares in scan order, [for (int i = 0; i < 64; ++i)]. *)
Definition squares : list Z := map Z.of_nat (seq 0 64).

Definition isKingOf (sideToFind : Side) (c : Z) : bool :=
  negb (c =? 0) && match sideToFind with WHITE => c =? Chr.K | BLACK => c =? Chr.k end.

Fixpoint kingScan (b : list Z) (sideToFind : Side) (sqs : list Z) : Z :=
  match sqs with
  | [] => -1
  | i :: rest => if isKingOf sideToFind (cell b i) then i else kingScan b sideToFind rest
  end.

Definition kingSquare (pos : Position) (sideToFind : Side) : Z :=
  kingScan (board pos) sideToFind squares.

Definition isInCheck (pos : Position) (sideToMove : Side) : bool :=
  let kSq := kingSquare pos sideToMove in
  isAttacked pos kSq (flipSide sideToMove).

(* ------------------------------------------------------------------------- *)
(** ** Pseudo-legal move generator *)
(* ------------------------------------------------------------------------- *)

(** [isWhitePiece(pc) != isWhitePiece(other)]. *)
Definition differentColour (pc other : Z) : bool :=
  negb (Bool.eqb (isWhitePiece pc) (isWhitePiece other)).

(** [rankOf(sq) == 0 || rankOf(sq) == 7]. *)
Definition isLastRank (sq : Z) : bool := (rankOf sq =? 0) || (rankOf sq =? 7).

Definition genPawn (pos : Position) (s pc : Z) (moves : list Move) : list Move :=
  let b := board pos in
  let dir := if isWhitePiece pc then -8 else 8 in
  let to := s + dir in
  (* single and double step *)
  let moves1 :=
    if isOnBoard to && (cell b to =? 0) then
      let moves' :=
        if isLastRank to then addMove moves pos s to Chr.q
        else addMove moves pos s to 0 in
      let dbl := s + 2 * dir in
      if (((rankOf s =? 6) && isWhitePiece pc) || ((rankOf s =? 1) && isBlackPiece pc))
         && isOnBoard dbl && (cell b dbl =? 0)
      then addMove moves' pos s dbl 0
      else moves'
    else moves in
  (* diagonal captures *)
  fold_left (fun acc dx =>
    let cap := s + dir + dx in
    if isOnBoard cap && (Z.abs (fileOf cap - fileOf s) =? 1)
       && negb (cell b cap =? 0) && differentColour pc (cell b cap)
    then (if isLastRank cap then addMove acc pos s cap Chr.q
          else addMove acc pos s cap 0)
    else acc) [-1; 1] moves1.

(** The knight and king loops: a fixed offset set with a file-delta bound. *)
Definition genLeaper (pos : Position) (s pc : Z) (offsets : list Z) (maxFile : Z)
    (moves : list Move) : list Move :=
  fold_left (fun acc d =>
    let t := s + d in
    if negb (isOnBoard t) || (Z.abs (fileOf s - fileOf t) >? maxFile) then acc
    else if (cell (board pos) t =? 0) || differentColour pc (cell (board pos) t)
         then addMove acc pos s t 0
         else acc) offsets moves.

(** One [while (true)] ray walk of the generator; [t] is the square reached
    so far and [stepBad prev t] the wrap-around test of the loop. *)
Fixpoint genRay (fuel : nat) (pos : Position) (s pc d : Z)
    (stepBad : Z -> Z -> bool) (t : Z) (moves : list Move) : list Move :=
  match fuel with
  | O => moves
  | S fuel' =>
      let prev := t in
      let t := t + d in
      if negb (isOnBoard t) || stepBad prev t then moves
      else if cell (board pos) t =? 0
           then genRay fuel' pos s pc d stepBad t (addMove moves pos s t 0)
           else if differentColour pc (cell (board pos) t)
                then addMove moves pos s t 0
                else moves
  end.

Definition genDiagonals (pos : Position) (s pc : Z) (moves : list Move) : list Move :=
  fold_left (fun acc d =>
    genRay rayFuel pos s pc d (fun prev t => negb (diagStepOk prev t)) s acc)
    bishopOffsets moves.

Definition genOrthogonals (pos : Position) (s pc : Z) (moves : list Move) : list Move :=
  fold_left (fun acc d => genRay rayFuel pos s pc d (orthoStepBad d) s acc)
    rookOffsets moves.

(** The body of the square loop of [generateMoves]. *)
Definition genSquare (pos : Position) (moves : list Move) (s : Z) : list Move :=
  let us := side pos in
  let pc := cell (board pos) s in
  if pc =? 0 then moves
  else if match us with WHITE => negb (isWhitePiece pc) | BLACK => negb (isBlackPiece pc) end
  then moves
  else
    let lower := tolower pc in
    if lower =? Chr.p then genPawn pos s pc moves
    else if lower =? Chr.n then genLeaper pos s pc knightOffsets 2 moves
    else
      let moves1 :=
        if (lower =? Chr.b) || (lower =? Chr.q) then genDiagonals pos s pc moves
        else moves in
      let moves2 :=
        if (lower =? Chr.r) || (lower =? Chr.q) then genOrthogonals pos s pc moves1
        else moves1 in
      if lower =? Chr.k then genLeaper pos s pc kingOffsets 1 moves2
      else moves2.

Definition generateMoves (pos : Position) : list Move :=
  fold_left (genSquare pos) squares [].

(* ------------------------------------------------------------------------- *)
(** ** Legal-move filter *)
(* ------------------------------------------------------------------------- *)

(** The position the filter tests: the piece moved as it is, side flipped. *)
Definition simulate (pos : Position) (mv : Move) : Position :=
  let b1 := setCell (board pos) (to mv) (cell (board pos) (from mv)) in
  let b2 := setCell b1 (from mv) 0 in
  mkPosition b2 (flipSide (side pos)).

(** The filter's own undo of [simulate]. *)
Definition unsimulate (pos : Position) (mv : Move) : Position :=
  let sd := flipSide (side pos) in
  let b1 := setCell (board pos) (from mv) (cell (board pos) (to mv)) in
  let b2 := setCell b1 (to mv) (captured mv) in
  mkPosition b2 sd.

(** One iteration of the loop of [generateLegalMoves]; the state is the
    position, mutated in place, and the output vector. *)
Definition filterStep (st : Position * list Move) (mv : Move) : Position * list Move :=
  let '(pos, legal) := st in
  let pos1 := simulate pos mv in
  let legal' :=
    if negb (isInCheck pos1 (flipSide (side pos1))) then legal ++ [mv] else legal in
  (unsimulate pos1 mv, legal').

(** [generateLegalMoves(pos, legal)] appends to [legal] and leaves [pos] as
    the last undo left it. *)
Definition generateLegalMoves (pos : Position) (legal : list Move) : Position * list Move :=
  let raw := generateMoves pos in
  fold_left filterStep raw (pos, legal).

(* ------------------------------------------------------------------------- *)
(** ** Make / undo and evaluation *)
(* ------------------------------------------------------------------------- *)

Definition makeMove (pos : Position) (m : Move) : Position * Undo :=
  let pc := cell (board pos) (from m) in
  let placed :=
    if negb (promo m =? 0)
    then (if isWhitePiece pc then toupper (promo m) else tolower (promo m))
    else pc in
  let b1 := setCell (board pos) (to m) placed in
  let b2 := setCell b1 (from m) 0 in
  (mkPosition b2 (flipSide (side pos)), mkUndo m).

Definition undoMove (pos : Position) (u : Undo) : Position :=
  let m := um u in
  let sd := flipSide (side pos) in
  let back :=
    if negb (promo m =? 0)
    then (if isWhitePiece (cell (board pos) (to m)) then Chr.P else Chr.p)
    else cell (board pos) (to m) in
  let b1 := setCell (board pos) (from m) back in
  let b2 := setCell b1 (to m) (captured m) in
  mkPosition b2 sd.

Definition evaluate (pos : Position) : Z :=
  let sum :=
    fold_left (fun sum pc =>
      if negb (pc =? 0)
      then sum + (if isWhitePiece pc then pieceValue pc else - pieceValue pc)
      else sum) (board pos) 0 in
  match side pos with WHITE => sum | BLACK => - sum end.

(** The initial layout of [Game::Game]. *)
Definition initialBoard : list Z :=
  [114; 110; 98; 113; 107; 98; 110; 114;
   112; 112; 112; 112; 112; 112; 112; 112;
   0; 0; 0; 0; 0; 0; 0; 0;
   0; 0; 0; 0; 0; 0; 0; 0;
   0; 0; 0; 0; 0; 0; 0; 0;
   0; 0; 0; 0; 0; 0; 0; 0;
   80; 80; 80; 80; 80; 80; 80; 80;
   82; 78; 66; 81; 75; 66; 78; 82].

Definition initialPosition : Position := mkPosition initialBoard WHITE.

(* ------------------------------------------------------------------------- *)
(** ** Strings *)
(* ------------------------------------------------------------------------- *)

(** The value of a [char] of a [std::string] as an [int] ([char] is signed). *)
Definition charCode (c : ascii) : Z :=
  let n := Z.of_N (N_of_ascii c) in
  if n <? 128 then n else n - 256.

(** [std::to_string(int)], as the codes of its characters. *)
Definition to_string (n : Z) : list Z :=
  map charCode (list_ascii_of_string (NilZero.string_of_int (Z.to_int n))).

(* ------------------------------------------------------------------------- *)
(** ** Transposition table *)
(* ------------------------------------------------------------------------- *)

Record TTEntry : Set := mkTTEntry { ttDepth : Z; ttScore : Z }.

(** [std::unordered_map<std::string, TTEntry>]; a key is the sequence of the
    characters of the string. *)
Abbreviation TT := (gmap (list Z) TTEntry).

(** [boardKey + static_cast<char>('0' + pos.side) + std::to_string(depth)]. *)
Definition ttKeyOf (pos : Position) (depth : Z) : list Z :=
  board pos ++ [Chr.zero + sideNum (side pos)] ++ to_string depth.

(** The lookup that opens [alphaBetaSearch]: the stored score when an entry
    is found whose recorded depth is at least the requested one. *)
Definition ttProbe (tt : TT) (ttKey : list Z) (depth : Z) : option Z :=
  match tt !! ttKey with
  | Some e => if ttDepth e >=? depth then Some (ttScore e) else None
  | None => None
  end.

(* ------------------------------------------------------------------------- *)
(** ** Search *)
(* ------------------------------------------------------------------------- *)

Definition INF : Z := 1000000000.

(** The comparator handed to [std::sort]: [h1 > h2]. *)
Definition mvvLva (pos : Position) (m1 m2 : Move) : bool :=
  let h (m : Move) :=
    if negb (captured m =? 0)
    then pieceValue (captured m) - pieceValue (cell (board pos) (from m))
    else 0 in
  h m1 >? h m2.

(** What a search call hands back: the score, the position object as the
    call left it, and the table.  [None] stands for a recursion that did not
    finish within the fuel. *)
Abbreviation SearchResult := (option (Z * Position * TT)).

Abbreviation Searcher := (Position -> Z -> Z -> Z -> TT -> SearchResult).

(** The move loop of [alphaBetaSearch]; [search] is the recursive call. *)
Fixpoint searchLoop (search : Searcher) (moves : list Move) (pos : Position)
    (depth alpha beta bestScore : Z) (ttKey : list Z) (tt : TT) : SearchResult :=
  match moves with
  | [] => Some (bestScore, pos, <[ttKey := mkTTEntry depth bestScore]> tt)
  | m :: rest =>
      let '(pos1, u) := makeMove pos m in
      match search pos1 (depth - 1) (- beta) (- alpha) tt with
      | None => None
      | Some (r, pos2, tt2) =>
          let score := - r in
          let pos3 := undoMove pos2 u in
          if score >=? beta
          then Some (beta, pos3, <[ttKey := mkTTEntry depth beta]> tt2)
          else
            let bestScore' := if score >? bestScore then score else bestScore in
            let alpha' := if score >? alpha then score else alpha in
            searchLoop search rest pos3 depth alpha' beta bestScore' ttKey tt2
      end
  end.

(** What a call that can fail in two ways produces. *)
Inductive Outcome (A : Type) : Type :=
  | Returned (a : A)
  | OutOfBounds            (* an access past the end of a vector *)
  | OutOfFuel.             (* the recursion did not finish within the fuel *)
Arguments Returned {A} a.
Arguments OutOfBounds {A}.
Arguments OutOfFuel {A}.

(** [x < y] on the rationals that the [double]s stand for. *)
Definition Qltb (x y : Q) : bool := negb (Qle_bool y x).

(** The move loop of [searchBestMove].  [draws] is the sequence of values
    that [uni(rng)] yields and [k] the number of draws made so far. *)
Fixpoint rootLoop (search : Searcher) (randProb : Q) (draws : nat -> Q) (k : nat)
    (moves : list Move) (pos : Position) (depth : Z) (best : Move) (bestScore : Z)
    (tt : TT) : Outcome (Move * Position * TT) :=
  match moves with
  | [] => Returned (best, pos, tt)
  | m :: rest =>
      if Qltb 0 randProb && Qltb (draws k) randProb
      then Returned (m, pos, tt)
      else
        let k' := if Qltb 0 randProb then S k else k in
        let '(pos1, u) := makeMove pos m in
        match search pos1 (depth - 1) (- INF) INF tt with
        | None => OutOfFuel
        | Some (r, pos2, tt2) =>
            let score := - r in
            let pos3 := undoMove pos2 u in
            if score >? bestScore
            then rootLoop search randProb draws k' rest pos3 depth m score tt2
            else rootLoop search randProb draws k' rest pos3 depth best bestScore tt2
        end
  end.

Section Search.

(** [std::sort]: the order of equivalent elements is unspecified, so the
    routine is a parameter; the theorems that need it assume that it
    permutes its input. *)
Variable std_sort : (Move -> Move -> bool) -> list Move -> list Move.

Fixpoint alphaBetaSearch (fuel : nat) (pos : Position) (depth alpha beta : Z)
    (tt : TT) : SearchResult :=
  match fuel with
  | O => None
  | S fuel' =>
      let ttKey := ttKeyOf pos depth in
      match ttProbe tt ttKey depth with
      | Some s => Some (s, pos, tt)
      | None =>
          if depth =? 0 then Some (evaluate pos, pos, tt)
          else
            let '(pos, moves) := generateLegalMoves pos [] in
            match moves with
            | [] =>
                let val := if isInCheck pos (side pos) then -100000 + depth else 0 in
                Some (val, pos, <[ttKey := mkTTEntry depth val]> tt)
            | _ :: _ =>
                let moves := std_sort (mvvLva pos) moves in
                searchLoop (alphaBetaSearch fuel') moves pos depth alpha beta
                  (- INF) ttKey tt
            end
      end
  end.

(** [searchBestMove] over an arbitrary searcher; [moves[0]] is read before
    anything else is done with the vector. *)
Definition searchBestMoveWith (search : Searcher) (pos : Position) (depth : Z)
    (randProb : Q) (draws : nat -> Q) (tt : TT) : Outcome (Move * Position * TT) :=
  let '(pos, moves) := generateLegalMoves pos [] in
  match moves with
  | [] => OutOfBounds
  | m0 :: _ =>
      let best := m0 in
      let bestScore := - INF in
      let moves := std_sort (mvvLva pos) moves in
      rootLoop search randProb draws 0 moves pos depth best bestScore tt
  end.

Definition searchBestMove (fuel : nat) : Position -> Z -> Q -> (nat -> Q) -> TT ->
    Outcome (Move * Position * TT) :=
  searchBestMoveWith (alphaBetaSearch fuel).

End Search.

(** A sorting routine to run the search with: the stable insertion sort,
    which is what [std::sort] of libstdc++ amounts to on a vector of at most
    16 elements, its threshold for partitioning. *)
Fixpoint insertBy (cmp : Move -> Move -> bool) (m : Move) (l : list Move) : list Move :=
  match l with
  | [] => [m]
  | x :: rest => if cmp m x then m :: l else x :: insertBy cmp m rest
  end.

Definition insertionSort (cmp : Move -> Move -> bool) (l : list Move) : list Move :=
  fold_left (fun acc m => insertBy cmp m acc) l [].

(* ------------------------------------------------------------------------- *)
(** ** Square names *)
(* ------------------------------------------------------------------------- *)

(** [static_cast<char>] of a small non-negative [int]. *)
Definition charOf (n : Z) : ascii := ascii_of_N (Z.to_N n).

Definition squareToAlgebraic (sq : Z) : string :=
  String (charOf (Chr.a + fileOf sq)) (String (charOf (Chr.eight - rankOf sq)) EmptyString).

(** [s[i]] for an index within the string. *)
Definition charAt (s : string) (i : nat) : Z :=
  match String.get i s with Some c => charCode c | None => 0 end.

Definition algebraicToSquare (s : string) : Z :=
  ((Chr.eight - charAt s 1) * 8) + (charAt s 0 - Chr.a).

(* ------------------------------------------------------------------------- *)
(** ** The game wrapper *)
(* ------------------------------------------------------------------------- *)

Module Game.

(** The members of [class Game]. *)
Record t : Type := mk {
  pos : Position;
  whiteCaps : list Z;
  blackCaps : list Z;
  levelDepth : Z;
  randomProbability : Q;
  lastMove : string
}.

(** The [double] nearest to the literal [0.35]. *)
Definition double_0_35 : Q := 3152519739159347 # 9007199254740992.

(** [setLevel]; the second component is the global table. *)
Definition setLevel (lvl : Z) (st : t * TT) : t * TT :=
  let '(g, _) := st in
  let g' :=
    if lvl =? 1 then
      mk (pos g) (whiteCaps g) (blackCaps g) 2 double_0_35 (lastMove g)
    else if lvl =? 2 then
      mk (pos g) (whiteCaps g) (blackCaps g) 4 0%Q (lastMove g)
    else
      mk (pos g) (whiteCaps g) (blackCaps g) 6 0%Q (lastMove g) in
  (g', ∅).

(** The default argument of the constructor, [Game(int level = 2)]. *)
Definition defaultLevel : Z := 2.

(** [Game(level)]: the members before [setLevel] runs hold the initial
    position and empty vectors and string; [levelDepth] and
    [randomProbability] are left to [setLevel]. *)
Definition new (level : option Z) (tt : TT) : t * TT :=
  let lvl := match level with Some l => l | None => defaultLevel end in
  setLevel lvl (mk initialPosition [] [] 0 0%Q EmptyString, tt).

Definition legalMoves (g : t) : list string * t :=
  let '(pos', mv) := generateLegalMoves (pos g) [] in
  (map (fun m => (squareToAlgebraic (from m) ++ squareToAlgebraic (to m))%string) mv,
   mk pos' (whiteCaps g) (blackCaps g) (levelDepth g) (randomProbability g) (lastMove g)).

(** The loop of [playerMove] over the legal moves. *)
Fixpoint playerLoop (mv : list Move) (f t : Z) (s : string) (g : Game.t) : bool * Game.t :=
  match mv with
  | [] => (false, g)
  | m :: rest =>
      if (from m =? f) && (to m =? t) then
        let '(pos', _) := makeMove (pos g) m in
        let caps := if negb (captured m =? 0) then whiteCaps g ++ [captured m]
                    else whiteCaps g in
        let last := ("You: " ++ substring 0 2 s ++ "-" ++ substring 2 2 s)%string in
        (true, mk pos' caps (blackCaps g) (levelDepth g) (randomProbability g) last)
      else playerLoop rest f t s g
  end.

Definition playerMove (s : string) (g : t) : bool * t :=
  if negb (String.length s =? 4)%nat then (false, g)
  else
    let f := algebraicToSquare (substring 0 2 s) in
    let t := algebraicToSquare (substring 2 2 s) in
    let '(pos', mv) := generateLegalMoves (pos g) [] in
    playerLoop mv f t s
      (mk pos' (whiteCaps g) (blackCaps g) (levelDepth g) (randomProbability g) (lastMove g)).

(** [inCheck], [isCheckmate] and [isStalemate]; the last two work on a copy
    of the position. *)
Definition inCheck (g : t) : bool := isInCheck (pos g) (side (pos g)).

Definition isCheckmate (g : t) : bool :=
  if negb (isInCheck (pos g) (side (pos g))) then false
  else
    let copyPos := pos g in
    let '(_, mv) := generateLegalMoves copyPos [] in
    match mv with [] => true | _ :: _ => false end.

Definition isStalemate (g : t) : bool :=
  if isInCheck (pos g) (side (pos g)) then false
  else
    let copyPos := pos g in
    let '(_, mv) := generateLegalMoves copyPos [] in
    match mv with [] => true | _ :: _ => false end.

(** [board64]: the 64 characters of the board. *)
Definition board64 (g : t) : list Z := board (pos g).

Section Ai.

Variable std_sort : (Move -> Move -> bool) -> list Move -> list Move.

(** [aiMove], on the game and the global table. *)
Definition aiMove (fuel : nat) (draws : nat -> Q) (st : t * TT) : Outcome (string * (t * TT)) :=
  let '(g, table) := st in
  let mat := evaluate (pos g) in
  let extra := if Z.abs mat >? 1500 then 2 else 0 in
  match searchBestMove std_sort fuel (pos g) (levelDepth g + extra)
          (randomProbability g) draws table with
  | Returned (m, pos1, table') =>
      let '(pos2, _) := makeMove pos1 m in
      let caps := if negb (captured m =? 0) then blackCaps g ++ [captured m]
                  else blackCaps g in
      let mvStr := (squareToAlgebraic (from m) ++ squareToAlgebraic (to m))%string in
      Returned (mvStr,
                (mk pos2 (whiteCaps g) caps (levelDepth g) (randomProbability g)
                   ("AI: " ++ mvStr)%string, table'))
  | OutOfBounds => OutOfBounds
  | OutOfFuel => OutOfFuel
  end.

End Ai.

End Game.

(* ------------------------------------------------------------------------- *)
(** ** Vocabulary of the properties *)
(* ------------------------------------------------------------------------- *)

(** The facts that hold of every generated move. *)
Record genOk (pos : Position) (m : Move) : Prop := mkGenOk {
  ok_from : isOnBoard (from m) = true;
  ok_to : isOnBoard (to m) = true;
  ok_distinct : from m <> to m;
  ok_captured : captured m = cell (board pos) (to m);
  ok_no_king : tolower (captured m) <> Chr.k;
  ok_mover : isSidePiece (side pos) (cell (board pos) (from m)) = true;
  ok_promo : promo m = 0 \/ (promo m = Chr.q /\ tolower (cell (board pos) (from m)) = Chr.p)
}.

(** What is known of the square [s] and its piece [pc] inside the loop body. *)
Record genCtx (pos : Position) (s pc : Z) : Prop := mkGenCtx {
  ctx_on : isOnBoard s = true;
  ctx_pc : pc = cell (board pos) s;
  ctx_side : isSidePiece (side pos) pc = true
}.

(** The piece that [makeMove] puts on the destination square. *)
Definition placedPiece (pos : Position) (m : Move) : Z :=
  let pc := cell (board pos) (from m) in
  if negb (promo m =? 0)
  then (if isWhitePiece pc then toupper (promo m) else tolower (promo m))
  else pc.

(** The filter's make and undo are [makeMove] and [undoMove] of the move
    without its promotion. *)
Definition plainMove (m : Move) : Move := mkMove (from m) (to m) (captured m) 0.

(** The test that keeps a move. *)
Definition keepsKingSafe (pos : Position) (mv : Move) : bool :=
  negb (isInCheck (simulate pos mv) (side pos)).

(** What one cell adds to the sum of [evaluate]. *)
Definition cellValue (pc : Z) : Z :=
  if negb (pc =? 0)
  then (if isWhitePiece pc then pieceValue pc else - pieceValue pc)
  else 0.

(** How many cells hold the piece [c]. *)
Definition countOf (c : Z) (b : list Z) : Z :=
  Z.of_nat (length (List.filter (Z.eqb c) b)).

(** The number of squares left in front of [sq] when walking by [d]. *)
Definition rayRoom (d sq : Z) : nat :=
  Z.to_nat (if d >? 0 then 64 - sq else sq + 1).

(** The sliding loop of [isAttacked] with its iterations counted: [None]
    when [fuel] evaluations of the loop condition have not brought it to its
    [return], its [break] or a failing condition. *)
Fixpoint attackRayWithin (fuel : nat) (b : list Z) (bySide : Side) (d : Z)
    (stepOk : Z -> Z -> bool) (isKind : Z -> bool) (sq : Z) : option bool :=
  match fuel with
  | O => None
  | S fuel' =>
      if isOnBoard sq && stepOk (sq - d) sq then
        if cell b sq =? 0 then attackRayWithin fuel' b bySide d stepOk isKind (sq + d)
        else Some (isSidePiece bySide (cell b sq) && isKind (tolower (cell b sq)))
      else Some false
  end.

(** The [while (true)] walk of the generator, counted the same way. *)
Fixpoint genRayWithin (fuel : nat) (pos : Position) (s pc d : Z)
    (stepBad : Z -> Z -> bool) (t : Z) (moves : list Move) : option (list Move) :=
  match fuel with
  | O => None
  | S fuel' =>
      let prev := t in
      let t := t + d in
      if negb (isOnBoard t) || stepBad prev t then Some moves
      else if cell (board pos) t =? 0
           then genRayWithin fuel' pos s pc d stepBad t (addMove moves pos s t 0)
           else if differentColour pc (cell (board pos) t)
                then Some (addMove moves pos s t 0)
                else Some moves
  end.

(** Two cells that [isAttacked] by [bySide] cannot tell apart. *)
Definition cellAlike (bySide : Side) (c1 c2 : Z) : Prop :=
  c1 = c2 \/
  (c1 <> 0 /\ c2 <> 0 /\ isSidePiece bySide c1 = false /\ isSidePiece bySide c2 = false).

Definition boardsAlike (bySide : Side) (b1 b2 : list Z) : Prop :=
  forall sq, isOnBoard sq = true -> cellAlike bySide (cell b1 sq) (cell b2 sq).

(** The score, the table and the move that a result carries. *)
Definition scoreOf (r : SearchResult) : option Z :=
  match r with Some (s, _, _) => Some s | None => None end.

Definition tableOf (r : SearchResult) : TT :=
  match r with Some (_, _, t) => t | None => ∅ end.

Definition moveOf (o : Outcome (Move * Position * TT)) : option Move :=
  match o with Returned (m, _, _) => Some m | _ => None end.

(** A random source for a caller that never blunders. *)
Definition noDraws : nat -> Q := fun _ => 0%Q.

(* ------------------------------------------------------------------------- *)
(** ** Positions used in the examples *)
(* ------------------------------------------------------------------------- *)

(** The empty board with the listed (square, piece) pairs put on it. *)
Definition place (l : list (Z * Z)) : list Z :=
  fold_left (fun b '(sq, c) => setCell b sq c) l (repeat 0 64%nat).

(** Black king a8, white king h1. *)
Definition twoKings : Position := mkPosition (place [(0, 107); (63, 75)]) WHITE.

(** Black king h8, white king g6, white queen a7, White to move: Qb8, Qa8,
    Qg7 and Qh7 mate at once. *)
Definition mateInOne : Position :=
  mkPosition (place [(7, 107); (22, 75); (8, 81)]) WHITE.

(** Qa7-b8, mate. *)
Definition mateNow : Move := mkMove 8 1 0 0.

(** Black king h8, white king f8, white knight h6, white pawns g6 and g5,
    White to move: Nf7 mates at once. *)
Definition knightMate : Position :=
  mkPosition (place [(7, 107); (5, 75); (23, 78); (22, 80); (30, 80)]) WHITE.

(** Nh6-f7, mate. *)
Definition mateByKnight : Move := mkMove 23 13 0 0.

(** g6-g7, check, after which Black has the single reply Kh7 and is mated
    by g7-g8 next. *)
Definition pawnCheck : Move := mkMove 22 14 0 0.

(** The largest number of legal moves in a position reached from [pos] by at
    most [plies] legal moves: the longest vector the search sorts there. *)
Fixpoint widest (plies : nat) (pos : Position) : nat :=
  let mv := snd (generateLegalMoves pos []) in
  match plies with
  | O => length mv
  | S k => fold_left (fun acc m => Nat.max acc (widest k (fst (makeMove pos m)))) mv (length mv)
  end.

(** White pawn b7, black rook a8, black king h8, white king e1. *)
Definition promotionPosition : Position :=
  mkPosition (place [(9, 80); (0, 114); (7, 107); (60, 75)]) WHITE.

(** b7xa8, promoting. *)
Definition promoCapture : Move := mkMove 9 0 114 113.

(** White rook a8 and king e1, black king h8, White to move: the rook's ray
    along the eighth rank ends on the black king. *)
Definition rookFacesKing : Position :=
  mkPosition (place [(0, 82); (7, 107); (60, 75)]) WHITE.

(** The character that [kingSquare] looks for. *)
Definition kingChar (sd : Side) : Z :=
  match sd with WHITE => Chr.K | BLACK => Chr.k end.

(** Every entry of the table sits at the key of some position taken at the
    depth the entry records. *)
Definition ttSound (tt : TT) : Prop :=
  forall key e, tt !! key = Some e ->
  exists pos, wfPosition pos /\ key = ttKeyOf pos (ttDepth e).

(** The direction in which the pawn [pc] advances. *)
Definition pawnDir (pc : Z) : Z := if isWhitePiece pc then -8 else 8.

(** The file and rank components of a ray offset. *)
Definition fileStep (d : Z) : Z :=
  if (d =? -9) || (d =? -1) || (d =? 7) then -1
  else if (d =? -7) || (d =? 1) || (d =? 9) then 1
  else 0.

Definition rankStep (d : Z) : Z :=
  if (d =? -9) || (d =? -8) || (d =? -7) then -1
  else if (d =? 7) || (d =? 8) || (d =? 9) then 1
  else 0.

(** The wrap-around test of the diagonal walk, in the form of the orthogonal
    one. *)
Definition diagStepBad (d prev t : Z) : bool := negb (diagStepOk prev t).

(** How a pawn move relates to the board: an advance of one onto an empty
    cell, an advance of two from the starting rank over an empty cell, or a
    step to a neighbouring file onto an occupied cell; it promotes exactly
    when it lands on rank 0 or 7. *)
Definition pawnShape (pos : Position) (m : Move) : Prop :=
  let pc := cell (board pos) (from m) in
  let dir := pawnDir pc in
  promo m = (if isLastRank (to m) then Chr.q else 0) /\
  ((to m = from m + dir /\ captured m = 0) \/
   (to m = from m + 2 * dir /\ captured m = 0 /\ cell (board pos) (from m + dir) = 0 /\
    rankOf (from m) = (if isWhitePiece pc then 6 else 1)) \/
   ((to m = from m + dir - 1 \/ to m = from m + dir + 1) /\
    Z.abs (fileOf (to m) - fileOf (from m)) = 1 /\ captured m <> 0)).

(** A knight or king move: one offset of the set, within the file bound. *)
Definition leapShape (m : Move) (offsets : list Z) (maxFile : Z) : Prop :=
  promo m = 0 /\
  exists d, In d offsets /\ to m = from m + d /\
            Z.abs (fileOf (from m) - fileOf (to m)) <= maxFile.

(** A sliding move: [k] steps of one offset, each onto the board and past
    the wrap-around test, over empty cells. *)
Definition slideShape (pos : Position) (m : Move) (offsets : list Z)
    (stepBad : Z -> Z -> Z -> bool) : Prop :=
  promo m = 0 /\
  exists d k, In d offsets /\ 1 <= k /\ to m = from m + k * d /\
    (forall i, 0 <= i < k ->
       isOnBoard (from m + (i + 1) * d) = true /\
       stepBad d (from m + i * d) (from m + (i + 1) * d) = false) /\
    (forall i, 0 < i < k -> cell (board pos) (from m + i * d) = 0).

(** What the generator guarantees of the shape of a move. *)
Record moveShape (pos : Position) (m : Move) : Prop := mkMoveShape {
  shape_capture :
    captured m = 0 \/ differentColour (cell (board pos) (from m)) (captured m) = true;
  shape_kind :
    let l := tolower (cell (board pos) (from m)) in
    (l = Chr.p /\ pawnShape pos m) \/
    (l = Chr.n /\ leapShape m knightOffsets 2) \/
    (l = Chr.k /\ leapShape m kingOffsets 1) \/
    ((l = Chr.b \/ l = Chr.q) /\ slideShape pos m bishopOffsets diagStepBad) \/
    ((l = Chr.r \/ l = Chr.q) /\ slideShape pos m rookOffsets orthoStepBad)
}.

(** The sum that [evaluate] forms over the board. *)
Definition material (b : list Z) : Z := fold_right Z.add 0 (map cellValue b).

(* ========================================================================= *)
(** * Properties *)
(* ========================================================================= *)

(* ------------------------------------------------------------------------- *)
(** ** Cells, files and ranks *)
(* ------------------------------------------------------------------------- *)

Lemma isOnBoard_spec sq : isOnBoard sq = true <-> 0 <= sq < 64.
Proof. unfold isOnBoard. rewrite andb_true_iff, Z.leb_le, Z.ltb_lt. tauto. Qed.

Lemma isOnBoard_false sq : isOnBoard sq = false <-> ~ (0 <= sq < 64).
Proof. rewrite <- isOnBoard_spec. destruct (isOnBoard sq); split; congruence. Qed.

Lemma fileOf_mod sq : fileOf sq = sq mod 8.
Proof. unfold fileOf. change 7 with (Z.ones 3). now rewrite Z.land_ones. Qed.

Lemma rankOf_div sq : rankOf sq = sq / 8.
Proof. unfold rankOf. now rewrite Z.shiftr_div_pow2. Qed.

Lemma length_setCell b sq v : length (setCell b sq v) = length b.
Proof. apply length_insert. Qed.

Lemma cell_lookup b sq :
  (Z.to_nat sq < length b)%nat -> b !! Z.to_nat sq = Some (cell b sq).
Proof.
  intros H. unfold cell.
  destruct (nth_lookup_or_length b (Z.to_nat sq) 0) as [E|E]; [exact E | lia].
Qed.

Lemma cell_setCell_eq b sq v :
  (Z.to_nat sq < length b)%nat -> cell (setCell b sq v) sq = v.
Proof.
  intros H. unfold cell, setCell.
  rewrite nth_lookup, list_lookup_insert_eq; auto.
Qed.

Lemma cell_setCell_ne b sq sq' v :
  0 <= sq -> 0 <= sq' -> sq <> sq' -> cell (setCell b sq v) sq' = cell b sq'.
Proof.
  intros H1 H2 H3. unfold cell, setCell.
  rewrite !nth_lookup, list_lookup_insert_ne; auto. lia.
Qed.

Lemma setCell_same b sq v w : setCell (setCell b sq v) sq w = setCell b sq w.
Proof. apply list_insert_insert_eq. Qed.

Lemma setCell_swap b sq sq' v w :
  0 <= sq -> 0 <= sq' -> sq <> sq' ->
  setCell (setCell b sq v) sq' w = setCell (setCell b sq' w) sq v.
Proof. intros. unfold setCell. apply list_insert_insert_ne. lia. Qed.

Lemma setCell_id b sq :
  (Z.to_nat sq < length b)%nat -> setCell b sq (cell b sq) = b.
Proof. intros H. apply list_insert_id. now apply cell_lookup. Qed.

Lemma wf_index pos sq :
  wfPosition pos -> isOnBoard sq = true -> (Z.to_nat sq < length (board pos))%nat.
Proof. unfold wfPosition. rewrite isOnBoard_spec. intros -> ?. lia. Qed.

Lemma flipSide_involutive s : flipSide (flipSide s) = s.
Proof. now destruct s. Qed.

Lemma isSidePiece_nonzero sd c : isSidePiece sd c = true -> c <> 0.
Proof.
  destruct sd; unfold isSidePiece, isWhitePiece, isBlackPiece, isupper, islower; lia.
Qed.

(* ------------------------------------------------------------------------- *)
(** ** What the generator produces *)
(* ------------------------------------------------------------------------- *)

Lemma addMove_ok pos moves f t pr :
  Forall (genOk pos) moves ->
  isOnBoard f = true -> isOnBoard t = true -> f <> t ->
  isSidePiece (side pos) (cell (board pos) f) = true ->
  (pr = 0 \/ (pr = Chr.q /\ tolower (cell (board pos) f) = Chr.p)) ->
  Forall (genOk pos) (addMove moves pos f t pr).
Proof.
  intros Hm Hf Ht Hne Hs Hp. unfold addMove.
  destruct (negb (cell (board pos) t =? 0) && (tolower (cell (board pos) t) =? 107)) eqn:E; auto.
  apply Forall_app; split; auto. constructor; auto.
  constructor; simpl; auto.
  apply andb_false_iff in E as [E|E].
  - apply negb_false_iff, Z.eqb_eq in E. rewrite E. unfold tolower, isupper. simpl. lia.
  - now apply Z.eqb_neq in E.
Qed.

Ltac on_board :=
  repeat match goal with
  | H : isOnBoard _ = true |- _ => apply isOnBoard_spec in H
  | H : isOnBoard _ = false |- _ => apply isOnBoard_false in H
  | |- isOnBoard _ = true => apply isOnBoard_spec
  end.

Ltac split_bools :=
  repeat match goal with
  | H : _ && _ = true |- _ => apply andb_true_iff in H as [? ?]
  | H : negb _ = true |- _ => apply negb_true_iff in H
  | H : negb _ = false |- _ => apply negb_false_iff in H
  | H : _ || _ = false |- _ => apply orb_false_iff in H as [? ?]
  end.

Lemma genPawn_ok pos s pc moves :
  genCtx pos s pc -> tolower pc = Chr.p ->
  Forall (genOk pos) moves -> Forall (genOk pos) (genPawn pos s pc moves).
Proof.
  intros [Hon Hpc Hsd] Hlow Hm. subst pc. unfold genPawn. cbn [fold_left].
  set (dir := if isWhitePiece _ then -8 else 8).
  assert (Hdir : dir = -8 \/ dir = 8) by (subst dir; destruct (isWhitePiece _); auto).
  repeat match goal with
  | |- Forall _ (if ?c then _ else _) => destruct c eqn:?
  | |- Forall _ (addMove _ _ _ _ _) => apply addMove_ok
  end; auto; split_bools; on_board; auto; try lia.
Qed.

Lemma genLeaper_ok pos s pc offsets maxFile moves :
  genCtx pos s pc -> Forall (fun d => d <> 0) offsets ->
  Forall (genOk pos) moves -> Forall (genOk pos) (genLeaper pos s pc offsets maxFile moves).
Proof.
  intros [Hon Hpc Hsd] Hoff. subst pc. unfold genLeaper.
  revert moves. induction Hoff as [|d offsets Hd Hoff IH]; intros moves Hm; simpl; auto.
  apply IH.
  repeat match goal with
  | |- Forall _ (if ?c then _ else _) => destruct c eqn:?
  | |- Forall _ (addMove _ _ _ _ _) => apply addMove_ok
  end; auto; split_bools; on_board; auto; try lia.
Qed.

Lemma genRay_ok fuel pos s pc d stepBad t moves :
  genCtx pos s pc -> (0 < d /\ s <= t \/ d < 0 /\ t <= s) ->
  Forall (genOk pos) moves -> Forall (genOk pos) (genRay fuel pos s pc d stepBad t moves).
Proof.
  intros [Hon Hpc Hsd]. subst pc.
  revert t moves. induction fuel as [|fuel IH]; intros t moves Hd Hm; simpl; auto.
  repeat match goal with
  | |- Forall _ (genRay _ _ _ _ _ _ _ _) => apply IH
  | |- Forall _ (if ?c then _ else _) => destruct c eqn:?
  | |- Forall _ (addMove _ _ _ _ _) => apply addMove_ok
  end; auto; split_bools; on_board; auto; try lia.
Qed.

Lemma genDiagonals_ok pos s pc moves :
  genCtx pos s pc ->
  Forall (genOk pos) moves -> Forall (genOk pos) (genDiagonals pos s pc moves).
Proof.
  intros Hc Hm. unfold genDiagonals, bishopOffsets. cbn [fold_left].
  repeat (apply genRay_ok; auto; try lia).
Qed.

Lemma genOrthogonals_ok pos s pc moves :
  genCtx pos s pc ->
  Forall (genOk pos) moves -> Forall (genOk pos) (genOrthogonals pos s pc moves).
Proof.
  intros Hc Hm. unfold genOrthogonals, rookOffsets. cbn [fold_left].
  repeat (apply genRay_ok; auto; try lia).
Qed.

Lemma genSquare_ok pos moves s :
  isOnBoard s = true ->
  Forall (genOk pos) moves -> Forall (genOk pos) (genSquare pos moves s).
Proof.
  intros Hon Hm. unfold genSquare.
  destruct (cell (board pos) s =? 0) eqn:E0; auto.
  destruct (match side pos with WHITE => _ | BLACK => _ end) eqn:Es; auto.
  assert (Hc : genCtx pos s (cell (board pos) s)).
  { constructor; auto. unfold isSidePiece. destruct (side pos); now apply negb_false_iff in Es. }
  destruct (tolower (cell (board pos) s) =? 112) eqn:Ep.
  { apply genPawn_ok; auto. now apply Z.eqb_eq. }
  destruct (tolower (cell (board pos) s) =? 110) eqn:En.
  { apply genLeaper_ok; auto. unfold knightOffsets. repeat constructor; lia. }
  repeat match goal with
  | |- Forall _ (if ?c then _ else _) => destruct c eqn:?
  | |- Forall _ (genLeaper _ _ _ _ _ _) =>
      apply genLeaper_ok; [assumption | unfold kingOffsets; repeat constructor; lia | ]
  | |- Forall _ (genOrthogonals _ _ _ _) => apply genOrthogonals_ok; [assumption | ]
  | |- Forall _ (genDiagonals _ _ _ _) => apply genDiagonals_ok; [assumption | ]
  end; auto.
Qed.

Lemma squares_on_board : Forall (fun s => isOnBoard s = true) squares.
Proof. unfold squares. cbn. repeat (constructor; [reflexivity |]). constructor. Qed.

Lemma generateMoves_ok pos : Forall (genOk pos) (generateMoves pos).
Proof.
  unfold generateMoves.
  assert (H : forall sqs moves, Forall (fun s => isOnBoard s = true) sqs ->
            Forall (genOk pos) moves -> Forall (genOk pos) (fold_left (genSquare pos) sqs moves)).
  { induction sqs as [|s sqs IH]; intros moves Hs Hm; simpl; auto.
    inversion Hs; subst. apply IH; auto. apply genSquare_ok; auto. }
  apply H; [apply squares_on_board | constructor].
Qed.

(* ------------------------------------------------------------------------- *)
(** ** Make and undo *)
(* ------------------------------------------------------------------------- *)

Lemma mover_pawn sd pc :
  isSidePiece sd pc = true -> tolower pc = Chr.p ->
  (sd = WHITE /\ pc = Chr.P) \/ (sd = BLACK /\ pc = Chr.p).
Proof.
  unfold tolower, isSidePiece, isWhitePiece, isBlackPiece, isupper, islower.
  destruct sd; intros Hs Hl; destruct ((65 <=? pc) && (pc <=? 90)) eqn:E;
    split_bools; try discriminate; try lia;
    [left | right]; (split; [reflexivity | lia]).
Qed.

Lemma placedPiece_cases pos m :
  genOk pos m ->
  let pc := cell (board pos) (from m) in
  (promo m = 0 /\ placedPiece pos m = pc) \/
  (promo m = Chr.q /\ side pos = WHITE /\ pc = Chr.P /\ placedPiece pos m = 81) \/
  (promo m = Chr.q /\ side pos = BLACK /\ pc = Chr.p /\ placedPiece pos m = Chr.q).
Proof.
  intros H pc. unfold placedPiece. fold pc.
  destruct (ok_promo _ _ H) as [Hp | [Hp Hl]]; rewrite Hp.
  - left. auto.
  - right. destruct (mover_pawn _ _ (ok_mover _ _ H) Hl) as [[Hs Hc] | [Hs Hc]];
      subst pc; rewrite Hc; [left | right]; auto.
Qed.

Lemma makeMove_placed pos m :
  makeMove pos m =
  (mkPosition (setCell (setCell (board pos) (to m) (placedPiece pos m)) (from m) 0)
     (flipSide (side pos)), mkUndo m).
Proof. reflexivity. Qed.

(** [undoMove] after [makeMove] gives the position back, for a move with the
    generator's guarantees. *)
Lemma make_undo_genOk pos m :
  wfPosition pos -> genOk pos m ->
  undoMove (fst (makeMove pos m)) (snd (makeMove pos m)) = pos.
Proof.
  intros Hwf H.
  pose proof (wf_index _ _ Hwf (ok_from _ _ H)) as Hf.
  pose proof (wf_index _ _ Hwf (ok_to _ _ H)) as Ht.
  pose proof (ok_from _ _ H) as Hfo. pose proof (ok_to _ _ H) as Hto. on_board.
  pose proof (ok_distinct _ _ H) as Hne.
  pose proof (placedPiece_cases _ _ H) as Hpl. cbv zeta in Hpl.
  rewrite makeMove_placed. unfold undoMove. cbn [fst snd um board side].
  set (pl := placedPiece pos m) in *.
  rewrite flipSide_involutive.
  rewrite cell_setCell_ne by lia.
  rewrite cell_setCell_eq by lia.
  rewrite setCell_same.
  assert (Hback : (if negb (promo m =? 0)
                   then if isWhitePiece pl then 80 else 112
                   else pl) = cell (board pos) (from m)).
  { destruct Hpl as [[Hp Hq] | [[Hp [_ [Hc Hq]]] | [Hp [_ [Hc Hq]]]]];
      rewrite Hp, Hq; simpl; auto. }
  rewrite Hback.
  rewrite (setCell_swap _ (to m) (from m)) by lia.
  rewrite (setCell_id (board pos) (from m)) by lia.
  rewrite setCell_same.
  rewrite (ok_captured _ _ H). rewrite setCell_id by lia.
  now destruct pos.
Qed.

Lemma wf_makeMove pos m : wfPosition pos -> wfPosition (fst (makeMove pos m)).
Proof. unfold wfPosition, makeMove. simpl. now rewrite !length_setCell. Qed.

Lemma wf_undoMove pos u : wfPosition pos -> wfPosition (undoMove pos u).
Proof. unfold wfPosition, undoMove. simpl. now rewrite !length_setCell. Qed.

(* ------------------------------------------------------------------------- *)
(** ** The legal-move filter *)
(* ------------------------------------------------------------------------- *)

Lemma simulate_makeMove pos m : simulate pos m = fst (makeMove pos (plainMove m)).
Proof. reflexivity. Qed.

Lemma unsimulate_undoMove pos m : unsimulate pos m = undoMove pos (mkUndo (plainMove m)).
Proof. reflexivity. Qed.

Lemma genOk_plainMove pos m : genOk pos m -> genOk pos (plainMove m).
Proof. intros []. constructor; simpl; auto. Qed.

Lemma unsimulate_simulate pos m :
  wfPosition pos -> genOk pos m -> unsimulate (simulate pos m) m = pos.
Proof.
  intros Hwf H. rewrite unsimulate_undoMove, simulate_makeMove.
  apply (make_undo_genOk pos (plainMove m) Hwf (genOk_plainMove _ _ H)).
Qed.

Lemma filterStep_genOk pos legal mv :
  wfPosition pos -> genOk pos mv ->
  filterStep (pos, legal) mv =
  (pos, if keepsKingSafe pos mv then legal ++ [mv] else legal).
Proof.
  intros Hwf H. unfold filterStep, keepsKingSafe.
  rewrite unsimulate_simulate by assumption.
  replace (flipSide (side (simulate pos mv))) with (side pos); auto.
  simpl. now rewrite flipSide_involutive.
Qed.

Lemma filter_loop pos raw legal :
  wfPosition pos -> Forall (genOk pos) raw ->
  fold_left filterStep raw (pos, legal) = (pos, legal ++ List.filter (keepsKingSafe pos) raw).
Proof.
  intros Hwf Hraw. revert legal.
  induction Hraw as [|mv raw Hmv Hraw IH]; intros legal; cbn [fold_left List.filter].
  - now rewrite app_nil_r.
  - rewrite filterStep_genOk by assumption. rewrite IH.
    destruct (keepsKingSafe pos mv); auto. now rewrite <- app_assoc.
Qed.

(** [generateLegalMoves] restores the position and appends the moves of the
    generator that pass the king-safety test, in the generator's order. *)
Lemma generateLegalMoves_spec pos legal :
  wfPosition pos ->
  generateLegalMoves pos legal =
  (pos, legal ++ List.filter (keepsKingSafe pos) (generateMoves pos)).
Proof. intros Hwf. apply filter_loop; auto using generateMoves_ok. Qed.

Lemma generateLegalMoves_fst pos legal :
  wfPosition pos -> fst (generateLegalMoves pos legal) = pos.
Proof. intros Hwf. now rewrite generateLegalMoves_spec. Qed.

Lemma legal_genOk pos m :
  wfPosition pos -> In m (snd (generateLegalMoves pos [])) -> genOk pos m.
Proof.
  intros Hwf. rewrite generateLegalMoves_spec by assumption. simpl.
  rewrite filter_In. intros [Hin _].
  pose proof (generateMoves_ok pos) as Hall.
  rewrite List.Forall_forall in Hall. auto.
Qed.

(* ------------------------------------------------------------------------- *)
(** ** The ray walks terminate within their fuel *)
(* ------------------------------------------------------------------------- *)

Lemma rayRoom_bound d sq : isOnBoard sq = true -> (1 <= rayRoom d sq <= rayFuel)%nat.
Proof. intros H. on_board. unfold rayRoom, rayFuel. destruct (d >? 0); lia. Qed.

Lemma rayRoom_step d sq :
  d <> 0 -> isOnBoard sq = true -> isOnBoard (sq + d) = true ->
  (rayRoom d (sq + d) < rayRoom d sq)%nat.
Proof. intros Hd H1 H2. on_board. unfold rayRoom. destruct (d >? 0) eqn:E; lia. Qed.

Lemma attackRay_fuel_irrelevant b bySide d stepOk isKind :
  d <> 0 -> forall n m sq,
  (isOnBoard sq = true -> (rayRoom d sq <= n)%nat /\ (rayRoom d sq <= m)%nat) ->
  attackRay n b bySide d stepOk isKind sq = attackRay m b bySide d stepOk isKind sq.
Proof.
  intros Hd. induction n as [|n IH]; intros m sq H.
  - destruct (isOnBoard sq) eqn:E.
    + pose proof (rayRoom_bound d sq E). destruct H; auto. lia.
    + destruct m; simpl; auto. now rewrite E.
  - destruct m as [|m].
    + destruct (isOnBoard sq) eqn:E.
      * pose proof (rayRoom_bound d sq E). destruct H; auto. lia.
      * simpl. now rewrite E.
    + simpl. destruct (isOnBoard sq) eqn:E; simpl; auto.
      destruct (stepOk (sq - d) sq); auto.
      destruct (cell b sq =? 0); auto.
      apply IH. intros E'. pose proof (rayRoom_step d sq Hd E E'). destruct H; auto. lia.
Qed.

(** More fuel than [rayFuel] never changes what a sliding loop of
    [isAttacked] answers: the loop has ended by then. *)
Lemma attackRay_fuel b bySide d stepOk isKind n sq :
  d <> 0 -> (rayFuel <= n)%nat ->
  attackRay n b bySide d stepOk isKind sq = attackRay rayFuel b bySide d stepOk isKind sq.
Proof.
  intros Hd Hn. apply attackRay_fuel_irrelevant; auto.
  intros E. pose proof (rayRoom_bound d sq E). lia.
Qed.

Lemma genRay_fuel_irrelevant pos s pc d stepBad :
  d <> 0 -> forall n m t moves,
  (isOnBoard (t + d) = true -> (rayRoom d (t + d) <= n)%nat /\ (rayRoom d (t + d) <= m)%nat) ->
  genRay n pos s pc d stepBad t moves = genRay m pos s pc d stepBad t moves.
Proof.
  intros Hd. induction n as [|n IH]; intros m t moves H.
  - destruct (isOnBoard (t + d)) eqn:E.
    + pose proof (rayRoom_bound d _ E). destruct H; auto. lia.
    + destruct m; simpl; auto. now rewrite E.
  - destruct m as [|m].
    + destruct (isOnBoard (t + d)) eqn:E.
      * pose proof (rayRoom_bound d _ E). destruct H; auto. lia.
      * simpl. now rewrite E.
    + simpl. destruct (isOnBoard (t + d)) eqn:E; simpl; auto.
      destruct (stepBad t (t + d)); auto.
      destruct (cell (board pos) (t + d) =? 0); auto.
      apply IH. intros E'. pose proof (rayRoom_step d _ Hd E E'). destruct H; auto. lia.
Qed.

(** The same for a ray walk of the generator started on the board. *)
Lemma genRay_fuel pos s pc d stepBad n t moves :
  d <> 0 -> (rayFuel <= n)%nat ->
  genRay n pos s pc d stepBad t moves = genRay rayFuel pos s pc d stepBad t moves.
Proof.
  intros Hd Hn. apply genRay_fuel_irrelevant; auto.
  intros E. pose proof (rayRoom_bound d _ E). lia.
Qed.

(* ------------------------------------------------------------------------- *)
(** ** Attack detection looks only at emptiness and at the attacker's pieces *)
(* ------------------------------------------------------------------------- *)

Lemma attacker_alike bySide c1 c2 (isKind : Z -> bool) :
  cellAlike bySide c1 c2 ->
  negb (c1 =? 0) && isSidePiece bySide c1 && isKind (tolower c1) =
  negb (c2 =? 0) && isSidePiece bySide c2 && isKind (tolower c2).
Proof.
  intros [-> | (_ & _ & -> & ->)]; auto.
  now rewrite !andb_false_r.
Qed.

Lemma empty_alike bySide c1 c2 : cellAlike bySide c1 c2 -> (c1 =? 0) = (c2 =? 0).
Proof.
  intros [-> | (H1 & H2 & _)]; auto.
  apply Z.eqb_neq in H1, H2. congruence.
Qed.

Lemma attackRay_alike fuel b1 b2 bySide d stepOk isKind :
  boardsAlike bySide b1 b2 -> forall sq,
  attackRay fuel b1 bySide d stepOk isKind sq = attackRay fuel b2 bySide d stepOk isKind sq.
Proof.
  intros Hb. induction fuel as [|fuel IH]; intros sq; simpl; auto.
  destruct (isOnBoard sq) eqn:E; simpl; auto.
  destruct (stepOk (sq - d) sq); auto.
  specialize (Hb sq E). rewrite (empty_alike _ _ _ Hb).
  destruct (cell b2 sq =? 0) eqn:E0; auto.
  pose proof (attacker_alike bySide _ _ isKind Hb) as Ha.
  rewrite (empty_alike _ _ _ Hb), E0 in Ha. exact Ha.
Qed.

Lemma existsb_pointwise {A} (f g : A -> bool) l :
  (forall x, f x = g x) -> existsb f l = existsb g l.
Proof. intros H. induction l; simpl; congruence. Qed.

Lemma guarded_attacker_alike bySide b1 b2 sq (guard : bool) (isKind : Z -> bool) :
  boardsAlike bySide b1 b2 ->
  isOnBoard sq && guard && negb (cell b1 sq =? 0) && isSidePiece bySide (cell b1 sq)
    && isKind (tolower (cell b1 sq)) =
  isOnBoard sq && guard && negb (cell b2 sq =? 0) && isSidePiece bySide (cell b2 sq)
    && isKind (tolower (cell b2 sq)).
Proof.
  intros Hb. destruct (isOnBoard sq) eqn:E; auto.
  rewrite <- !andb_assoc. f_equal. f_equal. rewrite !andb_assoc.
  apply attacker_alike. auto.
Qed.

Lemma isAttacked_alike p1 p2 target bySide :
  boardsAlike bySide (board p1) (board p2) ->
  isAttacked p1 target bySide = isAttacked p2 target bySide.
Proof.
  intros Hb. unfold isAttacked. cbv zeta.
  repeat (f_equal; [ | ]).
  - apply existsb_pointwise. intros dx.
    apply (guarded_attacker_alike bySide _ _ _ _ (fun l => l =? 112) Hb).
  - apply existsb_pointwise. intros d.
    destruct (isOnBoard (target + d)) eqn:E; simpl; auto.
    destruct (Z.abs _ >? 2); auto.
    apply (attacker_alike bySide _ _ (fun l => l =? 110)). auto.
  - apply existsb_pointwise. intros d. now apply attackRay_alike.
  - apply existsb_pointwise. intros d. now apply attackRay_alike.
  - apply existsb_pointwise. intros d.
    apply (guarded_attacker_alike bySide _ _ _ _ (fun l => l =? 107) Hb).
Qed.

Lemma kingScan_alike b1 b2 sd sqs :
  Forall (fun s => isOnBoard s = true) sqs ->
  (forall sq, isOnBoard sq = true -> isKingOf sd (cell b1 sq) = isKingOf sd (cell b2 sq)) ->
  kingScan b1 sd sqs = kingScan b2 sd sqs.
Proof.
  intros Hs Hk. induction Hs as [|s sqs Hon Hs IH]; simpl; auto.
  rewrite (Hk s Hon), IH. reflexivity.
Qed.

(** The board after moving a piece [v] from [from m] onto [to m]. *)
Lemma cell_moved pos m v sq :
  wfPosition pos -> genOk pos m -> isOnBoard sq = true ->
  cell (setCell (setCell (board pos) (to m) v) (from m) 0) sq =
  if sq =? from m then 0 else if sq =? to m then v else cell (board pos) sq.
Proof.
  intros Hwf H Hsq.
  pose proof (wf_index _ _ Hwf (ok_from _ _ H)) as Hf.
  pose proof (wf_index _ _ Hwf (ok_to _ _ H)) as Ht.
  pose proof (ok_from _ _ H) as Hfo. pose proof (ok_to _ _ H) as Hto. on_board.
  destruct (sq =? from m) eqn:E1.
  - apply Z.eqb_eq in E1. subst sq. apply cell_setCell_eq. now rewrite length_setCell.
  - apply Z.eqb_neq in E1. rewrite cell_setCell_ne by lia.
    destruct (sq =? to m) eqn:E2.
    + apply Z.eqb_eq in E2. subst sq. now apply cell_setCell_eq.
    + apply Z.eqb_neq in E2. apply cell_setCell_ne; lia.
Qed.

(** The filter's simulation, which leaves a promoting pawn a pawn, and
    [makeMove], which promotes it, agree on whether the mover is in check. *)
Lemma isInCheck_simulate pos m :
  wfPosition pos -> genOk pos m ->
  isInCheck (fst (makeMove pos m)) (side pos) = isInCheck (simulate pos m) (side pos).
Proof.
  intros Hwf H. rewrite makeMove_placed. cbn [fst].
  unfold simulate, isInCheck, kingSquare. cbn [board].
  pose proof (placedPiece_cases _ _ H) as Hpl. cbv zeta in Hpl.
  set (pl := placedPiece pos m) in *. set (pc := cell (board pos) (from m)) in *.
  assert (Hk : kingScan (setCell (setCell (board pos) (to m) pl) (from m) 0) (side pos) squares
             = kingScan (setCell (setCell (board pos) (to m) pc) (from m) 0) (side pos) squares).
  { apply kingScan_alike; [apply squares_on_board |].
    intros sq Hsq. rewrite !(cell_moved pos m) by assumption.
    destruct (sq =? from m); auto. destruct (sq =? to m); auto.
    destruct Hpl as [[_ ->] | [(_ & -> & -> & ->) | (_ & -> & -> & ->)]]; reflexivity. }
  rewrite Hk. apply isAttacked_alike. cbn [board].
  intros sq Hsq. rewrite !(cell_moved pos m) by assumption.
  destruct (sq =? from m); [now left |]. destruct (sq =? to m); [| now left].
  destruct Hpl as [[_ ->] | [(_ & -> & -> & ->) | (_ & -> & -> & ->)]];
    [now left | right | right]; repeat split; try lia; reflexivity.
Qed.

(* ------------------------------------------------------------------------- *)
(** ** The search *)
(* ------------------------------------------------------------------------- *)

Lemma insertBy_perm cmp m l : Permutation (insertBy cmp m l) (m :: l).
Proof.
  induction l as [|x l IH]; simpl; auto.
  destruct (cmp m x); auto.
  rewrite IH. apply perm_swap.
Qed.

Lemma insertionSort_perm cmp l : Permutation (insertionSort cmp l) l.
Proof.
  unfold insertionSort.
  assert (H : forall acc, Permutation (fold_left (fun acc m => insertBy cmp m acc) l acc) (l ++ acc)).
  { induction l as [|m l IH]; intros acc; simpl; auto.
    rewrite IH, insertBy_perm. symmetry. apply Permutation_middle. }
  rewrite H. now rewrite app_nil_r.
Qed.

Lemma ttProbe_Some tt key depth s :
  ttProbe tt key depth = Some s <->
  exists e, tt !! key = Some e /\ depth <= ttDepth e /\ s = ttScore e.
Proof.
  unfold ttProbe. destruct (tt !! key) as [e|].
  - destruct (ttDepth e >=? depth) eqn:E; split.
    + intros [= <-]. exists e. repeat split; auto. lia.
    + intros (e' & [= <-] & _ & ->). reflexivity.
    + discriminate.
    + intros (e' & [= <-] & H & _). lia.
  - split; [discriminate | intros (e & [=] & _)].
Qed.

Lemma ttProbe_None tt key depth :
  ttProbe tt key depth = None <->
  tt !! key = None \/ exists e, tt !! key = Some e /\ ttDepth e < depth.
Proof.
  unfold ttProbe. destruct (tt !! key) as [e|].
  - destruct (ttDepth e >=? depth) eqn:E; split.
    + discriminate.
    + intros [[=] | (e' & [= <-] & H)]. lia.
    + intros _. right. exists e. split; auto. lia.
    + reflexivity.
  - split; auto.
Qed.

Section SearchFacts.

Variable std_sort : (Move -> Move -> bool) -> list Move -> list Move.
Hypothesis std_sort_perm : forall cmp l, Permutation (std_sort cmp l) l.

(** One unfolding of the recursion. *)
Lemma alphaBetaSearch_step fuel pos depth alpha beta tt :
  alphaBetaSearch std_sort (S fuel) pos depth alpha beta tt =
  match ttProbe tt (ttKeyOf pos depth) depth with
  | Some s => Some (s, pos, tt)
  | None =>
      if depth =? 0 then Some (evaluate pos, pos, tt)
      else
        let '(pos', moves) := generateLegalMoves pos [] in
        match moves with
        | [] =>
            let val := if isInCheck pos' (side pos') then -100000 + depth else 0 in
            Some (val, pos', <[ttKeyOf pos depth := mkTTEntry depth val]> tt)
        | _ :: _ =>
            searchLoop (alphaBetaSearch std_sort fuel) (std_sort (mvvLva pos') moves) pos'
              depth alpha beta (- INF) (ttKeyOf pos depth) tt
        end
  end.
Proof. reflexivity. Qed.

Lemma searchLoop_total (search : Searcher) depth :
  (forall pos a b tt, exists r, search pos (depth - 1) a b tt = Some r) ->
  forall moves pos alpha beta best key tt,
  exists r, searchLoop search moves pos depth alpha beta best key tt = Some r.
Proof.
  intros Hs. induction moves as [|m moves IH]; intros pos alpha beta best key tt;
    cbn [searchLoop]; eauto.
  destruct (makeMove pos m) as [pos1 u].
  destruct (Hs pos1 (- beta) (- alpha) tt) as [[[r pos2] tt2] ->].
  destruct (- r >=? beta); eauto.
Qed.

(** With a depth that is not negative, the recursion of [alphaBetaSearch] is
    at most [depth + 1] calls deep. *)
Lemma alphaBetaSearch_total fuel : forall depth,
  0 <= depth -> (Z.to_nat depth < fuel)%nat ->
  forall pos alpha beta tt, exists r, alphaBetaSearch std_sort fuel pos depth alpha beta tt = Some r.
Proof.
  induction fuel as [|fuel IH]; intros depth Hd Hf pos alpha beta tt; [lia |].
  rewrite alphaBetaSearch_step.
  destruct (ttProbe _ _ _); eauto.
  destruct (depth =? 0) eqn:E0; eauto. apply Z.eqb_neq in E0.
  destruct (generateLegalMoves pos []) as [pos' moves].
  destruct moves as [|m0 moves]; eauto.
  apply searchLoop_total. intros. apply IH; lia.
Qed.

Lemma searchLoop_stores (search : Searcher) moves : forall pos depth alpha beta best key tt s pos' tt',
  searchLoop search moves pos depth alpha beta best key tt = Some (s, pos', tt') ->
  tt' !! key = Some (mkTTEntry depth s).
Proof.
  induction moves as [|m moves IH]; intros pos depth alpha beta best key tt s pos' tt';
    cbn [searchLoop].
  - intros [= <- <- <-]. apply lookup_insert_eq.
  - destruct (makeMove pos m) as [pos1 u].
    destruct (search pos1 (depth - 1) (- beta) (- alpha) tt) as [[[r pos2] tt2]|]; [| discriminate].
    destruct (- r >=? beta).
    + intros [= <- <- <-]. apply lookup_insert_eq.
    + apply IH.
Qed.

Lemma searchLoop_restores (search : Searcher) depth moves :
  (forall p a b t s p' t', wfPosition p -> search p (depth - 1) a b t = Some (s, p', t') -> p' = p) ->
  forall pos alpha beta best key tt s pos' tt',
  wfPosition pos -> Forall (genOk pos) moves ->
  searchLoop search moves pos depth alpha beta best key tt = Some (s, pos', tt') ->
  pos' = pos.
Proof.
  intros Hs. induction moves as [|m moves IH]; intros pos alpha beta best key tt s pos' tt' Hwf Hok;
    cbn [searchLoop].
  - now intros [= <- <- <-].
  - inversion Hok as [|? ? Hm Hrest]; subst.
    pose proof (make_undo_genOk pos m Hwf Hm) as Hundo.
    pose proof (wf_makeMove pos m Hwf) as Hwf1.
    destruct (makeMove pos m) as [pos1 u]. cbn [fst snd] in *.
    destruct (search pos1 (depth - 1) (- beta) (- alpha) tt) as [[[r pos2] tt2]|] eqn:Er;
      [| discriminate].
    apply Hs in Er; auto. subst pos2. rewrite Hundo.
    destruct (- r >=? beta).
    + now intros [= <- <- <-].
    + apply IH; auto.
Qed.

Lemma sorted_genOk pos cmp moves :
  Forall (genOk pos) moves -> Forall (genOk pos) (std_sort cmp moves).
Proof.
  intros H. eapply Permutation_Forall; [| exact H].
  symmetry. apply std_sort_perm.
Qed.

Lemma legal_all_genOk pos :
  wfPosition pos -> Forall (genOk pos) (snd (generateLegalMoves pos [])).
Proof.
  intros Hwf. apply List.Forall_forall. intros m. now apply legal_genOk.
Qed.

(** The search hands the position back as it received it. *)
Lemma alphaBetaSearch_restores fuel : forall pos depth alpha beta tt s pos' tt',
  wfPosition pos ->
  alphaBetaSearch std_sort fuel pos depth alpha beta tt = Some (s, pos', tt') ->
  pos' = pos.
Proof.
  induction fuel as [|fuel IH]; intros pos depth alpha beta tt s pos' tt' Hwf; [discriminate |].
  rewrite alphaBetaSearch_step.
  destruct (ttProbe _ _ _); [now intros [= <- <- <-] |].
  destruct (depth =? 0); [now intros [= <- <- <-] |].
  pose proof (legal_all_genOk pos Hwf) as Hok.
  pose proof (generateLegalMoves_fst pos [] Hwf) as Hfst.
  destruct (generateLegalMoves pos []) as [pos1 moves].
  cbn [fst snd] in Hfst, Hok. subst pos1.
  destruct moves as [|m0 moves].
  - now intros [= <- <- <-].
  - apply searchLoop_restores; auto.
    + intros. eapply IH; eauto.
    + now apply sorted_genOk.
Qed.

(** What a call leaves at its own key when it found nothing to reuse. *)
Lemma alphaBetaSearch_stores fuel pos depth alpha beta tt s pos' tt' :
  ttProbe tt (ttKeyOf pos depth) depth = None -> depth <> 0 ->
  alphaBetaSearch std_sort fuel pos depth alpha beta tt = Some (s, pos', tt') ->
  tt' !! ttKeyOf pos depth = Some (mkTTEntry depth s).
Proof.
  intros Hp Hd. destruct fuel as [|fuel]; [discriminate |].
  rewrite alphaBetaSearch_step, Hp.
  apply Z.eqb_neq in Hd. rewrite Hd.
  destruct (generateLegalMoves pos []) as [pos1 moves].
  destruct moves as [|m0 moves].
  - intros [= <- <- <-]. apply lookup_insert_eq.
  - apply searchLoop_stores.
Qed.

(** A call made on the table that an earlier call on the same position and
    depth left answers with that call's score, whatever the window. *)
Lemma alphaBetaSearch_again fuel pos depth alpha beta tt s tt' :
  alphaBetaSearch std_sort fuel pos depth alpha beta tt = Some (s, pos, tt') ->
  forall fuel' alpha' beta',
  alphaBetaSearch std_sort (S fuel') pos depth alpha' beta' tt' = Some (s, pos, tt').
Proof.
  intros H fuel' alpha' beta'.
  destruct fuel as [|fuel]; [discriminate |].
  rewrite alphaBetaSearch_step.
  destruct (ttProbe tt (ttKeyOf pos depth) depth) as [v|] eqn:Ep.
  - rewrite alphaBetaSearch_step, Ep in H. injection H as <- <-. now rewrite Ep.
  - destruct (depth =? 0) eqn:E0.
    + rewrite alphaBetaSearch_step, Ep, E0 in H. injection H as <- <-. now rewrite Ep.
    + apply Z.eqb_neq in E0.
      pose proof (alphaBetaSearch_stores _ _ _ _ _ _ _ _ _ Ep E0 H) as Hst.
      assert (Hp : ttProbe tt' (ttKeyOf pos depth) depth = Some s).
      { apply ttProbe_Some. eexists. split; [exact Hst |]. simpl. split; [lia | reflexivity]. }
      now rewrite Hp.
Qed.

End SearchFacts.

(* ------------------------------------------------------------------------- *)
(** ** The root selector *)
(* ------------------------------------------------------------------------- *)

Lemma Qltb_lt x y : Qltb x y = true <-> (x < y)%Q.
Proof.
  unfold Qltb. rewrite negb_true_iff. split.
  - intros H. apply Qnot_le_lt. intros Hle. apply Qle_bool_iff in Hle. congruence.
  - intros H. destruct (Qle_bool y x) eqn:E; auto.
    apply Qle_bool_iff in E. exfalso. now apply (Qlt_not_le x y).
Qed.

(** A draw below a positive [randProb] ends the loop at once, with nothing
    searched and the table as it was. *)
Lemma rootLoop_blunder (search : Searcher) randProb draws k m rest pos depth best bestScore tt :
  (0 < randProb)%Q -> (draws k < randProb)%Q ->
  rootLoop search randProb draws k (m :: rest) pos depth best bestScore tt =
  Returned (m, pos, tt).
Proof.
  intros Hp Hd. cbn [rootLoop].
  apply Qltb_lt in Hp, Hd. now rewrite Hp, Hd.
Qed.

Lemma rootLoop_in_bounds (search : Searcher) randProb draws moves :
  forall k pos depth best bestScore tt,
  rootLoop search randProb draws k moves pos depth best bestScore tt <> OutOfBounds.
Proof.
  induction moves as [|m moves IH]; intros k pos depth best bestScore tt; cbn [rootLoop];
    [discriminate |].
  destruct (Qltb 0 randProb && Qltb (draws k) randProb); [discriminate |].
  destruct (makeMove pos m) as [pos1 u].
  destruct (search pos1 (depth - 1) (- INF) INF tt) as [[[r pos2] tt2]|]; [| discriminate].
  destruct (- r >? bestScore); apply IH.
Qed.

Lemma rootLoop_member (search : Searcher) randProb draws moves :
  forall k pos depth best bestScore tt m pos' tt',
  rootLoop search randProb draws k moves pos depth best bestScore tt = Returned (m, pos', tt') ->
  m = best \/ In m moves.
Proof.
  induction moves as [|x moves IH]; intros k pos depth best bestScore tt m pos' tt';
    cbn [rootLoop].
  - intros [= <- _ _]. now left.
  - destruct (Qltb 0 randProb && Qltb (draws k) randProb).
    { intros [= <- _ _]. right. now left. }
    destruct (makeMove pos x) as [pos1 u].
    destruct (search pos1 (depth - 1) (- INF) INF tt) as [[[r pos2] tt2]|]; [| discriminate].
    destruct (- r >? bestScore); intros H; apply IH in H as [-> | H]; auto;
      right; simpl; auto.
Qed.

Lemma rootLoop_total (search : Searcher) randProb draws depth moves :
  (forall pos a b tt, exists r, search pos (depth - 1) a b tt = Some r) ->
  forall k pos best bestScore tt,
  exists r, rootLoop search randProb draws k moves pos depth best bestScore tt = Returned r.
Proof.
  intros Hs. induction moves as [|x moves IH]; intros k pos best bestScore tt;
    cbn [rootLoop]; eauto.
  destruct (Qltb 0 randProb && Qltb (draws k) randProb); eauto.
  destruct (makeMove pos x) as [pos1 u].
  destruct (Hs pos1 (- INF) INF tt) as [[[r pos2] tt2] ->].
  destruct (- r >? bestScore); apply IH.
Qed.

(** The moves that pass the filter come from the generator, whatever the
    board. *)
Lemma filter_loop_member raw : forall st m,
  In m (snd (fold_left filterStep raw st)) -> In m (snd st) \/ In m raw.
Proof.
  induction raw as [|mv raw IH]; intros [pos legal] m; cbn [fold_left]; auto.
  intros H. apply IH in H as [H | H]; [| right; now right].
  unfold filterStep in H. cbn [snd] in H.
  destruct (negb _); auto.
  apply in_app_or in H as [H | [<- | []]]; auto. right. now left.
Qed.

Lemma legal_from_generator pos m :
  In m (snd (generateLegalMoves pos [])) -> In m (generateMoves pos).
Proof.
  unfold generateLegalMoves. intros H.
  apply filter_loop_member in H as [[] | H]. exact H.
Qed.

Lemma legal_keepsKingSafe pos m :
  wfPosition pos -> In m (snd (generateLegalMoves pos [])) -> keepsKingSafe pos m = true.
Proof.
  intros Hwf. rewrite generateLegalMoves_spec by assumption. cbn [snd app].
  rewrite filter_In. tauto.
Qed.

(** Membership in a list that evaluates. *)
Ltac in_list := vm_compute; repeat (first [left; reflexivity | right]).

Lemma playerLoop_true mv f t s g :
  fst (Game.playerLoop mv f t s g) = true <->
  exists m, In m mv /\ from m = f /\ to m = t.
Proof.
  induction mv as [|x mv IH]; cbn [Game.playerLoop].
  - split; [discriminate | intros (m & [] & _)].
  - destruct ((from x =? f) && (to x =? t)) eqn:E.
    + destruct (makeMove (Game.pos g) x) as [pos' u]. cbn [fst]. split; auto.
      intros _. exists x. split_bools. split; [now left | lia].
    + rewrite IH. split.
      * intros (m & Hin & Hm). exists m. split; [now right | exact Hm].
      * intros (m & [<- | Hin] & Hf & Ht).
        -- apply andb_false_iff in E as [E | E]; apply Z.eqb_neq in E; contradiction.
        -- exists m. auto.
Qed.

Lemma playerLoop_false mv f t s g :
  fst (Game.playerLoop mv f t s g) = false -> snd (Game.playerLoop mv f t s g) = g.
Proof.
  induction mv as [|x mv IH]; cbn [Game.playerLoop]; auto.
  destruct ((from x =? f) && (to x =? t)); auto.
  destruct (makeMove (Game.pos g) x). discriminate.
Qed.

(** A call that finds nothing to reuse and no legal move answers with the
    mate or stalemate score and stores it. *)
Lemma alphaBetaSearch_no_moves std_sort fuel pos depth alpha beta tt :
  wfPosition pos ->
  ttProbe tt (ttKeyOf pos depth) depth = None -> depth <> 0 ->
  snd (generateLegalMoves pos []) = [] ->
  let val := if isInCheck pos (side pos) then -100000 + depth else 0 in
  alphaBetaSearch std_sort (S fuel) pos depth alpha beta tt =
  Some (val, pos, <[ttKeyOf pos depth := mkTTEntry depth val]> tt).
Proof.
  intros Hwf Hp Hd Hnone val.
  rewrite alphaBetaSearch_step, Hp.
  apply Z.eqb_neq in Hd. rewrite Hd.
  pose proof (generateLegalMoves_fst pos [] Hwf) as Hfst.
  destruct (generateLegalMoves pos []) as [pos1 moves].
  cbn [fst snd] in Hfst, Hnone. subst pos1 moves. reflexivity.
Qed.

(* ------------------------------------------------------------------------- *)
(** ** Material and mate scores *)
(* ------------------------------------------------------------------------- *)

Lemma evaluate_fold b : forall acc,
  fold_left (fun sum pc =>
    if negb (pc =? 0)
    then sum + (if isWhitePiece pc then pieceValue pc else - pieceValue pc)
    else sum) b acc
  = acc + fold_right Z.add 0 (map cellValue b).
Proof.
  induction b as [|c b IH]; intros acc; cbn [fold_left map fold_right]; [lia |].
  rewrite IH. unfold cellValue. destruct (negb (c =? 0)); lia.
Qed.

Lemma cellValue_cases c :
  (c = Chr.K /\ cellValue c = 20000) \/ (c = Chr.k /\ cellValue c = -20000) \/
  (c <> Chr.K /\ c <> Chr.k /\ -900 <= cellValue c <= 900).
Proof.
  unfold cellValue, pieceValue, tolower, isWhitePiece, isupper.
  destruct (c =? 0) eqn:E0; cbn [negb]; [lia |].
  destruct ((65 <=? c) && (c <=? 90)) eqn:Eu;
    repeat match goal with
    | |- context [if ?x =? ?y then _ else _] => destruct (x =? y) eqn:?
    end; lia.
Qed.

(** Kings aside, a cell is worth at most a queen. *)
Lemma material_bound b :
  Z.abs (fold_right Z.add 0 (map cellValue b)
         - 20000 * countOf Chr.K b + 20000 * countOf Chr.k b)
  <= 900 * (Z.of_nat (length b) - countOf Chr.K b - countOf Chr.k b).
Proof.
  unfold countOf. induction b as [|c b IH]; cbn [map fold_right List.filter length]; [lia |].
  destruct (cellValue_cases c) as [[-> ->] | [[-> ->] | (HK & Hk & Hv)]].
  - cbn [Z.eqb Pos.eqb length]. lia.
  - cbn [Z.eqb Pos.eqb length]. lia.
  - apply not_eq_sym, Z.eqb_neq in HK. apply not_eq_sym, Z.eqb_neq in Hk.
    rewrite HK, Hk. lia.
Qed.

(** On a board with one king a side, the mate score of a search no deeper
    than 44199 plies is larger in magnitude than any static evaluation. *)
Lemma mate_dominates_material pos depth :
  wfPosition pos -> countOf Chr.K (board pos) = 1 -> countOf Chr.k (board pos) = 1 ->
  1 <= depth < 44200 ->
  Z.abs (evaluate pos) < Z.abs (-100000 + depth).
Proof.
  intros Hwf HK Hk Hd. unfold evaluate. rewrite evaluate_fold.
  pose proof (material_bound (board pos)) as Hb.
  rewrite HK, Hk, Hwf in Hb. destruct (side pos); lia.
Qed.

Section AiFacts.

Variable std_sort : (Move -> Move -> bool) -> list Move -> list Move.

(** After [setLevel] the depth is 2, 4 or 6. *)
Lemma setLevel_depth lvl st :
  In (Game.levelDepth (fst (Game.setLevel lvl st))) [2; 4; 6].
Proof.
  destruct st as [g table]. unfold Game.setLevel.
  destruct (lvl =? 1); [| destruct (lvl =? 2)]; simpl; auto.
Qed.

(** [aiMove] hands [searchBestMove] a depth of at least 1 once [setLevel] has
    run, so with a legal move available it returns. *)
Lemma aiMove_returns fuel draws g table :
  1 <= Game.levelDepth g -> (Z.to_nat (Game.levelDepth g + 2) <= fuel)%nat ->
  snd (generateLegalMoves (Game.pos g) []) <> [] ->
  exists r, Game.aiMove std_sort fuel draws (g, table) = Returned r.
Proof.
  intros Hd Hf Hne. unfold Game.aiMove.
  set (extra := if Z.abs (evaluate (Game.pos g)) >? 1500 then 2 else 0).
  assert (He : extra = 0 \/ extra = 2) by (subst extra; destruct (_ >? _); auto).
  unfold searchBestMove, searchBestMoveWith.
  destruct (generateLegalMoves (Game.pos g) []) as [pos0 moves]. cbn [snd] in Hne.
  destruct moves as [|m0 moves]; [congruence |].
  destruct (rootLoop_total (alphaBetaSearch std_sort fuel) (Game.randomProbability g) draws
              (Game.levelDepth g + extra) (std_sort (mvvLva pos0) (m0 :: moves)))
    with (k := 0%nat) (pos := pos0) (best := m0) (bestScore := - INF) (tt := table)
    as [[[m pos1] table'] Hr].
  { intros. apply alphaBetaSearch_total; lia. }
  rewrite Hr. destruct (makeMove pos1 m) as [pos2 u]. eauto.
Qed.

End AiFacts.

(* ========================================================================= *)
(** * The claims *)
(* ========================================================================= *)

(** C1.  Every move that [generateLegalMoves] returns for a position, once
    applied with [makeMove], leaves the king of the side that moved on a
    square that the other side does not attack; this covers promotions,
    which the filter tests with the pawn still a pawn. *)
Theorem legal_moves_keep_king_safe pos m :
  wfPosition pos -> In m (snd (generateLegalMoves pos [])) ->
  let pos' := fst (makeMove pos m) in
  isAttacked pos' (kingSquare pos' (side pos)) (flipSide (side pos)) = false.
Proof.
  intros Hwf Hin pos'.
  pose proof (legal_keepsKingSafe pos m Hwf Hin) as Hk.
  pose proof (isInCheck_simulate pos m Hwf (legal_genOk pos m Hwf Hin)) as He.
  unfold keepsKingSafe in Hk. apply negb_true_iff in Hk.
  rewrite <- He in Hk. exact Hk.
Qed.

Lemma legal_moves_keep_king_safe_witness :
  wfPosition promotionPosition /\
  In promoCapture (snd (generateLegalMoves promotionPosition [])) /\
  let pos' := fst (makeMove promotionPosition promoCapture) in
  isAttacked pos' (kingSquare pos' WHITE) BLACK = false.
Proof.
  split; [reflexivity |]. split; [in_list |].
  apply (legal_moves_keep_king_safe promotionPosition promoCapture); [reflexivity | in_list].
Defined.

(** C2.  For a move that the generator produces for a position, captures and
    promotions included, [undoMove] after [makeMove] restores the position:
    the 64 cells and the side to move. *)
Theorem make_undo_roundtrip pos m :
  wfPosition pos -> In m (generateMoves pos) ->
  undoMove (fst (makeMove pos m)) (snd (makeMove pos m)) = pos.
Proof.
  intros Hwf Hin. apply make_undo_genOk; auto.
  pose proof (generateMoves_ok pos) as Hall.
  rewrite List.Forall_forall in Hall. auto.
Qed.

Lemma make_undo_roundtrip_witness :
  wfPosition promotionPosition /\
  In promoCapture (generateMoves promotionPosition) /\
  cell (board (fst (makeMove promotionPosition promoCapture))) 0 = 81 /\
  undoMove (fst (makeMove promotionPosition promoCapture))
    (snd (makeMove promotionPosition promoCapture)) = promotionPosition.
Proof.
  split; [reflexivity |]. split; [in_list |]. split; [reflexivity |].
  apply (make_undo_roundtrip promotionPosition promoCapture); [reflexivity | in_list].
Defined.

(** C7.  No move of [generateMoves], hence none of [generateLegalMoves],
    has a destination square that holds a king, and the [captured] field of
    a generated move is never ['k'] or ['K']. *)
Theorem no_move_targets_a_king pos :
  let noKing (m : Move) :=
    cell (board pos) (to m) <> Chr.K /\ cell (board pos) (to m) <> Chr.k /\
    captured m <> Chr.K /\ captured m <> Chr.k in
  Forall noKing (generateMoves pos) /\
  Forall noKing (snd (generateLegalMoves pos [])).
Proof.
  intros noKing.
  assert (Hraw : forall m, In m (generateMoves pos) -> noKing m).
  { pose proof (generateMoves_ok pos) as Hall. rewrite List.Forall_forall in Hall.
    intros m Hin. specialize (Hall m Hin).
    pose proof (ok_no_king _ _ Hall) as Hk. pose proof (ok_captured _ _ Hall) as Hc.
    unfold noKing. rewrite <- Hc.
    unfold tolower, isupper in Hk.
    destruct ((65 <=? captured m) && (captured m <=? 90)) eqn:E; split_bools; lia. }
  split; apply List.Forall_forall; auto using legal_from_generator.
Qed.

(** The rook's capture of the king it faces is not among the moves. *)
Example rook_does_not_take_king :
  existsb (fun m => to m =? 7) (generateMoves rookFacesKing) = false /\
  existsb (fun m => to m =? 6) (generateMoves rookFacesKing) = true.
Proof. split; reflexivity. Qed.

Section SearchClaims.

Variable std_sort : (Move -> Move -> bool) -> list Move -> list Move.
Hypothesis std_sort_perm : forall cmp l, Permutation (std_sort cmp l) l.

(** C3 (amended).  A search with a depth that is not negative returns, with
    the position restored, and a second search of the same position and
    depth on the table that the first one left returns the first one's
    score, whatever its window.  Nothing is claimed about a table filled by
    searches with another window. *)
Theorem repeated_search_same_score fuel pos depth alpha beta tt :
  wfPosition pos -> 0 <= depth -> (Z.to_nat depth < fuel)%nat ->
  exists s tt1,
    alphaBetaSearch std_sort fuel pos depth alpha beta tt = Some (s, pos, tt1) /\
    forall fuel' alpha' beta',
      alphaBetaSearch std_sort (S fuel') pos depth alpha' beta' tt1 = Some (s, pos, tt1).
Proof.
  intros Hwf Hd Hf.
  destruct (alphaBetaSearch_total std_sort fuel depth Hd Hf pos alpha beta tt)
    as [[[s pos'] tt1] Hr].
  pose proof (alphaBetaSearch_restores std_sort std_sort_perm _ _ _ _ _ _ _ _ _ Hwf Hr) as ->.
  exists s, tt1. split; [exact Hr |].
  now apply (alphaBetaSearch_again std_sort fuel pos depth alpha beta tt).
Qed.

(** C5 (amended).  A stored entry at the key of the call is reused, with no
    move generated, no recursion and the table untouched, when its recorded
    depth is at least the requested depth.  Otherwise the call recomputes: at
    depth 0 it returns the static evaluation and leaves the table as it is,
    and at a depth of 1 or more it returns and leaves, at that key, the entry
    made of the requested depth and the returned score, whatever was there. *)
Theorem tt_reuse_and_overwrite fuel pos depth alpha beta tt :
  let key := ttKeyOf pos depth in
  (forall e, tt !! key = Some e -> depth <= ttDepth e ->
     alphaBetaSearch std_sort (S fuel) pos depth alpha beta tt = Some (ttScore e, pos, tt)) /\
  ((tt !! key = None \/ exists e, tt !! key = Some e /\ ttDepth e < depth) ->
     (depth = 0 ->
        alphaBetaSearch std_sort (S fuel) pos depth alpha beta tt = Some (evaluate pos, pos, tt)) /\
     (1 <= depth -> (Z.to_nat depth <= fuel)%nat ->
        exists s pos' tt',
          alphaBetaSearch std_sort (S fuel) pos depth alpha beta tt = Some (s, pos', tt') /\
          tt' !! key = Some (mkTTEntry depth s))).
Proof.
  intros key. split.
  - intros e He Hd. rewrite alphaBetaSearch_step. fold key.
    assert (Hp : ttProbe tt key depth = Some (ttScore e)).
    { apply ttProbe_Some. exists e. auto. }
    now rewrite Hp.
  - intros Hmiss. apply ttProbe_None in Hmiss. split.
    + intros ->. rewrite alphaBetaSearch_step. fold key. now rewrite Hmiss.
    + intros Hd Hf.
      destruct (alphaBetaSearch_total std_sort (S fuel) depth ltac:(lia) ltac:(lia)
                  pos alpha beta tt) as [[[s pos'] tt'] Hr].
      exists s, pos', tt'. split; [exact Hr |].
      apply (alphaBetaSearch_stores std_sort (S fuel) pos depth alpha beta tt s pos' tt');
        auto. lia.
Qed.

(** C8.  [searchBestMove] reads [moves[0]] first: with no legal move that
    access is out of bounds; with a legal move no access is, every move it
    returns is one of the legal moves, and for a depth of at least 1 it does
    return one. *)
Theorem searchBestMove_bounds fuel pos depth randProb draws tt :
  let legal := snd (generateLegalMoves pos []) in
  (legal = [] -> searchBestMove std_sort fuel pos depth randProb draws tt = OutOfBounds) /\
  (legal <> [] ->
     searchBestMove std_sort fuel pos depth randProb draws tt <> OutOfBounds /\
     (forall m pos' tt',
        searchBestMove std_sort fuel pos depth randProb draws tt = Returned (m, pos', tt') ->
        In m legal) /\
     (1 <= depth -> (Z.to_nat depth <= fuel)%nat ->
      exists m pos' tt',
        searchBestMove std_sort fuel pos depth randProb draws tt = Returned (m, pos', tt') /\
        In m legal)).
Proof.
  intros legal. subst legal. unfold searchBestMove, searchBestMoveWith.
  destruct (generateLegalMoves pos []) as [pos0 moves]. cbn [snd].
  split.
  - now intros ->.
  - intros Hne. destruct moves as [|m0 moves]; [congruence |].
    assert (Hmem : forall m pos' tt',
      rootLoop (alphaBetaSearch std_sort fuel) randProb draws 0
        (std_sort (mvvLva pos0) (m0 :: moves)) pos0 depth m0 (- INF) tt
      = Returned (m, pos', tt') -> In m (m0 :: moves)).
    { intros m pos' tt' H. apply rootLoop_member in H as [-> | H]; [now left |].
      eapply Permutation_in; [apply std_sort_perm | exact H]. }
    split; [apply rootLoop_in_bounds |]. split; [exact Hmem |].
    intros Hd Hf.
    destruct (rootLoop_total (alphaBetaSearch std_sort fuel) randProb draws depth
                (std_sort (mvvLva pos0) (m0 :: moves))) with
      (k := 0%nat) (pos := pos0) (best := m0) (bestScore := - INF) (tt := tt)
      as [[[m pos'] tt'] Hr].
    { intros. apply alphaBetaSearch_total; lia. }
    exists m, pos', tt'. split; [exact Hr |]. eapply Hmem; eauto.
Qed.

(** C9.  With a blunder probability of at least 1 and draws from [0,1), the
    root selector returns the first move of the sorted legal moves, whatever
    the searcher is: it is never called, and the table is untouched.  And for
    any positive probability, a move whose draw is below it is returned at
    once, before it or any later move is searched. *)
Theorem blunder_returns_without_search :
  (forall (search : Searcher) pos depth randProb draws tt,
     snd (generateLegalMoves pos []) <> [] ->
     (1 <= randProb)%Q -> (forall k, (0 <= draws k)%Q /\ (draws k < 1)%Q) ->
     let pos0 := fst (generateLegalMoves pos []) in
     exists m rest,
       std_sort (mvvLva pos0) (snd (generateLegalMoves pos [])) = m :: rest /\
       searchBestMoveWith std_sort search pos depth randProb draws tt = Returned (m, pos0, tt)) /\
  (forall (search : Searcher) randProb draws k m rest pos depth best bestScore tt,
     (0 < randProb)%Q -> (draws k < randProb)%Q ->
     rootLoop search randProb draws k (m :: rest) pos depth best bestScore tt =
     Returned (m, pos, tt)).
Proof.
  split; [| intros; now apply rootLoop_blunder].
  intros search pos depth randProb draws tt Hne Hp Hdraws pos0. subst pos0.
  unfold searchBestMoveWith.
  destruct (generateLegalMoves pos []) as [pos0 moves]. cbn [fst snd] in *.
  destruct moves as [|m0 moves]; [congruence |].
  destruct (std_sort (mvvLva pos0) (m0 :: moves)) as [|m rest] eqn:Es.
  - pose proof (std_sort_perm (mvvLva pos0) (m0 :: moves)) as Hperm.
    rewrite Es in Hperm. apply Permutation_nil in Hperm. discriminate.
  - exists m, rest. split; [reflexivity |].
    apply rootLoop_blunder.
    + eapply Qlt_le_trans; [| exact Hp]. reflexivity.
    + eapply Qlt_le_trans; [apply (Hdraws 0%nat) | exact Hp].
Qed.

End SearchClaims.

Lemma repeated_search_same_score_witness :
  wfPosition twoKings /\
  exists s tt1,
    alphaBetaSearch insertionSort 2 twoKings 1 (-10) (-5) ∅ = Some (s, twoKings, tt1) /\
    forall fuel' alpha' beta',
      alphaBetaSearch insertionSort (S fuel') twoKings 1 alpha' beta' tt1 =
      Some (s, twoKings, tt1).
Proof.
  split; [reflexivity |].
  apply (repeated_search_same_score insertionSort insertionSort_perm 2 twoKings 1 (-10) (-5) ∅);
    [reflexivity | lia | simpl; lia].
Defined.

(** C3, as stated, fails: a search of the two bare kings at depth 1 with
    the window (-10, -5) cuts off and stores its bound -5; on the table it
    leaves, the full-window search of the same position and depth answers -5,
    and on the empty table it answers 0. *)
Lemma cached_bound_changes_score :
  let earlier := alphaBetaSearch insertionSort 2 twoKings 1 (-10) (-5) ∅ in
  scoreOf (alphaBetaSearch insertionSort 2 twoKings 1 (- INF) INF ∅) = Some 0 /\
  scoreOf (alphaBetaSearch insertionSort 2 twoKings 1 (- INF) INF (tableOf earlier))
    = Some (-5).
Proof. split; vm_compute; reflexivity. Qed.

Lemma tt_reuse_and_overwrite_witness :
  exists s pos' tt',
    alphaBetaSearch insertionSort 2 twoKings 1 (- INF) INF ∅ = Some (s, pos', tt') /\
    tt' !! ttKeyOf twoKings 1 = Some (mkTTEntry 1 s).
Proof.
  apply (proj2 (tt_reuse_and_overwrite insertionSort 1 twoKings 1 (- INF) INF ∅));
    [left; apply lookup_empty | lia | simpl; lia].
Defined.

(** C5, as stated, fails: a call at depth 0 that finds no entry returns the
    static evaluation and writes nothing at its key. *)
Lemma depth_zero_call_stores_nothing :
  let r := alphaBetaSearch insertionSort 1 initialPosition 0 (- INF) INF ∅ in
  scoreOf r = Some 0 /\ tableOf r !! ttKeyOf initialPosition 0 = None.
Proof. split; vm_compute; reflexivity. Qed.

Lemma searchBestMove_bounds_witness :
  searchBestMove insertionSort 2 (fst (makeMove mateInOne mateNow)) 2 0 noDraws ∅ = OutOfBounds /\
  exists m pos' tt',
    searchBestMove insertionSort 2 mateInOne 2 0 noDraws ∅ = Returned (m, pos', tt') /\
    In m (snd (generateLegalMoves mateInOne [])).
Proof.
  split.
  - apply (proj1 (searchBestMove_bounds insertionSort insertionSort_perm 2
                    (fst (makeMove mateInOne mateNow)) 2 0 noDraws ∅)).
    vm_compute. reflexivity.
  - apply (proj2 (searchBestMove_bounds insertionSort insertionSort_perm 2
                    mateInOne 2 0 noDraws ∅)); [vm_compute; discriminate | lia | simpl; lia].
Defined.

Lemma blunder_returns_without_search_witness :
  exists m rest,
    insertionSort (mvvLva (fst (generateLegalMoves mateInOne [])))
      (snd (generateLegalMoves mateInOne [])) = m :: rest /\
    searchBestMoveWith insertionSort (fun _ _ _ _ _ => None) mateInOne 4 1 noDraws ∅ =
    Returned (m, fst (generateLegalMoves mateInOne []), ∅).
Proof.
  apply (proj1 (blunder_returns_without_search insertionSort insertionSort_perm)
           (fun _ _ _ _ _ => None) mateInOne 4 1%Q noDraws ∅).
  - vm_compute. discriminate.
  - unfold Qle. simpl. lia.
  - intros k. unfold noDraws, Qle, Qlt. simpl. lia.
Defined.

(** C4, at the input where it fails.  In [knightMate] White mates at once
    with [mateByKnight].  Whatever order [std::sort] gives, the mated position
    searched with [d] plies left scores -100000 + d, which grows with the
    plies left: -100000 + 3 here, against -100000 + 1 for the position after
    [pawnCheck], where the mate comes two plies later.  No vector sorted
    within the four plies has more than 16 moves, and the root selector at
    depth 4 picks [pawnCheck], which does not mate. *)
Theorem slower_mate_is_preferred :
  let mated := fst (makeMove knightMate mateByKnight) in
  let delayed := fst (makeMove knightMate pawnCheck) in
  In mateByKnight (snd (generateLegalMoves knightMate [])) /\
  snd (generateLegalMoves mated []) = [] /\
  isInCheck mated (side mated) = true /\
  (forall std_sort fuel (d : positive),
     scoreOf (alphaBetaSearch std_sort (S fuel) mated (Z.pos d) (- INF) INF ∅) =
     Some (-100000 + Z.pos d)) /\
  (widest 3 knightMate <= 16)%nat /\
  scoreOf (alphaBetaSearch insertionSort 4 mated 3 (- INF) INF ∅) = Some (-100000 + 3) /\
  scoreOf (alphaBetaSearch insertionSort 4 delayed 3 (- INF) INF ∅) = Some (-100000 + 1) /\
  moveOf (searchBestMove insertionSort 4 knightMate 4 0 noDraws ∅) = Some pawnCheck /\
  snd (generateLegalMoves delayed []) <> [].
Proof.
  cbv zeta.
  split; [in_list |].
  split; [vm_compute; reflexivity |].
  split; [vm_compute; reflexivity |].
  split.
  { intros std_sort fuel d.
    rewrite (alphaBetaSearch_no_moves std_sort fuel (fst (makeMove knightMate mateByKnight))
               (Z.pos d) (- INF) INF ∅);
      [| reflexivity | unfold ttProbe; now rewrite lookup_empty | discriminate
       | vm_compute; reflexivity ].
    replace (isInCheck (fst (makeMove knightMate mateByKnight))
               (side (fst (makeMove knightMate mateByKnight)))) with true
      by (vm_compute; reflexivity).
    reflexivity. }
  split; [vm_compute; lia |].
  repeat (split; [vm_compute; reflexivity |]).
  vm_compute. discriminate.
Qed.

(** C6.  [playerMove] returns true exactly when the string has 4 characters
    and the squares parsed from its halves are the source and destination of
    a legal move; when it returns false, the game, and with it the board and
    the side to move, is as it was. *)
Theorem playerMove_spec s g :
  wfPosition (Game.pos g) ->
  let r := Game.playerMove s g in
  (fst r = true <->
     String.length s = 4%nat /\
     exists m, In m (snd (generateLegalMoves (Game.pos g) [])) /\
               from m = algebraicToSquare (substring 0 2 s) /\
               to m = algebraicToSquare (substring 2 2 s)) /\
  (fst r = false -> snd r = g).
Proof.
  intros Hwf r. subst r. unfold Game.playerMove.
  destruct (String.length s =? 4)%nat eqn:El; cbn [negb].
  - apply Nat.eqb_eq in El.
    pose proof (generateLegalMoves_fst (Game.pos g) [] Hwf) as Hfst.
    destruct (generateLegalMoves (Game.pos g) []) as [pos' mv].
    cbn [fst snd] in *. subst pos'.
    replace (Game.mk (Game.pos g) (Game.whiteCaps g) (Game.blackCaps g) (Game.levelDepth g)
               (Game.randomProbability g) (Game.lastMove g)) with g by now destruct g.
    split.
    + rewrite playerLoop_true. tauto.
    + apply playerLoop_false.
  - apply Nat.eqb_neq in El. cbn [fst snd]. split; [| reflexivity].
    split; [discriminate | tauto].
Qed.

Lemma playerMove_spec_witness :
  wfPosition initialPosition /\
  Game.playerMove "e2e4" (fst (Game.new None ∅)) =
    (true, Game.mk (fst (makeMove initialPosition (mkMove 52 36 0 0))) [] [] 4 0%Q "You: e2-e4") /\
  (fst (Game.playerMove "e2e5" (fst (Game.new None ∅))) = false ->
   snd (Game.playerMove "e2e5" (fst (Game.new None ∅))) = fst (Game.new None ∅)) /\
  fst (Game.playerMove "e2e5" (fst (Game.new None ∅))) = false.
Proof.
  split; [reflexivity |]. split; [vm_compute; reflexivity |].
  split; [| vm_compute; reflexivity].
  apply (proj2 (playerMove_spec "e2e5" (fst (Game.new None ∅)) eq_refl)).
Defined.

(** C10.  [setLevel] maps level 1 to depth 2 with blunder probability 0.35
    and level 2 to depth 4 with probability 0; every other argument gives
    depth 6 with probability 0, as 3 does; every call empties the table and
    touches nothing else.  The constructor without argument is the
    constructor at level 2: it yields the initial position with depth 4,
    probability 0 and an empty table; with an argument it yields what
    [setLevel] makes of the freshly set up game, whatever the two members
    it has not initialised hold. *)
Theorem setLevel_spec lvl g tt :
  let g' := fst (Game.setLevel lvl (g, tt)) in
  snd (Game.setLevel lvl (g, tt)) = ∅ /\
  (lvl = 1 -> Game.levelDepth g' = 2 /\ Game.randomProbability g' = Game.double_0_35) /\
  (lvl = 2 -> Game.levelDepth g' = 4 /\ Game.randomProbability g' = 0%Q) /\
  (lvl <> 1 -> lvl <> 2 ->
     Game.levelDepth g' = 6 /\ Game.randomProbability g' = 0%Q /\
     Game.setLevel lvl (g, tt) = Game.setLevel 3 (g, tt)) /\
  (Game.pos g' = Game.pos g /\ Game.whiteCaps g' = Game.whiteCaps g /\
   Game.blackCaps g' = Game.blackCaps g /\ Game.lastMove g' = Game.lastMove g) /\
  Game.new None tt = Game.new (Some 2) tt /\
  Game.new None tt = (Game.mk initialPosition [] [] 4 0%Q EmptyString, ∅) /\
  (forall l d p,
     Game.new (Some l) tt = Game.setLevel l (Game.mk initialPosition [] [] d p EmptyString, tt)) /\
  (Qabs (Game.double_0_35 - (35 # 100)) < (1 # 18014398509481984))%Q.
Proof.
  intros g'. subst g'. unfold Game.setLevel.
  split; [reflexivity |].
  split; [intros ->; split; reflexivity |].
  split; [intros ->; split; reflexivity |].
  split.
  { intros H1 H2. apply Z.eqb_neq in H1, H2. rewrite H1, H2. repeat split. }
  split.
  { destruct (lvl =? 1); [| destruct (lvl =? 2)]; repeat split. }
  split; [reflexivity |].
  split; [reflexivity |].
  split; [| reflexivity].
  intros l d p. unfold Game.new, Game.setLevel. cbn [Game.pos Game.whiteCaps Game.blackCaps
    Game.lastMove]. reflexivity.
Qed.

Lemma setLevel_spec_witness :
  let st := Game.new None ∅ in
  Game.levelDepth (fst (Game.setLevel (-7) st)) = 6 /\
  Game.randomProbability (fst (Game.setLevel (-7) st)) = 0%Q /\
  Game.setLevel (-7) st = Game.setLevel 3 st.
Proof.
  apply (proj1 (proj2 (proj2 (proj2
           (setLevel_spec (-7) (fst (Game.new None ∅)) (snd (Game.new None ∅))))))); lia.
Defined.

(* ========================================================================= *)
(** * Further properties *)
(* ========================================================================= *)

(* ------------------------------------------------------------------------- *)
(** ** Squares and their names *)
(* ------------------------------------------------------------------------- *)

(** X1.  [fileOf] and [rankOf] split every [int], negative ones too, into a file
    between 0 and 7 and a rank with [square = 8 * rank + file]; the squares
    of the board are those of ranks 0 to 7. *)
Theorem square_decomposition sq :
  0 <= fileOf sq <= 7 /\ sq = 8 * rankOf sq + fileOf sq /\
  (isOnBoard sq = true <-> 0 <= rankOf sq <= 7).
Proof.
  rewrite fileOf_mod, rankOf_div, isOnBoard_spec.
  pose proof (Z.mod_pos_bound sq 8 ltac:(lia)).
  pose proof (Z.div_mod sq 8 ltac:(lia)). lia.
Qed.

Lemma onBoard_in_squares sq : isOnBoard sq = true -> In sq squares.
Proof.
  intros H. on_board. unfold squares.
  replace sq with (Z.of_nat (Z.to_nat sq)) by lia.
  apply in_map, in_seq. lia.
Qed.

Lemma roundtrip_on_board sq :
  isOnBoard sq = true -> algebraicToSquare (squareToAlgebraic sq) = sq.
Proof.
  intros H. apply onBoard_in_squares in H.
  assert (Hall : forallb (fun s => algebraicToSquare (squareToAlgebraic s) =? s) squares = true)
    by (vm_compute; reflexivity).
  rewrite forallb_forall in Hall. apply Z.eqb_eq. auto.
Qed.

(** X2.  The name of a square of the board is a file letter from a to h followed
    by a rank digit from 1 to 8, and it parses back to the square. *)
Theorem algebraic_roundtrip sq :
  isOnBoard sq = true ->
  squareToAlgebraic sq =
    String (ascii_of_N (Z.to_N (97 + fileOf sq)))
      (String (ascii_of_N (Z.to_N (56 - rankOf sq))) EmptyString) /\
  0 <= fileOf sq <= 7 /\ 0 <= rankOf sq <= 7 /\
  algebraicToSquare (squareToAlgebraic sq) = sq.
Proof.
  intros H. split; [reflexivity |].
  pose proof (roundtrip_on_board sq H). on_board.
  rewrite fileOf_mod, rankOf_div in *.
  pose proof (Z.mod_pos_bound sq 8 ltac:(lia)).
  pose proof (Z.div_mod sq 8 ltac:(lia)). repeat split; auto; lia.
Qed.

Lemma algebraic_roundtrip_witness :
  squareToAlgebraic 52 = "e2"%string /\ algebraicToSquare (squareToAlgebraic 52) = 52.
Proof.
  split; [reflexivity |].
  exact (proj2 (proj2 (proj2 (algebraic_roundtrip 52 eq_refl)))).
Defined.

(* ------------------------------------------------------------------------- *)
(** ** King location and attacks *)
(* ------------------------------------------------------------------------- *)

Lemma isKingOf_char sd c : isKingOf sd c = true <-> c = kingChar sd.
Proof.
  unfold isKingOf, kingChar. destruct sd;
    destruct (c =? 0) eqn:E0; cbn [negb andb]; rewrite ?Z.eqb_eq; lia.
Qed.

Lemma kingScan_seq b sd : forall n a,
  let k := kingScan b sd (map Z.of_nat (seq a n)) in
  (k = -1 /\ forall sq, Z.of_nat a <= sq < Z.of_nat (a + n) -> cell b sq <> kingChar sd) \/
  (Z.of_nat a <= k < Z.of_nat (a + n) /\ cell b k = kingChar sd /\
   forall sq, Z.of_nat a <= sq < k -> cell b sq <> kingChar sd).
Proof.
  induction n as [|n IH]; intros a; cbn [seq map kingScan].
  - left. split; [reflexivity | intros; lia].
  - destruct (isKingOf sd (cell b (Z.of_nat a))) eqn:E.
    + right. apply isKingOf_char in E. split; [lia |]. split; [exact E | intros; lia].
    + assert (Hne : cell b (Z.of_nat a) <> kingChar sd).
      { intros Hc. apply isKingOf_char in Hc. congruence. }
      destruct (IH (S a)) as [[Hk Hall] | (Hk & Hc & Hall)].
      * left. split; [exact Hk |]. intros sq Hsq.
        destruct (Z.eq_dec sq (Z.of_nat a)) as [-> | Hd]; auto. apply Hall. lia.
      * right. split; [lia |]. split; [exact Hc |]. intros sq Hsq.
        destruct (Z.eq_dec sq (Z.of_nat a)) as [-> | Hd]; auto. apply Hall. lia.
Qed.

(** X3.  [kingSquare] answers -1 when no cell holds the king of the side, and the
    lowest square that holds it otherwise. *)
Theorem kingSquare_spec pos sd :
  let k := kingSquare pos sd in
  (k = -1 /\ forall sq, isOnBoard sq = true -> cell (board pos) sq <> kingChar sd) \/
  (isOnBoard k = true /\ cell (board pos) k = kingChar sd /\
   forall sq, 0 <= sq < k -> cell (board pos) sq <> kingChar sd).
Proof.
  unfold kingSquare, squares.
  destruct (kingScan_seq (board pos) sd 64 0) as [[Hk Hall] | (Hk & Hc & Hall)].
  - left. split; [exact Hk |]. intros sq Hsq. on_board. apply Hall. lia.
  - right. split; [on_board; lia |]. split; [exact Hc |]. intros sq Hsq. apply Hall. lia.
Qed.

Lemma existsb_never {A} (f : A -> bool) l : (forall x, f x = false) -> existsb f l = false.
Proof. intros H. induction l; simpl; auto. now rewrite H. Qed.

Lemma attackRay_no_pieces fuel b bySide d stepOk isKind :
  (forall sq, isOnBoard sq = true -> isSidePiece bySide (cell b sq) = false) ->
  forall sq, attackRay fuel b bySide d stepOk isKind sq = false.
Proof.
  intros Hb. induction fuel as [|fuel IH]; intros sq; simpl; auto.
  destruct (isOnBoard sq) eqn:E; simpl; auto.
  destruct (stepOk (sq - d) sq); auto.
  destruct (cell b sq =? 0); auto. now rewrite (Hb sq E).
Qed.

(** X4.  A side that has no piece on the board attacks no square, on or off the
    board; in particular the other side is not in check. *)
Theorem no_pieces_no_attack pos bySide :
  (forall sq, isOnBoard sq = true -> isSidePiece bySide (cell (board pos) sq) = false) ->
  (forall target, isAttacked pos target bySide = false) /\
  isInCheck pos (flipSide bySide) = false.
Proof.
  intros Hb.
  assert (Hatt : forall target, isAttacked pos target bySide = false).
  { intros target. unfold isAttacked. cbv zeta.
    rewrite !orb_false_iff. repeat split; apply existsb_never; intros d.
    - destruct (isOnBoard (target + _ + d)) eqn:E; simpl; auto.
      rewrite (Hb _ E). now rewrite !andb_false_r.
    - destruct (isOnBoard (target + d)) eqn:E; simpl; auto.
      destruct (Z.abs _ >? 2); auto. rewrite (Hb _ E). now rewrite !andb_false_r.
    - now apply attackRay_no_pieces.
    - now apply attackRay_no_pieces.
    - destruct (isOnBoard (target + d)) eqn:E; simpl; auto.
      rewrite (Hb _ E). now rewrite !andb_false_r. }
  split; [exact Hatt |]. unfold isInCheck. rewrite flipSide_involutive. apply Hatt.
Qed.

Lemma no_pieces_no_attack_witness :
  isAttacked (mkPosition (place [(60, 75)]) WHITE) 52 BLACK = false.
Proof.
  assert (H : forall sq, isOnBoard sq = true ->
              isSidePiece BLACK (cell (place [(60, 75)]) sq) = false).
  { intros sq H. apply onBoard_in_squares in H.
    assert (Hall : forallb (fun s => negb (isSidePiece BLACK (cell (place [(60, 75)]) s)))
                     squares = true) by (vm_compute; reflexivity).
    rewrite forallb_forall in Hall. apply negb_true_iff. auto. }
  exact (proj1 (no_pieces_no_attack (mkPosition (place [(60, 75)]) WHITE) BLACK H) 52).
Defined.

(* ------------------------------------------------------------------------- *)
(** ** The legal-move filter and the table *)
(* ------------------------------------------------------------------------- *)

(** X12.  [generateLegalMoves] leaves the position exactly as it found it and
    appends to its output, in the generator's order, the generated moves
    after which the mover's king is not attacked. *)
Theorem legal_filter_restores_position pos legal :
  wfPosition pos ->
  generateLegalMoves pos legal =
  (pos, legal ++ List.filter (fun mv => negb (isInCheck (simulate pos mv) (side pos)))
                   (generateMoves pos)).
Proof. intros Hwf. now rewrite generateLegalMoves_spec. Qed.

Lemma legal_filter_restores_position_witness :
  fst (generateLegalMoves initialPosition []) = initialPosition /\
  length (snd (generateLegalMoves initialPosition [])) = 20%nat.
Proof.
  rewrite (legal_filter_restores_position initialPosition [] eq_refl).
  split; [reflexivity | vm_compute; reflexivity].
Defined.

Lemma charCode_inj a b : charCode a = charCode b -> a = b.
Proof.
  unfold charCode. intros H.
  pose proof (N_ascii_bounded a). pose proof (N_ascii_bounded b).
  assert (Hn : N_of_ascii a = N_of_ascii b).
  { destruct (Z.of_N (N_of_ascii a) <? 128) eqn:Ea;
      destruct (Z.of_N (N_of_ascii b) <? 128) eqn:Eb; lia. }
  rewrite <- (ascii_N_embedding a), <- (ascii_N_embedding b). now rewrite Hn.
Qed.

Lemma map_injective {A B} (f : A -> B) :
  (forall x y, f x = f y -> x = y) -> forall l l', map f l = map f l' -> l = l'.
Proof.
  intros Hf. induction l as [|x l IH]; intros [|y l']; simpl; try discriminate; auto.
  intros [= Hx Hl]. f_equal; auto.
Qed.

Lemma to_int_proper n :
  Z.to_int n <> Decimal.Pos Decimal.Nil /\ Z.to_int n <> Decimal.Neg Decimal.Nil.
Proof.
  destruct n as [|p|p]; simpl; split; try discriminate; intros [= H];
    now apply DecimalPos.Unsigned.to_uint_nonnil in H.
Qed.

Lemma to_string_inj n n' : to_string n = to_string n' -> n = n'.
Proof.
  unfold to_string. intros H.
  apply (map_injective charCode charCode_inj) in H.
  apply (f_equal string_of_list_ascii) in H.
  rewrite !string_of_list_ascii_of_string in H.
  apply (f_equal NilZero.int_of_string) in H.
  destruct (to_int_proper n), (to_int_proper n').
  rewrite !NilZero.isi in H by assumption.
  injection H as H. now apply DecimalZ.to_int_inj.
Qed.

Lemma ttKeyOf_inj pos pos' depth depth' :
  wfPosition pos -> wfPosition pos' ->
  ttKeyOf pos depth = ttKeyOf pos' depth' -> pos = pos' /\ depth = depth'.
Proof.
  unfold wfPosition, ttKeyOf. intros Hwf Hwf' H.
  apply app_inj_1 in H as [Hb H]; [| congruence].
  cbn [app] in H. injection H as Hs Hd.
  apply to_string_inj in Hd.
  destruct pos as [b sd], pos' as [b' sd']. cbn [board side] in *.
  split; [| exact Hd]. f_equal; [exact Hb |].
  destruct sd, sd'; simpl in Hs; congruence || lia.
Qed.

(** X16.  The key of the table determines the board, the side and the depth: two
    different (position, depth) pairs never share an entry. *)
Theorem ttKeyOf_injective pos pos' depth depth' :
  wfPosition pos -> wfPosition pos' ->
  ttKeyOf pos depth = ttKeyOf pos' depth' -> pos = pos' /\ depth = depth'.
Proof. apply ttKeyOf_inj. Qed.

Lemma ttKeyOf_injective_witness :
  ttKeyOf initialPosition 1 <> ttKeyOf initialPosition 10.
Proof.
  intros H.
  destruct (ttKeyOf_injective initialPosition initialPosition 1 10 eq_refl eq_refl H) as [_ Hd].
  discriminate Hd.
Defined.

Lemma wf_filterStep st mv : wfPosition (fst st) -> wfPosition (fst (filterStep st mv)).
Proof.
  destruct st as [pos legal]. unfold wfPosition, filterStep, unsimulate, simulate. simpl.
  now rewrite !length_setCell.
Qed.

Lemma wf_generateLegalMoves pos legal :
  wfPosition pos -> wfPosition (fst (generateLegalMoves pos legal)).
Proof.
  unfold generateLegalMoves. generalize (generateMoves pos) as raw.
  intros raw. revert pos legal.
  induction raw as [|mv raw IH]; intros pos legal Hwf; cbn [fold_left]; auto.
  pose proof (wf_filterStep (pos, legal) mv Hwf) as H.
  destruct (filterStep (pos, legal) mv) as [pos1 legal1]. now apply IH.
Qed.

Lemma ttSound_insert tt pos depth s :
  wfPosition pos -> ttSound tt -> ttSound (<[ttKeyOf pos depth := mkTTEntry depth s]> tt).
Proof.
  intros Hwf Hs key e. rewrite lookup_insert.
  destruct (decide (ttKeyOf pos depth = key)) as [<- | Hne].
  - intros [= <-]. exists pos. auto.
  - apply Hs.
Qed.

Lemma grows_insert (tt : TT) key e k : is_Some (tt !! k) -> is_Some (<[key := e]> tt !! k).
Proof.
  intros H. rewrite lookup_insert. destruct (decide (key = k)); [eauto | exact H].
Qed.

Section TableFacts.

Variable std_sort : (Move -> Move -> bool) -> list Move -> list Move.

(** A property [T] of tables that every store of the search preserves holds
    of the table that the move loop returns, and the position stays well
    formed. *)
Lemma searchLoop_table (T : TT -> Prop) (search : Searcher) depth p0 :
  (forall p d s t, wfPosition p -> T t -> T (<[ttKeyOf p d := mkTTEntry d s]> t)) ->
  (forall p a b t s p' t', wfPosition p -> T t ->
     search p (depth - 1) a b t = Some (s, p', t') -> wfPosition p' /\ T t') ->
  wfPosition p0 ->
  forall moves pos alpha beta best tt s pos' tt',
  wfPosition pos -> T tt ->
  searchLoop search moves pos depth alpha beta best (ttKeyOf p0 depth) tt = Some (s, pos', tt') ->
  wfPosition pos' /\ T tt'.
Proof.
  intros Hins Hs Hp0.
  induction moves as [|m moves IH]; intros pos alpha beta best tt s pos' tt' Hwf HT;
    cbn [searchLoop].
  - intros [= <- <- <-]. auto.
  - pose proof (wf_makeMove pos m Hwf) as H1.
    destruct (makeMove pos m) as [pos1 u]. cbn [fst] in H1.
    destruct (search pos1 (depth - 1) (- beta) (- alpha) tt) as [[[r pos2] tt2]|] eqn:Er;
      [| discriminate].
    apply Hs in Er as [Hwf2 HT2]; auto.
    pose proof (wf_undoMove pos2 u Hwf2) as Hwf3.
    destruct (- r >=? beta).
    + intros [= <- <- <-]. auto.
    + now apply IH.
Qed.

Lemma alphaBetaSearch_table (T : TT -> Prop) :
  (forall p d s t, wfPosition p -> T t -> T (<[ttKeyOf p d := mkTTEntry d s]> t)) ->
  forall fuel pos depth alpha beta tt s pos' tt',
  wfPosition pos -> T tt ->
  alphaBetaSearch std_sort fuel pos depth alpha beta tt = Some (s, pos', tt') ->
  wfPosition pos' /\ T tt'.
Proof.
  intros Hins.
  induction fuel as [|fuel IH]; intros pos depth alpha beta tt s pos' tt' Hwf HT;
    [discriminate |].
  rewrite alphaBetaSearch_step.
  destruct (ttProbe _ _ _); [now intros [= <- <- <-] |].
  destruct (depth =? 0); [now intros [= <- <- <-] |].
  pose proof (wf_generateLegalMoves pos [] Hwf) as Hg.
  destruct (generateLegalMoves pos []) as [pos1 moves]. cbn [fst] in Hg.
  destruct moves as [|m0 moves].
  - intros [= <- <- <-]. auto.
  - apply (searchLoop_table T (alphaBetaSearch std_sort fuel) depth pos); auto.
    intros. eapply IH; eauto.
Qed.

(** X17.  The search never removes an entry: every key present before a call is
    present after it. *)
Theorem search_never_evicts fuel pos depth alpha beta tt s pos' tt' :
  wfPosition pos ->
  alphaBetaSearch std_sort fuel pos depth alpha beta tt = Some (s, pos', tt') ->
  forall key, is_Some (tt !! key) -> is_Some (tt' !! key).
Proof.
  intros Hwf H.
  apply (alphaBetaSearch_table (fun t => forall key, is_Some (tt !! key) -> is_Some (t !! key)))
    in H; auto.
  - tauto.
  - intros p d s0 t _ Ht key Hk. apply grows_insert. auto.
Qed.

(** X18.  In a table built by searches from the empty one, every entry records the
    depth of its own key, so the depth test of the lookup never fails: a key
    that is found is reused. *)
Theorem search_entries_match_their_key fuel pos depth alpha beta tt s pos' tt' :
  wfPosition pos -> ttSound tt ->
  alphaBetaSearch std_sort fuel pos depth alpha beta tt = Some (s, pos', tt') ->
  ttSound tt' /\
  forall q d e, wfPosition q -> tt' !! ttKeyOf q d = Some e ->
    ttDepth e = d /\ ttProbe tt' (ttKeyOf q d) d = Some (ttScore e).
Proof.
  intros Hwf Hs H.
  apply (alphaBetaSearch_table ttSound) in H as [_ Hs']; auto.
  - split; [exact Hs' |]. intros q d e Hq He.
    destruct (Hs' _ _ He) as (p & Hp & Hk).
    apply ttKeyOf_inj in Hk as [_ Hd]; auto.
    split; [congruence |].
    apply ttProbe_Some. exists e. split; [exact He |]. split; [lia | reflexivity].
  - intros p d s0 t Hp Ht. now apply ttSound_insert.
Qed.

End TableFacts.

Lemma ttSound_empty : ttSound ∅.
Proof. intros key e H. rewrite lookup_empty in H. discriminate. Qed.

Lemma result_eta (r : SearchResult) :
  match r with Some _ => true | None => false end = true ->
  exists s p t, r = Some (s, p, t).
Proof. destruct r as [[[s p] t]|]; [eauto | discriminate]. Qed.

Lemma search_never_evicts_witness :
  exists s p t,
    alphaBetaSearch insertionSort 2 mateInOne 1 (- INF) INF
      (tableOf (alphaBetaSearch insertionSort 2 twoKings 1 (-10) (-5) ∅)) = Some (s, p, t) /\
    is_Some (t !! ttKeyOf twoKings 1).
Proof.
  assert (H1 : is_Some (tableOf (alphaBetaSearch insertionSort 2 twoKings 1 (-10) (-5) ∅)
                          !! ttKeyOf twoKings 1)) by (vm_compute; eauto).
  destruct (result_eta
              (alphaBetaSearch insertionSort 2 mateInOne 1 (- INF) INF
                 (tableOf (alphaBetaSearch insertionSort 2 twoKings 1 (-10) (-5) ∅))))
    as (s & p & t & E).
  { vm_compute. reflexivity. }
  exists s, p, t. split; [exact E |].
  exact (search_never_evicts insertionSort 2 mateInOne 1 (- INF) INF _ s p t eq_refl E _ H1).
Defined.

Lemma search_entries_match_their_key_witness :
  exists s p t,
    alphaBetaSearch insertionSort 2 mateInOne 1 (- INF) INF ∅ = Some (s, p, t) /\
    ttSound t.
Proof.
  destruct (result_eta (alphaBetaSearch insertionSort 2 mateInOne 1 (- INF) INF ∅))
    as (s & p & t & E).
  { vm_compute. reflexivity. }
  exists s, p, t. split; [exact E |].
  exact (proj1 (search_entries_match_their_key insertionSort 2 mateInOne 1 (- INF) INF
                  ∅ s p t eq_refl ttSound_empty E)).
Defined.

(* ------------------------------------------------------------------------- *)
(** ** The shape of the generated moves *)
(* ------------------------------------------------------------------------- *)

Lemma addMove_Forall (Q : Move -> Prop) pos moves f t pr :
  Forall Q moves -> Q (mkMove f t (cell (board pos) t) pr) ->
  Forall Q (addMove moves pos f t pr).
Proof.
  intros Hm Hq. unfold addMove.
  destruct (negb _ && _); auto. apply Forall_app; split; auto.
Qed.

Lemma rank_shift sq k : rankOf (sq + 8 * k) = rankOf sq + k.
Proof. rewrite !rankOf_div. replace (sq + 8 * k) with (sq + k * 8) by lia. apply Z.div_add. lia. Qed.

Lemma file_shift sq k : fileOf (sq + 8 * k) = fileOf sq.
Proof. rewrite !fileOf_mod. replace (sq + 8 * k) with (sq + k * 8) by lia. apply Z.mod_add. lia. Qed.

Lemma genPawn_shape pos s pc moves :
  genCtx pos s pc -> tolower pc = Chr.p ->
  Forall (moveShape pos) moves -> Forall (moveShape pos) (genPawn pos s pc moves).
Proof.
  intros [Hon Hpc Hsd] Hlow Hm. subst pc. unfold genPawn. cbn [fold_left].
  fold (pawnDir (cell (board pos) s)).
  assert (Hdbl : forall dbl,
            ((rankOf s =? 6) && isWhitePiece (cell (board pos) s)
             || (rankOf s =? 1) && isBlackPiece (cell (board pos) s)) = true ->
            dbl = s + 2 * pawnDir (cell (board pos) s) ->
            isLastRank dbl = false /\
            rankOf s = (if isWhitePiece (cell (board pos) s) then 6 else 1)).
  { intros dbl Hc ->. unfold pawnDir, isLastRank.
    destruct (mover_pawn _ _ Hsd Hlow) as [[_ Hp] | [_ Hp]]; rewrite Hp in *;
      cbn [isWhitePiece isBlackPiece isupper islower Z.leb Z.compare Pos.compare
           Pos.compare_cont andb orb] in *.
    - rewrite andb_true_r, andb_false_r, orb_false_r in Hc. apply Z.eqb_eq in Hc.
      replace (s + 2 * -8) with (s + 8 * -2) by lia. rewrite rank_shift, Hc. auto.
    - rewrite andb_true_r, andb_false_r in Hc. cbn [orb] in Hc. apply Z.eqb_eq in Hc.
      replace (s + 2 * 8) with (s + 8 * 2) by lia. rewrite rank_shift, Hc. auto. }
  repeat match goal with
  | |- Forall _ (if ?c then _ else _) => destruct c eqn:?
  | |- Forall _ (addMove _ _ _ _ _) => apply addMove_Forall
  end; auto; split_bools;
  try match goal with
  | H : (_ || _) = true |- _ => destruct (Hdbl _ H eq_refl) as [Hlast Hrank]
  end;
  (constructor; cbn [from to captured promo];
   [ first [ left; apply Z.eqb_eq; assumption | right; assumption ]
   | left; split; [exact Hlow |]; unfold pawnShape; cbn [from to captured promo];
     split;
     [ first [ rewrite Hlast; reflexivity
             | match goal with H : isLastRank _ = _ |- _ => rewrite H; reflexivity end ]
     | ] ]).
  all: try (left; split; [reflexivity | apply Z.eqb_eq; assumption]).
  all: try (right; left; repeat split; try (apply Z.eqb_eq; assumption); try lia; assumption).
  all: right; right; repeat split;
    [ lia | apply Z.eqb_eq; assumption
    | match goal with H : (_ =? 0) = false |- _ => apply Z.eqb_neq in H; exact H end ].
Qed.

Lemma genLeaper_Forall (Q : Move -> Prop) pos s pc offsets maxFile :
  (forall d, In d offsets ->
     let t := s + d in
     isOnBoard t = true -> Z.abs (fileOf s - fileOf t) <= maxFile ->
     cell (board pos) t = 0 \/ differentColour pc (cell (board pos) t) = true ->
     Q (mkMove s t (cell (board pos) t) 0)) ->
  forall moves, Forall Q moves -> Forall Q (genLeaper pos s pc offsets maxFile moves).
Proof.
  unfold genLeaper. induction offsets as [|d offsets IH]; intros HQ moves Hm;
    cbn [fold_left]; auto.
  apply IH; [intros d' Hd'; apply HQ; now right |].
  destruct (negb (isOnBoard (s + d)) || (Z.abs (fileOf s - fileOf (s + d)) >? maxFile)) eqn:E;
    auto.
  apply orb_false_iff in E as [E1 E2]. apply negb_false_iff in E1.
  destruct ((cell (board pos) (s + d) =? 0) || differentColour pc (cell (board pos) (s + d)))
    eqn:E3; auto.
  apply addMove_Forall; auto. apply HQ; [now left | exact E1 | lia |].
  apply orb_true_iff in E3 as [E3 | E3]; [left; now apply Z.eqb_eq | now right].
Qed.

Lemma genRay_Forall (Q : Move -> Prop) pos s pc d (stepBad : Z -> Z -> bool) :
  (forall k, 1 <= k ->
     (forall i, 0 <= i < k ->
        isOnBoard (s + (i + 1) * d) = true /\ stepBad (s + i * d) (s + (i + 1) * d) = false) ->
     (forall i, 0 < i < k -> cell (board pos) (s + i * d) = 0) ->
     cell (board pos) (s + k * d) = 0 \/
       differentColour pc (cell (board pos) (s + k * d)) = true ->
     Q (mkMove s (s + k * d) (cell (board pos) (s + k * d)) 0)) ->
  forall fuel j moves, 0 <= j ->
  (forall i, 0 <= i < j ->
     isOnBoard (s + (i + 1) * d) = true /\ stepBad (s + i * d) (s + (i + 1) * d) = false) ->
  (forall i, 0 < i <= j -> cell (board pos) (s + i * d) = 0) ->
  Forall Q moves -> Forall Q (genRay fuel pos s pc d stepBad (s + j * d) moves).
Proof.
  intros HQ. induction fuel as [|fuel IH]; intros j moves Hj Hpath Hempty Hm;
    cbn [genRay]; auto.
  replace (s + j * d + d) with (s + (j + 1) * d) by lia.
  destruct (negb (isOnBoard (s + (j + 1) * d)) || stepBad (s + j * d) (s + (j + 1) * d))
    eqn:E; auto.
  apply orb_false_iff in E as [E1 E2]. apply negb_false_iff in E1.
  assert (Hpath' : forall i, 0 <= i < j + 1 ->
            isOnBoard (s + (i + 1) * d) = true /\
            stepBad (s + i * d) (s + (i + 1) * d) = false).
  { intros i Hi. destruct (Z.eq_dec i j) as [-> | Hne]; [auto | apply Hpath; lia]. }
  assert (Hempty' : forall i, 0 < i < j + 1 -> cell (board pos) (s + i * d) = 0).
  { intros i Hi. apply Hempty. lia. }
  destruct (cell (board pos) (s + (j + 1) * d) =? 0) eqn:E0.
  - apply Z.eqb_eq in E0. apply IH; [lia | exact Hpath' | |].
    + intros i Hi. destruct (Z.eq_dec i (j + 1)) as [-> | Hne]; [exact E0 | apply Hempty; lia].
    + apply addMove_Forall; auto. apply HQ; auto. lia.
  - destruct (differentColour pc (cell (board pos) (s + (j + 1) * d))) eqn:Ec; auto.
    apply addMove_Forall; auto. apply HQ; auto. lia.
Qed.

Lemma genRays_shape pos s pc offsets (stepBad : Z -> Z -> Z -> bool) moves :
  genCtx pos s pc ->
  (forall m, from m = s -> slideShape pos m offsets stepBad ->
     captured m = 0 \/ differentColour pc (captured m) = true -> moveShape pos m) ->
  Forall (moveShape pos) moves ->
  Forall (moveShape pos)
    (fold_left (fun acc d => genRay rayFuel pos s pc d (stepBad d) s acc) offsets moves).
Proof.
  intros Hc Hshape.
  assert (H : forall offs, (forall d, In d offs -> In d offsets) ->
            forall moves, Forall (moveShape pos) moves ->
            Forall (moveShape pos)
              (fold_left (fun acc d => genRay rayFuel pos s pc d (stepBad d) s acc) offs moves)).
  { induction offs as [|d offs IH]; intros Hin mv Hm; cbn [fold_left]; auto.
    apply IH; [intros d' Hd'; apply Hin; now right |].
    replace s with (s + 0 * d) at 2 by lia.
    apply genRay_Forall; auto; try lia; try (intros; lia).
    intros k Hk Hpath Hempty Hcap.
    apply Hshape; cbn [from to captured promo]; auto.
    split; [reflexivity |]. exists d, k.
    split; [apply Hin; now left |]. split; [exact Hk |]. split; [reflexivity |]. auto. }
  apply H. auto.
Qed.

Lemma genSquare_shape pos moves s :
  isOnBoard s = true ->
  Forall (moveShape pos) moves -> Forall (moveShape pos) (genSquare pos moves s).
Proof.
  intros Hon Hm. unfold genSquare.
  destruct (cell (board pos) s =? 0) eqn:E0; auto.
  destruct (match side pos with WHITE => _ | BLACK => _ end) eqn:Es; auto.
  assert (Hc : genCtx pos s (cell (board pos) s)).
  { constructor; auto. unfold isSidePiece. destruct (side pos); now apply negb_false_iff in Es. }
  destruct (tolower (cell (board pos) s) =? 112) eqn:Ep.
  { apply genPawn_shape; auto. now apply Z.eqb_eq. }
  destruct (tolower (cell (board pos) s) =? 110) eqn:En.
  { apply genLeaper_Forall; auto. intros d Hd t Ht Hf Hcap.
    constructor; cbn [from to captured promo]; auto.
    right. left. split; [now apply Z.eqb_eq |]. split; [reflexivity |]. exists d. auto. }
  assert (Hdiag : (tolower (cell (board pos) s) =? 98) || (tolower (cell (board pos) s) =? 113) = true ->
            forall mv, Forall (moveShape pos) mv ->
            Forall (moveShape pos) (genDiagonals pos s (cell (board pos) s) mv)).
  { intros Hk mv Hmv. unfold genDiagonals.
    apply (genRays_shape pos s _ bishopOffsets diagStepBad); auto.
    intros m Hf Hs Hcap. constructor; [now rewrite Hf |]. rewrite Hf.
    right. right. right. left. split; [| exact Hs].
    apply orb_true_iff in Hk as [Hk | Hk]; apply Z.eqb_eq in Hk; auto. }
  assert (Hortho : (tolower (cell (board pos) s) =? 114) || (tolower (cell (board pos) s) =? 113) = true ->
            forall mv, Forall (moveShape pos) mv ->
            Forall (moveShape pos) (genOrthogonals pos s (cell (board pos) s) mv)).
  { intros Hk mv Hmv. unfold genOrthogonals.
    apply (genRays_shape pos s _ rookOffsets orthoStepBad); auto.
    intros m Hf Hs Hcap. constructor; [now rewrite Hf |]. rewrite Hf.
    right. right. right. right. split; [| exact Hs].
    apply orb_true_iff in Hk as [Hk | Hk]; apply Z.eqb_eq in Hk; auto. }
  assert (Hking : (tolower (cell (board pos) s) =? 107) = true ->
            forall mv, Forall (moveShape pos) mv ->
            Forall (moveShape pos) (genLeaper pos s (cell (board pos) s) kingOffsets 1 mv)).
  { intros Hk mv Hmv. apply genLeaper_Forall; auto. intros d Hd t Ht Hf Hcap.
    constructor; cbn [from to captured promo]; auto.
    right. right. left. split; [now apply Z.eqb_eq |]. split; [reflexivity |]. exists d. auto. }
  repeat match goal with
  | |- Forall _ (if ?c then _ else _) => destruct c eqn:?
  | |- Forall _ (genLeaper _ _ _ _ _ _) => apply Hking; [auto |]
  | |- Forall _ (genOrthogonals _ _ _ _) => apply Hortho; [auto |]
  | |- Forall _ (genDiagonals _ _ _ _) => apply Hdiag; [auto |]
  end; auto.
Qed.

Lemma generateMoves_shape pos : Forall (moveShape pos) (generateMoves pos).
Proof.
  unfold generateMoves.
  assert (H : forall sqs moves, Forall (fun s => isOnBoard s = true) sqs ->
            Forall (moveShape pos) moves ->
            Forall (moveShape pos) (fold_left (genSquare pos) sqs moves)).
  { induction sqs as [|s sqs IH]; intros moves Hs Hm; cbn [fold_left]; auto.
    inversion Hs; subst. apply IH; auto. apply genSquare_shape; auto. }
  apply H; [apply squares_on_board | constructor].
Qed.

Lemma generated_facts pos m :
  In m (generateMoves pos) -> genOk pos m /\ moveShape pos m.
Proof.
  intros Hin.
  pose proof (generateMoves_ok pos) as H1. pose proof (generateMoves_shape pos) as H2.
  rewrite List.Forall_forall in H1, H2. auto.
Qed.

(** The facts of Euclidean division by 8 for the squares named. *)
Ltac file_rank_facts sqs :=
  rewrite ?fileOf_mod, ?rankOf_div in *;
  let rec go l :=
    lazymatch l with
    | nil => idtac
    | cons ?a ?rest =>
        pose proof (Z.div_mod a 8 ltac:(lia));
        pose proof (Z.mod_pos_bound a 8 ltac:(lia));
        go rest
    end in
  go sqs.

Lemma diag_step d a :
  In d bishopOffsets -> isOnBoard a = true -> isOnBoard (a + d) = true ->
  diagStepBad d a (a + d) = false ->
  fileOf (a + d) = fileOf a + fileStep d /\ rankOf (a + d) = rankOf a + rankStep d.
Proof.
  intros Hd Ha Hb Hs. unfold diagStepBad, diagStepOk in Hs.
  apply negb_false_iff, Z.eqb_eq in Hs. on_board.
  unfold bishopOffsets in Hd. cbn [In] in Hd.
  destruct Hd as [<- | [<- | [<- | [<- | []]]]]; cbn [fileStep rankStep Z.eqb Pos.eqb orb];
    file_rank_facts (cons a (cons (a + -9) (cons (a + -7) (cons (a + 7) (cons (a + 9) nil)))));
    lia.
Qed.

Lemma ortho_step d a :
  In d rookOffsets -> isOnBoard a = true -> isOnBoard (a + d) = true ->
  orthoStepBad d a (a + d) = false ->
  fileOf (a + d) = fileOf a + fileStep d /\ rankOf (a + d) = rankOf a + rankStep d.
Proof.
  intros Hd Ha Hb Hs. unfold orthoStepBad in Hs. on_board.
  unfold rookOffsets in Hd. cbn [In] in Hd.
  destruct Hd as [<- | [<- | [<- | [<- | []]]]];
    cbn [fileStep rankStep Z.eqb Pos.eqb orb andb] in *;
    try (apply negb_false_iff, Z.eqb_eq in Hs);
    file_rank_facts (cons a (cons (a + -8) (cons (a + -1) (cons (a + 1) (cons (a + 8) nil)))));
    lia.
Qed.

(** Along a sliding move every square reached lies on the board, on the
    line through the source with the direction of the offset. *)
Lemma slide_path (stepBad : Z -> Z -> Z -> bool) offsets s d k :
  (forall d a, In d offsets -> isOnBoard a = true -> isOnBoard (a + d) = true ->
     stepBad d a (a + d) = false ->
     fileOf (a + d) = fileOf a + fileStep d /\ rankOf (a + d) = rankOf a + rankStep d) ->
  isOnBoard s = true -> In d offsets ->
  (forall i, 0 <= i < k ->
     isOnBoard (s + (i + 1) * d) = true /\ stepBad d (s + i * d) (s + (i + 1) * d) = false) ->
  forall i, 0 <= i -> i <= k ->
  isOnBoard (s + i * d) = true /\
  fileOf (s + i * d) = fileOf s + i * fileStep d /\
  rankOf (s + i * d) = rankOf s + i * rankStep d.
Proof.
  intros Hstep Hs Hd Hpath i Hi. pattern i. apply natlike_ind; [| | exact Hi].
  - intros _. replace (s + 0 * d) with s by lia. repeat split; auto; lia.
  - clear i Hi. intros i Hi IH Hk.
    destruct IH as (Hon & Hf & Hr); [lia |].
    destruct (Hpath i ltac:(lia)) as [Hon' Hbad].
    replace (s + Z.succ i * d) with (s + i * d + d) by lia.
    replace (s + (i + 1) * d) with (s + i * d + d) in * by lia.
    destruct (Hstep d (s + i * d) Hd Hon Hon' Hbad) as [Hf' Hr'].
    split; [exact Hon' |]. rewrite Hf', Hr', Hf, Hr. split; lia.
Qed.

Lemma steps_of_offsets d :
  (In d bishopOffsets -> Z.abs (fileStep d) = 1 /\ Z.abs (rankStep d) = 1 /\
                         d = 8 * rankStep d + fileStep d) /\
  (In d rookOffsets -> Z.abs (fileStep d) + Z.abs (rankStep d) = 1 /\
                       d = 8 * rankStep d + fileStep d).
Proof.
  unfold bishopOffsets, rookOffsets. cbn [In].
  split; intros H; repeat (destruct H as [<- | H]; [vm_compute; auto |]); destruct H.
Qed.

Lemma differentColour_not_own sd pc cap :
  isSidePiece sd pc = true -> differentColour pc cap = true -> isSidePiece sd cap = false.
Proof.
  unfold differentColour, isSidePiece, isWhitePiece, isBlackPiece, isupper, islower.
  intros Hs Hd. apply negb_true_iff in Hd.
  destruct sd;
    destruct ((65 <=? pc) && (pc <=? 90)) eqn:E1;
    destruct ((65 <=? cap) && (cap <=? 90)) eqn:E2; simpl in Hd; try discriminate; lia.
Qed.

(** X6.  Every generated move starts on a piece of the side to move, stays on the
    board, goes to another square, records the content of its target, and
    never lands on a piece of the mover's own colour. *)
Theorem generated_move_basics pos m :
  In m (generateMoves pos) ->
  isOnBoard (from m) = true /\ isOnBoard (to m) = true /\ from m <> to m /\
  isSidePiece (side pos) (cell (board pos) (from m)) = true /\
  captured m = cell (board pos) (to m) /\
  isSidePiece (side pos) (cell (board pos) (to m)) = false.
Proof.
  intros Hin. destruct (generated_facts pos m Hin) as [Hok Hsh].
  destruct Hok as [Hf Ht Hne Hcap _ Hmv _].
  repeat split; auto. rewrite <- Hcap.
  destruct (shape_capture _ _ Hsh) as [-> | Hd].
  - now destruct (side pos).
  - eapply differentColour_not_own; eauto.
Qed.

Lemma generated_move_basics_witness :
  isSidePiece WHITE (cell (board promotionPosition) 9) = true /\
  captured promoCapture = cell (board promotionPosition) 0 /\
  isSidePiece WHITE (cell (board promotionPosition) 0) = false.
Proof.
  assert (Hin : In promoCapture (generateMoves promotionPosition)) by in_list.
  destruct (generated_move_basics promotionPosition promoCapture Hin)
    as (_ & _ & _ & H1 & H2 & H3).
  exact (conj H1 (conj H2 H3)).
Defined.

(** X7.  A generated move promotes, always to ['q'], exactly when a pawn lands
    on rank 0 or 7. *)
Theorem promotion_rule pos m :
  In m (generateMoves pos) ->
  promo m = (if (tolower (cell (board pos) (from m)) =? Chr.p) && isLastRank (to m)
             then Chr.q else 0).
Proof.
  intros Hin. destruct (generated_facts pos m Hin) as [_ Hsh].
  destruct (shape_kind _ _ Hsh) as [[Hl [Hp _]] | [[Hl [Hp _]] | [[Hl [Hp _]] |
    [[Hl [Hp _]] | [Hl [Hp _]]]]]]; rewrite Hp.
  - rewrite Hl. reflexivity.
  - rewrite Hl. reflexivity.
  - rewrite Hl. reflexivity.
  - destruct Hl as [-> | ->]; reflexivity.
  - destruct Hl as [-> | ->]; reflexivity.
Qed.

Lemma promotion_rule_witness :
  promo promoCapture = Chr.q /\
  promo (mkMove 52 36 0 0) = 0.
Proof.
  split.
  - rewrite (promotion_rule promotionPosition promoCapture) by in_list. reflexivity.
  - rewrite (promotion_rule initialPosition (mkMove 52 36 0 0)) by in_list. reflexivity.
Defined.

Lemma knight_leap s d :
  In d knightOffsets -> isOnBoard s = true -> isOnBoard (s + d) = true ->
  Z.abs (fileOf s - fileOf (s + d)) <= 2 ->
  (Z.abs (fileOf (s + d) - fileOf s) = 1 /\ Z.abs (rankOf (s + d) - rankOf s) = 2) \/
  (Z.abs (fileOf (s + d) - fileOf s) = 2 /\ Z.abs (rankOf (s + d) - rankOf s) = 1).
Proof.
  intros Hd Hs Ht Hf. on_board. unfold knightOffsets in Hd. cbn [In] in Hd.
  repeat (destruct Hd as [<- | Hd];
    [file_rank_facts (cons s (cons (s + -17) (cons (s + -15) (cons (s + -10) (cons (s + -6)
       (cons (s + 6) (cons (s + 10) (cons (s + 15) (cons (s + 17) nil)))))))));
     lia |]).
  destruct Hd.
Qed.

Lemma king_leap s d :
  In d kingOffsets -> isOnBoard s = true -> isOnBoard (s + d) = true ->
  Z.abs (fileOf s - fileOf (s + d)) <= 1 ->
  Z.abs (fileOf (s + d) - fileOf s) <= 1 /\ Z.abs (rankOf (s + d) - rankOf s) <= 1.
Proof.
  intros Hd Hs Ht Hf. on_board. unfold kingOffsets in Hd. cbn [In] in Hd.
  repeat (destruct Hd as [<- | Hd];
    [file_rank_facts (cons s (cons (s + -9) (cons (s + -8) (cons (s + -7) (cons (s + -1)
       (cons (s + 1) (cons (s + 7) (cons (s + 8) (cons (s + 9) nil)))))))));
     lia |]).
  destruct Hd.
Qed.

Lemma pawn_capture_step s dir t :
  (dir = -8 \/ dir = 8) -> (t = s + dir - 1 \/ t = s + dir + 1) ->
  Z.abs (fileOf t - fileOf s) = 1 ->
  rankOf t - rankOf s = dir / 8.
Proof.
  intros Hdir Ht Hf.
  destruct Hdir as [-> | ->]; destruct Ht as [-> | ->];
    change (-8 / 8) with (-1); change (8 / 8) with 1;
    file_rank_facts (cons s (cons (s + -8 - 1) (cons (s + -8 + 1) (cons (s + 8 - 1)
       (cons (s + 8 + 1) nil))))); lia.
Qed.

Lemma slide_line pos m offsets (stepBad : Z -> Z -> Z -> bool) :
  (forall d a, In d offsets -> isOnBoard a = true -> isOnBoard (a + d) = true ->
     stepBad d a (a + d) = false ->
     fileOf (a + d) = fileOf a + fileStep d /\ rankOf (a + d) = rankOf a + rankStep d) ->
  isOnBoard (from m) = true -> slideShape pos m offsets stepBad ->
  exists d k, In d offsets /\ 1 <= k /\ to m = from m + k * d /\
    (forall i, 0 <= i <= k ->
       isOnBoard (from m + i * d) = true /\
       fileOf (from m + i * d) = fileOf (from m) + i * fileStep d /\
       rankOf (from m + i * d) = rankOf (from m) + i * rankStep d) /\
    (forall i, 0 < i < k -> cell (board pos) (from m + i * d) = 0).
Proof.
  intros Hstep Hon (_ & d & k & Hd & Hk & Hto & Hpath & Hempty).
  exists d, k. split; [exact Hd |]. split; [exact Hk |]. split; [exact Hto |].
  split; [| exact Hempty].
  intros i Hi. apply (slide_path stepBad offsets (from m) d k Hstep Hon Hd Hpath i); lia.
Qed.

(** X8.  No generated move wraps around an edge of the board: measured in files
    and ranks, a pawn advances one rank (two from its starting rank) on its
    file or captures one file aside, a knight makes an L, a king stays
    within one file and one rank, a bishop keeps to a diagonal, a rook to a
    file or a rank, a queen to one of the two. *)
Theorem generated_moves_geometry pos m :
  In m (generateMoves pos) ->
  let pc := cell (board pos) (from m) in
  let l := tolower pc in
  let df := fileOf (to m) - fileOf (from m) in
  let dr := rankOf (to m) - rankOf (from m) in
  let fwd := if isWhitePiece pc then - dr else dr in
  (l = Chr.p ->
     (fwd = 1 /\ df = 0 /\ captured m = 0) \/
     (fwd = 2 /\ df = 0 /\ captured m = 0 /\
      rankOf (from m) = (if isWhitePiece pc then 6 else 1) /\
      cell (board pos) (from m + pawnDir pc) = 0) \/
     (fwd = 1 /\ Z.abs df = 1 /\ captured m <> 0)) /\
  (l = Chr.n -> (Z.abs df = 1 /\ Z.abs dr = 2) \/ (Z.abs df = 2 /\ Z.abs dr = 1)) /\
  (l = Chr.k -> Z.abs df <= 1 /\ Z.abs dr <= 1) /\
  (l = Chr.b -> Z.abs df = Z.abs dr) /\
  (l = Chr.r -> df = 0 \/ dr = 0) /\
  (l = Chr.q -> Z.abs df = Z.abs dr \/ df = 0 \/ dr = 0).
Proof.
  intros Hin pc l df dr fwd.
  destruct (generated_facts pos m Hin) as [Hok Hsh].
  pose proof (ok_from _ _ Hok) as Hf. pose proof (ok_to _ _ Hok) as Ht.
  assert (Hdiag : slideShape pos m bishopOffsets diagStepBad -> Z.abs df = Z.abs dr).
  { intros Hs. destruct (slide_line pos m _ _ diag_step Hf Hs) as (d & k & Hd & Hk & Hto & Hl & _).
    destruct (Hl k ltac:(lia)) as (_ & Hfk & Hrk).
    destruct (proj1 (steps_of_offsets d) Hd) as (H1 & H2 & _).
    subst df dr. rewrite Hto, Hfk, Hrk. nia. }
  assert (Hortho : slideShape pos m rookOffsets orthoStepBad -> df = 0 \/ dr = 0).
  { intros Hs. destruct (slide_line pos m _ _ ortho_step Hf Hs) as (d & k & Hd & Hk & Hto & Hl & _).
    destruct (Hl k ltac:(lia)) as (_ & Hfk & Hrk).
    destruct (proj2 (steps_of_offsets d) Hd) as (H1 & _).
    subst df dr. rewrite Hto, Hfk, Hrk.
    assert (H0 : fileStep d = 0 \/ rankStep d = 0) by lia.
    destruct H0 as [H0 | H0]; rewrite H0; [left | right]; lia. }
  assert (Hkind := shape_kind _ _ Hsh). cbv zeta in Hkind. fold pc in Hkind. fold l in Hkind.
  split; [| split; [| split; [| split; [| split]]]]; intros Hl;
    destruct Hkind as [[Hl' Hp] | [[Hl' Hp] | [[Hl' Hp] | [[Hl' Hp] | [Hl' Hp]]]]];
    try (exfalso; lia); auto.
  - (* pawn *)
    destruct Hp as [_ Hp]. fold pc in Hp. subst df dr fwd. unfold pawnDir in *.
    destruct Hp as [[Hto Hc] | [(Hto & Hc & He & Hr) | (Hto & Hfile & Hc)]].
    + left. rewrite Hto. destruct (isWhitePiece pc).
      * replace (from m + -8) with (from m + 8 * -1) by lia.
        rewrite rank_shift, file_shift. repeat split; auto; lia.
      * replace (from m + 8) with (from m + 8 * 1) by lia.
        rewrite rank_shift, file_shift. repeat split; auto; lia.
    + right. left. rewrite Hto. destruct (isWhitePiece pc).
      * replace (from m + 2 * -8) with (from m + 8 * -2) by lia.
        rewrite rank_shift, file_shift. repeat split; auto; lia.
      * replace (from m + 2 * 8) with (from m + 8 * 2) by lia.
        rewrite rank_shift, file_shift. repeat split; auto; lia.
    + right. right. split; [| split; auto].
      destruct (isWhitePiece pc).
      * pose proof (pawn_capture_step (from m) (-8) (to m) (or_introl eq_refl) Hto Hfile) as Hr.
        change (-8 / 8) with (-1) in Hr. lia.
      * pose proof (pawn_capture_step (from m) 8 (to m) (or_intror eq_refl) Hto Hfile) as Hr.
        change (8 / 8) with 1 in Hr. lia.
  - (* knight *)
    destruct Hp as (_ & d & Hd & Hto & Hfile). subst df dr. rewrite Hto in *.
    now apply knight_leap.
  - (* king *)
    destruct Hp as (_ & d & Hd & Hto & Hfile). subst df dr. rewrite Hto in *.
    now apply king_leap.
Qed.

Lemma generated_moves_geometry_witness :
  Z.abs (fileOf 42 - fileOf 57) = 1 /\ Z.abs (rankOf 42 - rankOf 57) = 2 \/
  Z.abs (fileOf 42 - fileOf 57) = 2 /\ Z.abs (rankOf 42 - rankOf 57) = 1.
Proof.
  assert (Hin : In (mkMove 57 42 0 0) (generateMoves initialPosition)) by in_list.
  exact (proj1 (proj2 (generated_moves_geometry initialPosition (mkMove 57 42 0 0) Hin))
           eq_refl).
Defined.

(** X9.  A bishop, rook or queen move runs [k] steps along one of the eight
    directions; the squares it passes are on the board, on the line from the
    source in that direction, and empty. *)
Theorem sliding_moves_cross_empty_cells pos m :
  In m (generateMoves pos) ->
  let l := tolower (cell (board pos) (from m)) in
  l = Chr.b \/ l = Chr.r \/ l = Chr.q ->
  exists d k, In d (bishopOffsets ++ rookOffsets) /\ 1 <= k /\
    d = 8 * rankStep d + fileStep d /\
    to m = from m + k * d /\
    forall i, 0 < i < k ->
      isOnBoard (from m + i * d) = true /\
      fileOf (from m + i * d) = fileOf (from m) + i * fileStep d /\
      rankOf (from m + i * d) = rankOf (from m) + i * rankStep d /\
      cell (board pos) (from m + i * d) = 0.
Proof.
  intros Hin l Hl.
  destruct (generated_facts pos m Hin) as [Hok Hsh].
  pose proof (ok_from _ _ Hok) as Hf.
  assert (Hkind := shape_kind _ _ Hsh). cbv zeta in Hkind. fold l in Hkind.
  destruct Hkind as [[Hl' Hp] | [[Hl' Hp] | [[Hl' Hp] | [[Hl' Hp] | [Hl' Hp]]]]];
    try (exfalso; lia).
  - destruct (slide_line pos m _ _ diag_step Hf Hp) as (d & k & Hd & Hk & Hto & Hline & He).
    exists d, k. split; [apply in_or_app; now left |]. split; [exact Hk |].
    split; [apply (proj1 (steps_of_offsets d) Hd) |]. split; [exact Hto |].
    intros i Hi. destruct (Hline i ltac:(lia)) as (H1 & H2 & H3). auto.
  - destruct (slide_line pos m _ _ ortho_step Hf Hp) as (d & k & Hd & Hk & Hto & Hline & He).
    exists d, k. split; [apply in_or_app; now right |]. split; [exact Hk |].
    split; [apply (proj2 (steps_of_offsets d) Hd) |]. split; [exact Hto |].
    intros i Hi. destruct (Hline i ltac:(lia)) as (H1 & H2 & H3). auto.
Qed.

Lemma sliding_moves_cross_empty_cells_witness :
  exists d k, In d (bishopOffsets ++ rookOffsets) /\ 1 <= k /\
    d = 8 * rankStep d + fileStep d /\ 53 = 8 + k * d /\
    forall i, 0 < i < k ->
      isOnBoard (8 + i * d) = true /\
      fileOf (8 + i * d) = fileOf 8 + i * fileStep d /\
      rankOf (8 + i * d) = rankOf 8 + i * rankStep d /\
      cell (board mateInOne) (8 + i * d) = 0.
Proof.
  assert (Hin : In (mkMove 8 53 0 0) (generateMoves mateInOne)) by in_list.
  exact (sliding_moves_cross_empty_cells mateInOne (mkMove 8 53 0 0) Hin
           (or_intror (or_intror eq_refl))).
Defined.

(* ------------------------------------------------------------------------- *)
(** ** The generator and the attack detector agree *)
(* ------------------------------------------------------------------------- *)

Lemma isAttacked_parts pos target bySide :
  isAttacked pos target bySide = true <->
  (existsb (fun dx =>
     let sq := target + match bySide with WHITE => 8 | BLACK => -8 end + dx in
     isOnBoard sq && (Z.abs (fileOf sq - fileOf target) =? 1)
     && negb (cell (board pos) sq =? 0) && isSidePiece bySide (cell (board pos) sq)
     && (tolower (cell (board pos) sq) =? Chr.p)) [-1; 1] = true) \/
  (existsb (fun d =>
     let sq := target + d in
     if negb (isOnBoard sq) then false
     else if Z.abs (fileOf target - fileOf sq) >? 2 then false
     else negb (cell (board pos) sq =? 0) && isSidePiece bySide (cell (board pos) sq)
          && (tolower (cell (board pos) sq) =? Chr.n)) knightOffsets = true) \/
  (existsb (fun d =>
     attackRay rayFuel (board pos) bySide d diagStepOk
       (fun l => (l =? Chr.b) || (l =? Chr.q)) (target + d)) bishopOffsets = true) \/
  (existsb (fun d =>
     attackRay rayFuel (board pos) bySide d (fun prev sq => negb (orthoStepBad d prev sq))
       (fun l => (l =? Chr.r) || (l =? Chr.q)) (target + d)) rookOffsets = true) \/
  (existsb (fun d =>
     let sq := target + d in
     isOnBoard sq && (Z.abs (fileOf target - fileOf sq) <=? 1)
     && negb (cell (board pos) sq =? 0) && isSidePiece bySide (cell (board pos) sq)
     && (tolower (cell (board pos) sq) =? Chr.k)) kingOffsets = true).
Proof. unfold isAttacked. cbv zeta. rewrite !orb_true_iff. tauto. Qed.

(** Walking back from a square of a sliding move towards its source, the
    attack ray meets only empty cells and then the slider. *)
Lemma attackRay_back b bySide d (stepOk : Z -> Z -> bool) (isKind : Z -> bool) s :
  isSidePiece bySide (cell b s) = true -> isKind (tolower (cell b s)) = true ->
  forall j fuel, (j < fuel)%nat ->
  (forall i, 0 <= i <= Z.of_nat j ->
     isOnBoard (s + i * d) = true /\ stepOk (s + (i + 1) * d) (s + i * d) = true) ->
  (forall i, 0 < i <= Z.of_nat j -> cell b (s + i * d) = 0) ->
  attackRay fuel b bySide (- d) stepOk isKind (s + Z.of_nat j * d) = true.
Proof.
  intros Hside Hkind. induction j as [|j IH]; intros fuel Hf Hpath Hempty;
    (destruct fuel as [|fuel]; [lia |]); cbn [attackRay].
  - replace (s + Z.of_nat 0 * d) with s by lia.
    destruct (Hpath 0 ltac:(lia)) as [Hon Hst].
    replace (s + 0 * d) with s in * by lia.
    replace (s - - d) with (s + (0 + 1) * d) by lia.
    rewrite Hon, Hst. cbn [andb].
    pose proof (isSidePiece_nonzero _ _ Hside) as Hnz. apply Z.eqb_neq in Hnz.
    now rewrite Hnz, Hside, Hkind.
  - destruct (Hpath (Z.of_nat (S j)) ltac:(lia)) as [Hon Hst].
    replace (s + Z.of_nat (S j) * d - - d) with (s + (Z.of_nat (S j) + 1) * d) by lia.
    rewrite Hon, Hst. cbn [andb].
    rewrite (Hempty (Z.of_nat (S j)) ltac:(lia)). cbn [Z.eqb].
    replace (s + Z.of_nat (S j) * d + - d) with (s + Z.of_nat j * d) by lia.
    apply IH; [lia | intros; apply Hpath; lia | intros; apply Hempty; lia].
Qed.

Lemma offsets_negation d :
  (In d knightOffsets -> In (- d) knightOffsets) /\
  (In d kingOffsets -> In (- d) kingOffsets) /\
  (In d bishopOffsets -> In (- d) bishopOffsets) /\
  (In d rookOffsets -> In (- d) rookOffsets).
Proof.
  unfold knightOffsets, kingOffsets, bishopOffsets, rookOffsets. cbn [In].
  repeat split; intros H;
    repeat (destruct H as [<- | H]; [cbn; tauto |]); destruct H.
Qed.

Lemma slide_length s d k :
  In d (bishopOffsets ++ rookOffsets) -> isOnBoard s = true ->
  isOnBoard (s + k * d) = true -> 1 <= k -> k <= 63.
Proof.
  intros Hd Hs Ht Hk. on_board.
  unfold bishopOffsets, rookOffsets in Hd. cbn [In app] in Hd.
  repeat (destruct Hd as [<- | Hd]; [lia |]). destruct Hd.
Qed.

Lemma slide_is_attack pos m offsets (stepBad : Z -> Z -> Z -> bool)
    (stepOk : Z -> Z -> Z -> bool) (isKind : Z -> bool) :
  (forall d, In d offsets -> In d (bishopOffsets ++ rookOffsets) /\ In (- d) offsets) ->
  (forall d a, In d offsets -> stepBad d a (a + d) = false -> stepOk (- d) (a + d) a = true) ->
  genOk pos m -> slideShape pos m offsets stepBad ->
  isKind (tolower (cell (board pos) (from m))) = true ->
  existsb (fun d => attackRay rayFuel (board pos) (side pos) d (stepOk d) isKind (to m + d))
    offsets = true.
Proof.
  intros Hoff Hsym Hok (_ & d & k & Hd & Hk & Hto & Hpath & Hempty) Hkind.
  destruct (Hoff d Hd) as [Hall Hneg].
  apply existsb_exists. exists (- d). split; [exact Hneg |].
  pose proof (ok_from _ _ Hok) as Hf. pose proof (ok_to _ _ Hok) as Ht.
  rewrite Hto in Ht. pose proof (slide_length _ _ _ Hall Hf Ht Hk) as Hk63.
  assert (Hj : Z.of_nat (Z.to_nat (k - 1)) = k - 1) by lia.
  replace (to m + - d) with (from m + Z.of_nat (Z.to_nat (k - 1)) * d)
    by (rewrite Hj, Hto; ring).
  apply attackRay_back; auto; try rewrite Hj.
  - apply (ok_mover _ _ Hok).
  - unfold rayFuel. lia.
  - intros i Hi. split.
    + destruct (Z.eq_dec i 0) as [-> | Hne].
      * now replace (from m + 0 * d) with (from m) by lia.
      * destruct (Hpath (i - 1) ltac:(lia)) as [Hon _].
        now replace (from m + (i - 1 + 1) * d) with (from m + i * d) in Hon by lia.
    + destruct (Hpath i ltac:(lia)) as [_ Hbad].
      replace (from m + (i + 1) * d) with (from m + i * d + d) in * by lia.
      now apply Hsym.
  - intros i Hi. apply Hempty. lia.
Qed.

(** X11.  Every generated move other than the advance of a pawn lands on a square
    that [isAttacked] reports as attacked by the side to move. *)
Theorem generated_moves_are_attacks pos m :
  In m (generateMoves pos) ->
  captured m <> 0 \/ tolower (cell (board pos) (from m)) <> Chr.p ->
  isAttacked pos (to m) (side pos) = true.
Proof.
  intros Hin Hcap.
  destruct (generated_facts pos m Hin) as [Hok Hsh].
  pose proof (ok_from _ _ Hok) as Hf. pose proof (ok_mover _ _ Hok) as Hmv.
  pose proof (isSidePiece_nonzero _ _ Hmv) as Hnz. apply Z.eqb_neq in Hnz.
  apply isAttacked_parts.
  destruct (shape_kind _ _ Hsh) as [[Hl Hp] | [[Hl Hp] | [[Hl Hp] | [[Hl Hp] | [Hl Hp]]]]].
  - (* pawn capture *)
    left. destruct Hp as [_ Hp]. unfold pawnDir in Hp.
    destruct Hp as [[_ Hc] | [(_ & Hc & _) | (Hto & Hfile & _)]];
      [destruct Hcap; congruence | destruct Hcap; congruence |].
    destruct (mover_pawn _ _ Hmv Hl) as [[Hs Hpc] | [Hs Hpc]]; rewrite Hs, Hpc in *;
      cbn [isWhitePiece isupper Z.leb Z.compare Pos.compare Pos.compare_cont andb] in Hto;
      cbn [existsb];
      destruct Hto as [Hto | Hto]; rewrite Hto in *;
      [ apply orb_true_iff; right; apply orb_true_iff; left
      | apply orb_true_iff; left
      | apply orb_true_iff; right; apply orb_true_iff; left
      | apply orb_true_iff; left ];
      match goal with
      | |- context [isOnBoard ?sq] => replace sq with (from m) by lia
      end;
      rewrite Hf, Hpc; cbn [andb negb Z.eqb Pos.eqb isSidePiece isWhitePiece isBlackPiece
                            isupper islower tolower Z.leb Z.ltb Z.compare Pos.compare
                            Pos.compare_cont];
      rewrite !andb_true_r; apply Z.eqb_eq; lia.
  - (* knight *)
    right. left. destruct Hp as (_ & d & Hd & Hto & Hfile).
    apply existsb_exists. exists (- d). split; [now apply offsets_negation |].
    cbv zeta. replace (to m + - d) with (from m) by lia.
    rewrite Hf. cbn [negb].
    destruct (Z.abs (fileOf (to m) - fileOf (from m)) >? 2) eqn:E; [lia |].
    rewrite Hnz, Hmv, Hl. reflexivity.
  - (* king *)
    right. right. right. right. destruct Hp as (_ & d & Hd & Hto & Hfile).
    apply existsb_exists. exists (- d). split; [now apply offsets_negation |].
    cbv zeta. replace (to m + - d) with (from m) by lia.
    rewrite Hf, Hnz, Hmv, Hl. cbn [andb negb Z.eqb Pos.eqb].
    rewrite !andb_true_r. apply Z.leb_le. lia.
  - (* diagonal slide *)
    right. right. left.
    apply (slide_is_attack pos m bishopOffsets diagStepBad (fun _ => diagStepOk)); auto.
    + intros d Hd. split; [apply in_or_app; now left | now apply offsets_negation].
    + intros d a Hd Hbad. unfold diagStepBad, diagStepOk in *.
      apply negb_false_iff, Z.eqb_eq in Hbad. apply Z.eqb_eq. lia.
    + destruct Hl as [-> | ->]; reflexivity.
  - (* orthogonal slide *)
    right. right. right. left.
    apply (slide_is_attack pos m rookOffsets orthoStepBad
             (fun d prev sq => negb (orthoStepBad d prev sq))); auto.
    + intros d Hd. split; [apply in_or_app; now right | now apply offsets_negation].
    + intros d a Hd Hbad. unfold orthoStepBad in *. apply negb_true_iff.
      unfold rookOffsets in Hd. cbn [In] in Hd.
      destruct Hd as [<- | [<- | [<- | [<- | []]]]];
        change (- -8) with 8; change (- -1) with 1;
        change (- (1)) with (-1); change (- (8)) with (-8);
        cbn [Z.eqb Pos.eqb orb andb] in *; auto;
        apply negb_false_iff, Z.eqb_eq in Hbad; rewrite Hbad;
        now rewrite Z.eqb_refl.
    + destruct Hl as [-> | ->]; reflexivity.
Qed.

Lemma generated_moves_are_attacks_witness :
  isAttacked promotionPosition 0 WHITE = true /\ isAttacked mateInOne 53 WHITE = true.
Proof.
  split.
  - apply (generated_moves_are_attacks promotionPosition promoCapture); [in_list |].
    left. discriminate.
  - apply (generated_moves_are_attacks mateInOne (mkMove 8 53 0 0)); [in_list |].
    right. discriminate.
Defined.

(* ------------------------------------------------------------------------- *)
(** ** Evaluation along a move *)
(* ------------------------------------------------------------------------- *)

Lemma evaluate_material pos :
  evaluate pos =
  match side pos with WHITE => material (board pos) | BLACK => - material (board pos) end.
Proof. unfold evaluate, material. rewrite evaluate_fold. destruct (side pos); lia. Qed.

Lemma material_setCell b sq v :
  (Z.to_nat sq < length b)%nat ->
  material (setCell b sq v) = material b - cellValue (cell b sq) + cellValue v.
Proof.
  unfold setCell, cell, material. generalize (Z.to_nat sq) as i.
  induction b as [|c b IH]; intros i Hi; simpl in Hi; [lia |].
  destruct i as [|i]; cbn [map fold_right nth]; simpl.
  - lia.
  - rewrite IH by lia. lia.
Qed.

Lemma cellValue_white c : isWhitePiece c = true -> cellValue c = pieceValue c.
Proof.
  unfold cellValue. intros H. rewrite H.
  destruct (c =? 0) eqn:E; auto. apply Z.eqb_eq in E. subst c. discriminate.
Qed.

Lemma cellValue_not_white c : isWhitePiece c = false -> cellValue c = - pieceValue c.
Proof.
  unfold cellValue. intros H. rewrite H.
  destruct (c =? 0) eqn:E; auto. apply Z.eqb_eq in E. subst c. reflexivity.
Qed.

(** X13.  [evaluate] after a generated move is the negation of [evaluate] before
    it, raised by the value of the captured piece and by 800 for a
    promotion: the mover's gain, seen from the other side. *)
Theorem evaluate_after_move pos m :
  wfPosition pos -> In m (generateMoves pos) ->
  evaluate (fst (makeMove pos m)) =
  - (evaluate pos + pieceValue (captured m) + (if promo m =? 0 then 0 else 800)).
Proof.
  intros Hwf Hin. destruct (generated_facts pos m Hin) as [Hok Hsh].
  pose proof (wf_index _ _ Hwf (ok_from _ _ Hok)) as Hf.
  pose proof (wf_index _ _ Hwf (ok_to _ _ Hok)) as Ht.
  pose proof (ok_from _ _ Hok) as Hfo. pose proof (ok_to _ _ Hok) as Hto. on_board.
  pose proof (ok_distinct _ _ Hok) as Hne.
  pose proof (ok_mover _ _ Hok) as Hmv.
  pose proof (placedPiece_cases _ _ Hok) as Hpl. cbv zeta in Hpl.
  rewrite makeMove_placed. cbn [fst]. rewrite !evaluate_material. cbn [board side].
  rewrite material_setCell by (rewrite length_setCell; lia).
  rewrite material_setCell by lia.
  rewrite cell_setCell_ne by lia.
  rewrite <- (ok_captured _ _ Hok).
  change (cellValue 0) with 0.
  set (pc := cell (board pos) (from m)) in *.
  assert (Hcap : cellValue (captured m) =
                 match side pos with WHITE => - pieceValue (captured m)
                                   | BLACK => pieceValue (captured m) end).
  { destruct (shape_capture _ _ Hsh) as [-> | Hd]; [now destruct (side pos) |].
    fold pc in Hd. unfold differentColour in Hd. apply negb_true_iff in Hd.
    unfold isSidePiece in Hmv.
    destruct (side pos).
    - rewrite Hmv in Hd. apply cellValue_not_white.
      now destruct (isWhitePiece (captured m)).
    - assert (Hw : isWhitePiece pc = false).
      { unfold isBlackPiece, islower in Hmv. unfold isWhitePiece, isupper. lia. }
      rewrite Hw in Hd. apply cellValue_white.
      now destruct (isWhitePiece (captured m)). }
  rewrite Hcap.
  destruct Hpl as [[Hp Hq] | [(Hp & Hs & Hc & Hq) | (Hp & Hs & Hc & Hq)]];
    rewrite Hp, Hq; cbn [Z.eqb].
  - destruct (side pos); cbn [flipSide]; lia.
  - rewrite Hs, Hc. cbn [flipSide].
    change (cellValue 81) with 900. change (cellValue 80) with 100. lia.
  - rewrite Hs, Hc. cbn [flipSide].
    change (cellValue 113) with (-900). change (cellValue 112) with (-100). lia.
Qed.

Lemma evaluate_after_move_witness :
  evaluate promotionPosition = 100 - 500 /\
  evaluate (fst (makeMove promotionPosition promoCapture)) = - (100 - 500 + 500 + 800).
Proof.
  split; [reflexivity |].
  rewrite (evaluate_after_move promotionPosition promoCapture eq_refl) by in_list.
  reflexivity.
Defined.

(* ------------------------------------------------------------------------- *)
(** ** The search leaves the board as it found it *)
(* ------------------------------------------------------------------------- *)

Lemma rootLoop_restores (search : Searcher) randProb draws depth moves :
  (forall p a b t s p' t', wfPosition p -> search p (depth - 1) a b t = Some (s, p', t') -> p' = p) ->
  forall k pos best bestScore tt m pos' tt',
  wfPosition pos -> Forall (genOk pos) moves ->
  rootLoop search randProb draws k moves pos depth best bestScore tt = Returned (m, pos', tt') ->
  pos' = pos.
Proof.
  intros Hs. induction moves as [|x moves IH];
    intros k pos best bestScore tt m pos' tt' Hwf Hok; cbn [rootLoop].
  - now intros [= _ <- _].
  - destruct (Qltb 0 randProb && Qltb (draws k) randProb); [now intros [= _ <- _] |].
    inversion Hok as [|? ? Hx Hrest]; subst.
    pose proof (make_undo_genOk pos x Hwf Hx) as Hundo.
    pose proof (wf_makeMove pos x Hwf) as Hwf1.
    destruct (makeMove pos x) as [pos1 u]. cbn [fst snd] in *.
    destruct (search pos1 (depth - 1) (- INF) INF tt) as [[[r pos2] tt2]|] eqn:Er;
      [| discriminate].
    apply Hs in Er; auto. subst pos2. rewrite Hundo.
    destruct (- r >? bestScore); apply IH; auto.
Qed.

Section RestoreFacts.

Variable std_sort : (Move -> Move -> bool) -> list Move -> list Move.
Hypothesis std_sort_perm : forall cmp l, Permutation (std_sort cmp l) l.

Lemma searchBestMove_restores fuel pos depth randProb draws tt m pos' tt' :
  wfPosition pos ->
  searchBestMove std_sort fuel pos depth randProb draws tt = Returned (m, pos', tt') ->
  pos' = pos /\ In m (snd (generateLegalMoves pos [])).
Proof.
  intros Hwf. unfold searchBestMove, searchBestMoveWith.
  pose proof (legal_all_genOk pos Hwf) as Hok.
  pose proof (generateLegalMoves_fst pos [] Hwf) as Hfst.
  destruct (generateLegalMoves pos []) as [pos1 moves].
  cbn [fst snd] in *. subst pos1.
  destruct moves as [|m0 moves]; [discriminate |].
  intros H. split.
  - eapply rootLoop_restores; [| exact Hwf | | exact H].
    + intros. eapply alphaBetaSearch_restores; eauto.
    + now apply sorted_genOk.
  - apply rootLoop_member in H as [-> | H]; [now left |].
    eapply Permutation_in; [apply std_sort_perm | exact H].
Qed.

(** X19.  Whatever the depth and the window, a search that returns hands the
    position back exactly as it received it: every [makeMove] on the way has
    been undone.  The same holds of the root selector. *)
Theorem search_restores_position fuel pos depth :
  wfPosition pos ->
  (forall alpha beta tt s pos' tt',
     alphaBetaSearch std_sort fuel pos depth alpha beta tt = Some (s, pos', tt') -> pos' = pos) /\
  (forall randProb draws tt m pos' tt',
     searchBestMove std_sort fuel pos depth randProb draws tt = Returned (m, pos', tt') ->
     pos' = pos).
Proof.
  intros Hwf. split.
  - intros. eapply alphaBetaSearch_restores; eauto.
  - intros randProb draws tt m pos' tt' H.
    now apply searchBestMove_restores in H as [H _].
Qed.

End RestoreFacts.

Lemma outcome_eta (o : Outcome (Move * Position * TT)) :
  match o with Returned _ => true | _ => false end = true ->
  exists m p t, o = Returned (m, p, t).
Proof. destruct o as [[[m p] t]| |]; [eauto | discriminate | discriminate]. Qed.

Lemma search_restores_position_witness :
  exists m tt',
    searchBestMove insertionSort 3 mateInOne 3 0 noDraws ∅ = Returned (m, mateInOne, tt').
Proof.
  destruct (outcome_eta (searchBestMove insertionSort 3 mateInOne 3 0 noDraws ∅))
    as (m & p & t & E); [vm_compute; reflexivity |].
  exists m, t.
  pose proof (proj2 (search_restores_position insertionSort insertionSort_perm 3 mateInOne 3
                       eq_refl) 0%Q noDraws ∅ m p t E) as Hp.
  rewrite Hp in E. exact E.
Defined.

(* ------------------------------------------------------------------------- *)
(** ** The game wrapper *)
(* ------------------------------------------------------------------------- *)

Lemma playerLoop_first mv f t s g :
  fst (Game.playerLoop mv f t s g) = true ->
  exists pre m post,
    mv = pre ++ m :: post /\
    Forall (fun x => ~ (from x = f /\ to x = t)) pre /\
    from m = f /\ to m = t /\
    snd (Game.playerLoop mv f t s g) =
      Game.mk (fst (makeMove (Game.pos g) m))
        (if negb (captured m =? 0) then Game.whiteCaps g ++ [captured m] else Game.whiteCaps g)
        (Game.blackCaps g) (Game.levelDepth g) (Game.randomProbability g)
        ("You: " ++ substring 0 2 s ++ "-" ++ substring 2 2 s)%string.
Proof.
  induction mv as [|x mv IH]; cbn [Game.playerLoop]; [discriminate |].
  destruct ((from x =? f) && (to x =? t)) eqn:E.
  - intros _. exists [], x, mv. split_bools.
    split; [reflexivity |]. split; [constructor |]. split; [lia |]. split; [lia |].
    destruct (makeMove (Game.pos g) x) as [pos' u]. reflexivity.
  - intros H. destruct (IH H) as (pre & m & post & -> & Hpre & Hf & Ht & Hs).
    exists (x :: pre), m, post. split; [reflexivity |]. split; [| auto].
    constructor; auto. intros [Hxf Hxt].
    apply andb_false_iff in E as [E | E]; apply Z.eqb_neq in E; contradiction.
Qed.

Lemma playerMove_unfold s g :
  wfPosition (Game.pos g) -> String.length s = 4%nat ->
  Game.playerMove s g =
  Game.playerLoop (snd (generateLegalMoves (Game.pos g) []))
    (algebraicToSquare (substring 0 2 s)) (algebraicToSquare (substring 2 2 s)) s g.
Proof.
  intros Hwf Hlen. unfold Game.playerMove.
  apply Nat.eqb_eq in Hlen. rewrite Hlen. cbn [negb].
  pose proof (generateLegalMoves_fst (Game.pos g) [] Hwf) as Hfst.
  destruct (generateLegalMoves (Game.pos g) []) as [pos' mv].
  cbn [fst snd] in *. subst pos'. now destruct g.
Qed.

(** X20.  When [playerMove] accepts a string it plays the first legal move whose
    squares are the parsed ones: the position becomes [makeMove] of it, a
    captured piece is appended to [whiteCaps], [lastMove] is rewritten, and
    nothing else changes. *)
Theorem playerMove_plays_first_match s g :
  wfPosition (Game.pos g) -> fst (Game.playerMove s g) = true ->
  exists pre m post,
    snd (generateLegalMoves (Game.pos g) []) = pre ++ m :: post /\
    Forall (fun x => ~ (from x = algebraicToSquare (substring 0 2 s) /\
                        to x = algebraicToSquare (substring 2 2 s))) pre /\
    from m = algebraicToSquare (substring 0 2 s) /\
    to m = algebraicToSquare (substring 2 2 s) /\
    snd (Game.playerMove s g) =
      Game.mk (fst (makeMove (Game.pos g) m))
        (if negb (captured m =? 0) then Game.whiteCaps g ++ [captured m] else Game.whiteCaps g)
        (Game.blackCaps g) (Game.levelDepth g) (Game.randomProbability g)
        ("You: " ++ substring 0 2 s ++ "-" ++ substring 2 2 s)%string.
Proof.
  intros Hwf H.
  assert (Hlen : String.length s = 4%nat).
  { unfold Game.playerMove in H. destruct (String.length s =? 4)%nat eqn:E.
    - now apply Nat.eqb_eq in E.
    - discriminate H. }
  rewrite playerMove_unfold in * by assumption.
  now apply playerLoop_first.
Qed.

Lemma playerMove_plays_first_match_witness :
  exists pre m post,
    snd (generateLegalMoves initialPosition []) = pre ++ m :: post /\
    from m = 52 /\ to m = 36 /\
    Game.pos (snd (Game.playerMove "e2e4" (fst (Game.new None ∅)))) =
    fst (makeMove initialPosition m).
Proof.
  assert (H : fst (Game.playerMove "e2e4" (fst (Game.new None ∅))) = true)
    by (vm_compute; reflexivity).
  destruct (playerMove_plays_first_match "e2e4" (fst (Game.new None ∅)) eq_refl H)
    as (pre & m & post & H1 & _ & H2 & H3 & H4).
  exists pre, m, post. split; [exact H1 |]. split; [exact H2 |]. split; [exact H3 |].
  now rewrite H4.
Defined.

Lemma playerLoop_same_squares mv f t s s' g :
  fst (Game.playerLoop mv f t s g) = fst (Game.playerLoop mv f t s' g) /\
  Game.pos (snd (Game.playerLoop mv f t s g)) = Game.pos (snd (Game.playerLoop mv f t s' g)) /\
  Game.whiteCaps (snd (Game.playerLoop mv f t s g)) =
  Game.whiteCaps (snd (Game.playerLoop mv f t s' g)).
Proof.
  induction mv as [|x mv IH]; cbn [Game.playerLoop]; auto.
  destruct ((from x =? f) && (to x =? t)); auto.
Qed.

(** X21.  [playerMove] does not check that its string names squares: two strings
    of four characters whose halves parse to the same numbers are treated
    alike, so a string such as "m3e4" is played as e2e4. *)
Theorem playerMove_reads_only_parsed_squares s s' g :
  wfPosition (Game.pos g) ->
  String.length s = 4%nat -> String.length s' = 4%nat ->
  algebraicToSquare (substring 0 2 s) = algebraicToSquare (substring 0 2 s') ->
  algebraicToSquare (substring 2 2 s) = algebraicToSquare (substring 2 2 s') ->
  fst (Game.playerMove s g) = fst (Game.playerMove s' g) /\
  Game.pos (snd (Game.playerMove s g)) = Game.pos (snd (Game.playerMove s' g)) /\
  Game.whiteCaps (snd (Game.playerMove s g)) = Game.whiteCaps (snd (Game.playerMove s' g)).
Proof.
  intros Hwf Hl Hl' Hf Ht.
  rewrite !playerMove_unfold by assumption. rewrite Hf, Ht.
  apply playerLoop_same_squares.
Qed.

Lemma playerMove_reads_only_parsed_squares_witness :
  fst (Game.playerMove "m3e4" (fst (Game.new None ∅))) = true /\
  Game.pos (snd (Game.playerMove "m3e4" (fst (Game.new None ∅)))) =
  Game.pos (snd (Game.playerMove "e2e4" (fst (Game.new None ∅)))).
Proof.
  destruct (playerMove_reads_only_parsed_squares "m3e4" "e2e4" (fst (Game.new None ∅))
              eq_refl eq_refl eq_refl eq_refl eq_refl) as (H1 & H2 & _).
  split; [rewrite H1; vm_compute; reflexivity | exact H2].
Defined.

Lemma legalMoves_unfold g :
  wfPosition (Game.pos g) ->
  Game.legalMoves g =
  (map (fun m => (squareToAlgebraic (from m) ++ squareToAlgebraic (to m))%string)
     (snd (generateLegalMoves (Game.pos g) [])), g).
Proof.
  intros Hwf. unfold Game.legalMoves.
  pose proof (generateLegalMoves_fst (Game.pos g) [] Hwf) as Hfst.
  destruct (generateLegalMoves (Game.pos g) []) as [pos' mv].
  cbn [fst snd] in *. subst pos'. now destruct g.
Qed.

(** X22.  [legalMoves] leaves the game as it is, and every string it lists has
    four characters and is accepted by [playerMove]. *)
Theorem listed_moves_are_accepted g s :
  wfPosition (Game.pos g) -> In s (fst (Game.legalMoves g)) ->
  snd (Game.legalMoves g) = g /\
  String.length s = 4%nat /\
  fst (Game.playerMove s g) = true.
Proof.
  intros Hwf. rewrite legalMoves_unfold by assumption. cbn [fst snd].
  rewrite in_map_iff. intros (m & <- & Hin).
  split; [reflexivity |]. split; [reflexivity |].
  rewrite playerMove_unfold by (auto; reflexivity).
  apply playerLoop_true. exists m. split; [exact Hin |].
  pose proof (legal_genOk _ _ Hwf Hin) as Hok.
  change (substring 0 2 (squareToAlgebraic (from m) ++ squareToAlgebraic (to m)))
    with (squareToAlgebraic (from m)).
  change (substring 2 2 (squareToAlgebraic (from m) ++ squareToAlgebraic (to m)))
    with (squareToAlgebraic (to m)).
  rewrite !roundtrip_on_board; [auto | apply (ok_to _ _ Hok) | apply (ok_from _ _ Hok)].
Qed.

Lemma listed_moves_are_accepted_witness :
  String.length "g1f3" = 4%nat /\
  fst (Game.playerMove "g1f3" (fst (Game.new None ∅))) = true.
Proof.
  refine (proj2 (listed_moves_are_accepted (fst (Game.new None ∅)) "g1f3" eq_refl _)).
  vm_compute. repeat (first [left; reflexivity | right]).
Defined.

Section AiClaims.

Variable std_sort : (Move -> Move -> bool) -> list Move -> list Move.
Hypothesis std_sort_perm : forall cmp l, Permutation (std_sort cmp l) l.

Lemma searchBestMove_oob fuel pos depth randProb draws tt :
  searchBestMove std_sort fuel pos depth randProb draws tt = OutOfBounds <->
  snd (generateLegalMoves pos []) = [].
Proof.
  unfold searchBestMove, searchBestMoveWith.
  destruct (generateLegalMoves pos []) as [pos0 moves]. cbn [snd].
  destruct moves as [|m0 moves]; [tauto |].
  split; [| discriminate]. intros H. now apply rootLoop_in_bounds in H.
Qed.

Lemma aiMove_oob fuel draws g tt :
  Game.aiMove std_sort fuel draws (g, tt) = OutOfBounds <->
  snd (generateLegalMoves (Game.pos g) []) = [].
Proof.
  rewrite <- (searchBestMove_oob fuel (Game.pos g)
                (Game.levelDepth g + (if Z.abs (evaluate (Game.pos g)) >? 1500 then 2 else 0))
                (Game.randomProbability g) draws tt).
  unfold Game.aiMove.
  destruct (searchBestMove std_sort fuel _ _ _ _ _) as [[[m p] t]| |].
  - destruct (makeMove p m). split; discriminate.
  - tauto.
  - split; discriminate.
Qed.

(** X23.  [isCheckmate] and [isStalemate] hold exactly when no legal move exists,
    with and without check, and that is exactly when [aiMove] runs into the
    out-of-bounds read of [searchBestMove]. *)
Theorem game_over_is_the_out_of_bounds_case fuel draws g tt :
  let legal := snd (generateLegalMoves (Game.pos g) []) in
  (Game.isCheckmate g = true <-> Game.inCheck g = true /\ legal = []) /\
  (Game.isStalemate g = true <-> Game.inCheck g = false /\ legal = []) /\
  (Game.aiMove std_sort fuel draws (g, tt) = OutOfBounds <->
   Game.isCheckmate g || Game.isStalemate g = true).
Proof.
  intros legal. subst legal. rewrite aiMove_oob.
  unfold Game.isCheckmate, Game.isStalemate, Game.inCheck.
  destruct (isInCheck (Game.pos g) (side (Game.pos g))); cbn [negb orb];
    destruct (generateLegalMoves (Game.pos g) []) as [p mv]; cbn [snd];
    destruct mv; cbn [orb]; intuition (discriminate || congruence).
Qed.

(** X24.  When [aiMove] returns, it has played one legal move of the position: the
    string names its squares and is one that [legalMoves] listed, the
    position is [makeMove] of it, a captured piece is appended to
    [blackCaps], and the level is untouched. *)
Theorem aiMove_plays_a_legal_move fuel draws g tt mvStr g' tt' :
  wfPosition (Game.pos g) ->
  Game.aiMove std_sort fuel draws (g, tt) = Returned (mvStr, (g', tt')) ->
  exists m,
    In m (snd (generateLegalMoves (Game.pos g) [])) /\
    mvStr = (squareToAlgebraic (from m) ++ squareToAlgebraic (to m))%string /\
    In mvStr (fst (Game.legalMoves g)) /\
    Game.pos g' = fst (makeMove (Game.pos g) m) /\
    Game.blackCaps g' =
      (if negb (captured m =? 0) then Game.blackCaps g ++ [captured m] else Game.blackCaps g) /\
    Game.whiteCaps g' = Game.whiteCaps g /\
    Game.levelDepth g' = Game.levelDepth g /\
    Game.randomProbability g' = Game.randomProbability g /\
    Game.lastMove g' = ("AI: " ++ mvStr)%string.
Proof.
  intros Hwf. unfold Game.aiMove.
  destruct (searchBestMove std_sort fuel _ _ _ _ _) as [[[m p] t]| |] eqn:E;
    [| discriminate | discriminate].
  apply (searchBestMove_restores std_sort std_sort_perm) in E as [-> Hin]; auto.
  destruct (makeMove (Game.pos g) m) as [pos2 u] eqn:Em.
  intros [= <- <- <-]. exists m.
  rewrite legalMoves_unfold by assumption.
  cbn [fst Game.pos Game.blackCaps Game.whiteCaps Game.levelDepth Game.randomProbability
       Game.lastMove].
  split; [exact Hin |]. split; [reflexivity |].
  split; [apply in_map_iff; exists m; split; [reflexivity | exact Hin] |].
  split; [now rewrite Em |]. split; [reflexivity |]. split; [reflexivity |].
  split; [reflexivity |]. split; reflexivity.
Qed.

End AiClaims.

Lemma game_over_is_the_out_of_bounds_case_witness :
  let g := Game.mk (fst (makeMove mateInOne mateNow)) [] [] 4 0%Q EmptyString in
  Game.isCheckmate g = true /\ Game.aiMove insertionSort 8 noDraws (g, ∅) = OutOfBounds.
Proof.
  cbv zeta. split; [vm_compute; reflexivity |].
  apply (proj2 (proj2 (game_over_is_the_out_of_bounds_case insertionSort 8 noDraws
           (Game.mk (fst (makeMove mateInOne mateNow)) [] [] 4 0%Q EmptyString) ∅))).
  vm_compute. reflexivity.
Defined.

Lemma aiMove_result_eta (o : Outcome (string * (Game.t * TT))) :
  match o with Returned _ => true | _ => false end = true ->
  exists s g t, o = Returned (s, (g, t)).
Proof. destruct o as [[s [g t]]| |]; [eauto | discriminate | discriminate]. Qed.

Lemma aiMove_plays_a_legal_move_witness :
  exists mvStr g' tt',
    Game.aiMove insertionSort 4 noDraws (Game.mk mateInOne [] [] 2 0%Q EmptyString, ∅)
      = Returned (mvStr, (g', tt')) /\
    In mvStr (fst (Game.legalMoves (Game.mk mateInOne [] [] 2 0%Q EmptyString))).
Proof.
  destruct (aiMove_result_eta
              (Game.aiMove insertionSort 4 noDraws
                 (Game.mk mateInOne [] [] 2 0%Q EmptyString, ∅)))
    as (s & g' & t & E); [vm_compute; reflexivity |].
  exists s, g', t. split; [exact E |].
  destruct (aiMove_plays_a_legal_move insertionSort insertionSort_perm 4 noDraws
              (Game.mk mateInOne [] [] 2 0%Q EmptyString) ∅ s g' t eq_refl E)
    as (m & _ & _ & H & _).
  exact H.
Defined.

(* ------------------------------------------------------------------------- *)
(** ** Edge cases of the attack detector and the scores *)
(* ------------------------------------------------------------------------- *)

(** X5.  A side without a king is not simply "not in check": [kingSquare] answers
    -1 and [isAttacked] then looks at the cells around that index, so Black
    without a king is reported in check whenever a white pawn stands on cell
    6. *)
Theorem kingless_side_can_be_in_check pos :
  (forall sq, isOnBoard sq = true -> cell (board pos) sq <> Chr.k) ->
  kingSquare pos BLACK = -1 /\
  (cell (board pos) 6 = Chr.P -> isInCheck pos BLACK = true).
Proof.
  intros Hno.
  assert (Hk : kingSquare pos BLACK = -1).
  { unfold kingSquare, squares.
    destruct (kingScan_seq (board pos) BLACK 64 0) as [[Hk _] | (Hk & Hc & _)]; auto.
    exfalso. apply (Hno (kingScan (board pos) BLACK (map Z.of_nat (seq 0 64)))); auto.
    on_board. lia. }
  split; [exact Hk |]. intros Hp.
  unfold isInCheck. rewrite Hk. cbn [flipSide].
  apply isAttacked_parts. left. cbn [existsb].
  change (-1 + 8 + -1) with 6. rewrite Hp. reflexivity.
Qed.

Lemma kingless_side_can_be_in_check_witness :
  isInCheck (mkPosition (place [(6, 80); (60, 75)]) BLACK) BLACK = true.
Proof.
  assert (H : forall sq, isOnBoard sq = true ->
              cell (place [(6, 80); (60, 75)]) sq <> 107).
  { intros sq H. apply onBoard_in_squares in H.
    assert (Hall : forallb (fun s => negb (cell (place [(6, 80); (60, 75)]) s =? 107))
                     squares = true) by (vm_compute; reflexivity).
    rewrite forallb_forall in Hall. apply Hall in H.
    apply negb_true_iff, Z.eqb_neq in H. exact H. }
  exact (proj2 (kingless_side_can_be_in_check
                  (mkPosition (place [(6, 80); (60, 75)]) BLACK) H) eq_refl).
Defined.

(** X14.  With one king a side, the static evaluation stays below the mate score
    of any search depth up to 44199 in magnitude. *)
Theorem mate_score_exceeds_material pos depth :
  wfPosition pos -> countOf Chr.K (board pos) = 1 -> countOf Chr.k (board pos) = 1 ->
  1 <= depth < 44200 ->
  Z.abs (evaluate pos) <= 55800 /\ Z.abs (evaluate pos) < Z.abs (-100000 + depth).
Proof.
  intros Hwf HK Hk Hd. split; [| now apply mate_dominates_material].
  unfold evaluate. rewrite evaluate_fold.
  pose proof (material_bound (board pos)) as Hb.
  rewrite HK, Hk, Hwf in Hb. destruct (side pos); lia.
Qed.

Lemma mate_score_exceeds_material_witness :
  Z.abs (evaluate mateInOne) <= 55800 /\ Z.abs (evaluate mateInOne) < Z.abs (-100000 + 4).
Proof.
  apply (mate_score_exceeds_material mateInOne 4); [reflexivity | reflexivity | reflexivity | lia].
Defined.

Lemma attackRayWithin_room b bySide d stepOk isKind :
  d <> 0 -> forall n sq,
  (1 <= n)%nat -> (isOnBoard sq = true -> (rayRoom d sq < n)%nat) ->
  attackRayWithin n b bySide d stepOk isKind sq = Some (attackRay n b bySide d stepOk isKind sq).
Proof.
  intros Hd. induction n as [|n IH]; intros sq Hn H; [lia |].
  cbn [attackRayWithin attackRay].
  destruct (isOnBoard sq) eqn:E; cbn [andb]; [| reflexivity].
  destruct (stepOk (sq - d) sq); [| reflexivity].
  destruct (cell b sq =? 0); [| reflexivity].
  pose proof (rayRoom_bound d sq E). specialize (H eq_refl).
  apply IH; [lia |].
  intros E'. pose proof (rayRoom_step d sq Hd E E'). lia.
Qed.

Lemma genRayWithin_room pos s pc d stepBad :
  d <> 0 -> forall n t moves,
  (1 <= n)%nat -> (isOnBoard (t + d) = true -> (rayRoom d (t + d) < n)%nat) ->
  genRayWithin n pos s pc d stepBad t moves = Some (genRay n pos s pc d stepBad t moves).
Proof.
  intros Hd. induction n as [|n IH]; intros t moves Hn H; [lia |].
  cbn [genRayWithin genRay].
  destruct (isOnBoard (t + d)) eqn:E; cbn [negb orb]; [| reflexivity].
  destruct (stepBad t (t + d)); [reflexivity |].
  destruct (cell (board pos) (t + d) =? 0).
  - pose proof (rayRoom_bound d _ E). specialize (H eq_refl).
    apply IH; [lia |].
    intros E'. pose proof (rayRoom_step d _ Hd E E'). lia.
  - destruct (differentColour pc (cell (board pos) (t + d))); reflexivity.
Qed.

(** X15.  The sliding loops of [isAttacked] and of the generator terminate:
    whatever the step test and the start, a loop over a non-zero offset has
    left through its [return], its [break] or its condition within 65
    iterations, and what it then answers is what the walks of the model, cut
    at 64 steps, compute. *)
Theorem ray_walks_terminate pos bySide s pc d n :
  d <> 0 -> (rayFuel < n)%nat ->
  (forall stepOk isKind sq,
     attackRayWithin n (board pos) bySide d stepOk isKind sq =
     Some (attackRay rayFuel (board pos) bySide d stepOk isKind sq)) /\
  (forall stepBad t moves,
     genRayWithin n pos s pc d stepBad t moves =
     Some (genRay rayFuel pos s pc d stepBad t moves)).
Proof.
  intros Hd Hn. split; intros.
  - rewrite attackRayWithin_room; auto; [| lia |].
    + f_equal. apply attackRay_fuel; auto. lia.
    + intros E. pose proof (rayRoom_bound d sq E). lia.
  - rewrite genRayWithin_room; auto; [| lia |].
    + f_equal. apply genRay_fuel; auto. lia.
    + intros E. pose proof (rayRoom_bound d _ E). lia.
Qed.

Lemma ray_walks_terminate_witness :
  attackRayWithin 65 (board twoKings) WHITE 1 (fun _ _ => true) (fun _ => true) 1 =
    Some (attackRay rayFuel (board twoKings) WHITE 1 (fun _ _ => true) (fun _ => true) 1) /\
  genRayWithin 65 mateInOne 8 81 1 (orthoStepBad 1) 8 [] =
    Some (genRay rayFuel mateInOne 8 81 1 (orthoStepBad 1) 8 []).
Proof.
  split.
  - apply (proj1 (ray_walks_terminate twoKings WHITE 0 0 1 65 ltac:(lia)
                    ltac:(unfold rayFuel; lia))).
  - apply (proj2 (ray_walks_terminate mateInOne WHITE 8 81 1 65 ltac:(lia)
                    ltac:(unfold rayFuel; lia))).
Defined.

(* ------------------------------------------------------------------------- *)
(** ** The generator misses no move *)
(* ------------------------------------------------------------------------- *)

Lemma addMove_keeps moves pos f t pr m : In m moves -> In m (addMove moves pos f t pr).
Proof.
  intros H. unfold addMove. destruct (negb _ && _); auto. apply in_or_app. now left.
Qed.

Lemma addMove_adds moves pos f t pr :
  tolower (cell (board pos) t) <> Chr.k ->
  In (mkMove f t (cell (board pos) t) pr) (addMove moves pos f t pr).
Proof.
  intros H. unfold addMove. apply Z.eqb_neq in H. rewrite H, andb_false_r.
  apply in_or_app. right. now left.
Qed.

Lemma genRay_keeps fuel pos s pc d stepBad : forall t moves m,
  In m moves -> In m (genRay fuel pos s pc d stepBad t moves).
Proof.
  induction fuel as [|fuel IH]; intros t moves m H; cbn [genRay]; auto.
  destruct (negb _ || _); auto.
  destruct (cell (board pos) (t + d) =? 0); [apply IH; now apply addMove_keeps |].
  destruct (differentColour _ _); auto. now apply addMove_keeps.
Qed.

Lemma fold_keeps {A} (f : list Move -> A -> list Move) (l : list A) :
  (forall moves a m, In m moves -> In m (f moves a)) ->
  forall moves m, In m moves -> In m (fold_left f l moves).
Proof.
  intros Hf. induction l as [|a l IH]; intros moves m H; cbn [fold_left]; auto.
Qed.

Lemma fold_adds {A} (f : list Move -> A -> list Move) (l : list A) a m :
  (forall moves a m, In m moves -> In m (f moves a)) ->
  In a l -> (forall moves, In m (f moves a)) ->
  forall moves, In m (fold_left f l moves).
Proof.
  intros Hf Hin Ha. induction l as [|x l IH]; intros moves; [destruct Hin |].
  cbn [fold_left]. destruct Hin as [-> | Hin].
  - apply fold_keeps; auto.
  - apply IH. exact Hin.
Qed.

Lemma genLeaper_keeps pos s pc offsets maxFile moves m :
  In m moves -> In m (genLeaper pos s pc offsets maxFile moves).
Proof.
  unfold genLeaper. apply fold_keeps. clear. intros moves d m H.
  destruct (negb _ || _); auto. destruct (_ || _); auto. now apply addMove_keeps.
Qed.

Lemma genPawn_keeps pos s pc moves m : In m moves -> In m (genPawn pos s pc moves).
Proof.
  intros H. unfold genPawn. apply fold_keeps.
  - clear. intros moves dx m H.
    destruct (_ && _); auto. destruct (isLastRank _); now apply addMove_keeps.
  - destruct (_ && _); auto.
    destruct (_ && _); [apply addMove_keeps |];
      destruct (isLastRank _); now apply addMove_keeps.
Qed.

Lemma genDiagonals_keeps pos s pc moves m : In m moves -> In m (genDiagonals pos s pc moves).
Proof.
  unfold genDiagonals. apply fold_keeps. intros. now apply genRay_keeps.
Qed.

Lemma genOrthogonals_keeps pos s pc moves m :
  In m moves -> In m (genOrthogonals pos s pc moves).
Proof.
  unfold genOrthogonals. apply fold_keeps. intros. now apply genRay_keeps.
Qed.

Lemma genSquare_keeps pos moves s m : In m moves -> In m (genSquare pos moves s).
Proof.
  intros H. unfold genSquare.
  repeat match goal with
  | |- In _ (if ?c then _ else _) => destruct c
  | |- In _ (genPawn _ _ _ _) => apply genPawn_keeps
  | |- In _ (genLeaper _ _ _ _ _ _) => apply genLeaper_keeps
  | |- In _ (genOrthogonals _ _ _ _) => apply genOrthogonals_keeps
  | |- In _ (genDiagonals _ _ _ _) => apply genDiagonals_keeps
  end; auto.
Qed.

(** The walk along [d] from [s + j * d] reaches the target [k] steps from
    [s] when the way is free. *)
Lemma genRay_reaches pos s pc d (stepBad : Z -> Z -> bool) k pr :
  1 <= k ->
  (forall i, 0 <= i < k ->
     isOnBoard (s + (i + 1) * d) = true /\ stepBad (s + i * d) (s + (i + 1) * d) = false) ->
  (forall i, 0 < i < k -> cell (board pos) (s + i * d) = 0) ->
  cell (board pos) (s + k * d) = 0 \/
    differentColour pc (cell (board pos) (s + k * d)) = true ->
  tolower (cell (board pos) (s + k * d)) <> Chr.k -> pr = 0 ->
  forall fuel j moves, 0 <= j < k -> (Z.to_nat (k - j) <= fuel)%nat ->
  In (mkMove s (s + k * d) (cell (board pos) (s + k * d)) pr)
     (genRay fuel pos s pc d stepBad (s + j * d) moves).
Proof.
  intros Hk Hpath Hempty Hcap Hnk ->.
  induction fuel as [|fuel IH]; intros j moves Hj Hf; [lia |].
  cbn [genRay]. replace (s + j * d + d) with (s + (j + 1) * d) by lia.
  destruct (Hpath j ltac:(lia)) as [Hon Hbad]. rewrite Hon, Hbad. cbn [negb orb].
  destruct (Z.eq_dec (j + 1) k) as [<- | Hne].
  - destruct (cell (board pos) (s + (j + 1) * d) =? 0) eqn:E0.
    + apply genRay_keeps. now apply addMove_adds.
    + destruct Hcap as [Hc | Hc]; [apply Z.eqb_neq in E0; contradiction |].
      rewrite Hc. now apply addMove_adds.
  - rewrite (Hempty (j + 1) ltac:(lia)). cbn [Z.eqb].
    apply IH; lia.
Qed.

Lemma move_eta m : m = mkMove (from m) (to m) (captured m) (promo m).
Proof. now destruct m. Qed.

Lemma slide_generated pos m offsets (stepBad : Z -> Z -> Z -> bool) moves :
  (forall d, In d offsets -> In d (bishopOffsets ++ rookOffsets)) ->
  genOk pos m -> moveShape pos m -> slideShape pos m offsets stepBad ->
  In m (fold_left (fun acc d =>
          genRay rayFuel pos (from m) (cell (board pos) (from m)) d (stepBad d) (from m) acc)
          offsets moves).
Proof.
  intros Hoff Hok Hsh (Hpr & d & k & Hd & Hk & Hto & Hpath & Hempty).
  apply (fold_adds _ offsets d); auto.
  - intros. now apply genRay_keeps.
  - intros acc.
    pose proof (ok_from _ _ Hok) as Hf. pose proof (ok_to _ _ Hok) as Ht.
    rewrite Hto in Ht. pose proof (slide_length _ _ _ (Hoff d Hd) Hf Ht Hk) as Hk63.
    rewrite (move_eta m) at 1. rewrite (ok_captured _ _ Hok), Hto.
    assert (H : In (mkMove (from m) (from m + k * d)
                      (cell (board pos) (from m + k * d)) (promo m))
                  (genRay rayFuel pos (from m) (cell (board pos) (from m)) d (stepBad d)
                     (from m + 0 * d) acc)).
    { apply genRay_reaches; auto; try lia.
      - rewrite <- Hto, <- (ok_captured _ _ Hok). apply (shape_capture _ _ Hsh).
      - rewrite <- Hto, <- (ok_captured _ _ Hok). apply (ok_no_king _ _ Hok).
      - unfold rayFuel. lia. }
    now replace (from m + 0 * d) with (from m) in H by lia.
Qed.

Lemma leap_generated pos m offsets maxFile moves :
  genOk pos m -> moveShape pos m -> leapShape m offsets maxFile ->
  In m (genLeaper pos (from m) (cell (board pos) (from m)) offsets maxFile moves).
Proof.
  intros Hok Hsh (Hpr & d & Hd & Hto & Hfile). unfold genLeaper.
  apply (fold_adds _ offsets d); auto.
  - intros acc d' m' H.
    destruct (negb _ || _); auto. destruct (_ || _); auto. now apply addMove_keeps.
  - intros acc. rewrite <- Hto, (ok_to _ _ Hok). cbn [negb orb].
    destruct (Z.abs (fileOf (from m) - fileOf (to m)) >? maxFile) eqn:E; [lia |].
    assert (Hc : (cell (board pos) (to m) =? 0)
                 || differentColour (cell (board pos) (from m)) (cell (board pos) (to m))
                 = true).
    { rewrite <- (ok_captured _ _ Hok).
      destruct (shape_capture _ _ Hsh) as [-> | ->]; [reflexivity | apply orb_true_r]. }
    rewrite Hc. rewrite (move_eta m) at 1. rewrite (ok_captured _ _ Hok), Hpr.
    apply addMove_adds. rewrite <- (ok_captured _ _ Hok). apply (ok_no_king _ _ Hok).
Qed.

Lemma addMove_adds_move moves pos m :
  genOk pos m -> In m (addMove moves pos (from m) (to m) (promo m)).
Proof.
  intros Hok. rewrite (move_eta m) at 1. rewrite (ok_captured _ _ Hok).
  apply addMove_adds. rewrite <- (ok_captured _ _ Hok). apply (ok_no_king _ _ Hok).
Qed.

Lemma pawn_generated pos m moves :
  genOk pos m -> moveShape pos m ->
  tolower (cell (board pos) (from m)) = Chr.p -> pawnShape pos m ->
  In m (genPawn pos (from m) (cell (board pos) (from m)) moves).
Proof.
  intros Hok Hsh Hl [Hpr Hp].
  pose proof (ok_from _ _ Hok) as Hf. pose proof (ok_to _ _ Hok) as Ht.
  pose proof (ok_captured _ _ Hok) as Hc. pose proof (ok_mover _ _ Hok) as Hmv.
  pose proof (addMove_adds_move) as Hadd.
  set (pc := cell (board pos) (from m)) in *.
  assert (Hdir : pawnDir pc = -8 \/ pawnDir pc = 8)
    by (unfold pawnDir; destruct (isWhitePiece pc); auto).
  unfold genPawn. cbn [fold_left]. fold pc. fold (pawnDir pc).
  destruct Hp as [[Hto Hcap] | [(Hto & Hcap & He & Hr) | (Hto & Hfile & Hcap)]].
  - (* advance of one *)
    rewrite <- Hto. rewrite Ht. rewrite <- Hc, Hcap. cbn [andb Z.eqb].
    assert (H1 : In m (if isLastRank (to m) then addMove moves pos (from m) (to m) 113
                       else addMove moves pos (from m) (to m) 0)).
    { destruct (isLastRank (to m)); rewrite <- Hpr; now apply Hadd. }
    repeat match goal with
    | |- In _ (if isLastRank (to m) then _ else _) => exact H1
    | |- In _ (if ?c then _ else _) => destruct c
    | |- In _ (addMove _ _ _ _ _) => apply addMove_keeps
    end.
  - (* advance of two *)
    assert (Hon1 : isOnBoard (from m + pawnDir pc) = true) by (on_board; lia).
    rewrite Hon1, He. cbn [andb Z.eqb].
    rewrite <- Hto, Ht, <- Hc, Hcap. cbn [Z.eqb].
    assert (Hlast : isLastRank (to m) = false /\
                    ((rankOf (from m) =? 6) && isWhitePiece pc
                     || (rankOf (from m) =? 1) && isBlackPiece pc) = true).
    { destruct (mover_pawn _ _ Hmv Hl) as [[_ Hpc] | [_ Hpc]]; unfold pawnDir in Hto;
        rewrite Hpc in *;
        cbn [isWhitePiece isBlackPiece isupper islower Z.leb Z.compare Pos.compare
             Pos.compare_cont andb] in *; rewrite Hr, Hto; unfold isLastRank.
      - replace (from m + 2 * -8) with (from m + 8 * -2) by lia. rewrite rank_shift, Hr.
        split; reflexivity.
      - replace (from m + 2 * 8) with (from m + 8 * 2) by lia. rewrite rank_shift, Hr.
        split; reflexivity. }
    destruct Hlast as [Hlast Hstart]. rewrite Hstart. cbn [andb].
    rewrite Hlast in Hpr.
    assert (H2 : forall acc, In m (addMove acc pos (from m) (to m) 0))
      by (intros acc; rewrite <- Hpr; now apply Hadd).
    repeat match goal with
    | |- In _ (addMove _ _ _ (to m) 0) => apply H2
    | |- In _ (if ?c then _ else _) => destruct c
    | |- In _ (addMove _ _ _ _ _) => apply addMove_keeps
    end.
  - (* capture *)
    assert (Hdiff : differentColour pc (cell (board pos) (to m)) = true).
    { rewrite <- Hc. destruct (shape_capture _ _ Hsh) as [H0 | H0]; [contradiction | exact H0]. }
    assert (Hnz : (cell (board pos) (to m) =? 0) = false)
      by (rewrite <- Hc; now apply Z.eqb_neq).
    assert (Hfile' : (Z.abs (fileOf (to m) - fileOf (from m)) =? 1) = true)
      by now apply Z.eqb_eq.
    assert (H3 : forall acc,
              In m (if isOnBoard (to m) && (Z.abs (fileOf (to m) - fileOf (from m)) =? 1)
                       && negb (cell (board pos) (to m) =? 0)
                       && differentColour pc (cell (board pos) (to m))
                    then if isLastRank (to m) then addMove acc pos (from m) (to m) 113
                         else addMove acc pos (from m) (to m) 0
                    else acc)).
    { intros acc. rewrite Ht, Hfile', Hnz, Hdiff. cbn [andb negb].
      destruct (isLastRank (to m)); rewrite <- Hpr; now apply Hadd. }
    destruct Hto as [Hto | Hto].
    + replace (from m + pawnDir pc + -1) with (to m) by lia.
      repeat match goal with
      | |- In _ (if isOnBoard (to m) && _ && _ && _ then _ else _) => apply H3
      | |- In _ (if ?c then _ else _) => destruct c
      | |- In _ (addMove _ _ _ _ _) => apply addMove_keeps
      end.
    + replace (from m + pawnDir pc + 1) with (to m) by lia. apply H3.
Qed.

Lemma genSquare_generates pos m moves :
  genOk pos m -> moveShape pos m -> In m (genSquare pos moves (from m)).
Proof.
  intros Hok Hsh. unfold genSquare.
  pose proof (ok_mover _ _ Hok) as Hmv.
  pose proof (isSidePiece_nonzero _ _ Hmv) as Hnz. apply Z.eqb_neq in Hnz. rewrite Hnz.
  assert (Hs : match side pos with
               | WHITE => negb (isWhitePiece (cell (board pos) (from m)))
               | BLACK => negb (isBlackPiece (cell (board pos) (from m)))
               end = false).
  { unfold isSidePiece in Hmv. destruct (side pos); now rewrite Hmv. }
  rewrite Hs.
  destruct (shape_kind _ _ Hsh) as [[Hl Hp] | [[Hl Hp] | [[Hl Hp] | [[Hl Hp] | [Hl Hp]]]]].
  - rewrite Hl. cbn [Z.eqb Pos.eqb]. now apply pawn_generated.
  - rewrite Hl. cbn [Z.eqb Pos.eqb]. now apply leap_generated.
  - rewrite Hl. cbn [Z.eqb Pos.eqb orb]. now apply leap_generated.
  - assert (Hd : forall acc, In m (genDiagonals pos (from m) (cell (board pos) (from m)) acc)).
    { intros acc. unfold genDiagonals.
      apply (slide_generated pos m bishopOffsets diagStepBad); auto.
      intros d Hd. apply in_or_app. now left. }
    destruct Hl as [Hl | Hl]; rewrite Hl; cbn [Z.eqb Pos.eqb orb]; auto.
    now apply genOrthogonals_keeps.
  - assert (Ho : forall acc, In m (genOrthogonals pos (from m) (cell (board pos) (from m)) acc)).
    { intros acc. unfold genOrthogonals.
      apply (slide_generated pos m rookOffsets orthoStepBad); auto.
      intros d Hd. apply in_or_app. now right. }
    destruct Hl as [Hl | Hl]; rewrite Hl; cbn [Z.eqb Pos.eqb orb]; auto.
Qed.

(** X10.  The generator is exact: a move is generated if and only if it starts on
    a piece of the side to move, records the content of a target that holds
    no king and no piece of the mover's colour, and has the shape of a move
    of that piece ([pawnShape], [leapShape], [slideShape]).  No such move is
    missing. *)
Theorem generator_is_exact pos m :
  In m (generateMoves pos) <-> genOk pos m /\ moveShape pos m.
Proof.
  split; [apply generated_facts |]. intros [Hok Hsh].
  unfold generateMoves.
  apply (fold_adds (genSquare pos) squares (from m)).
  - intros. now apply genSquare_keeps.
  - apply onBoard_in_squares, (ok_from _ _ Hok).
  - intros acc. now apply genSquare_generates.
Qed.

Lemma generator_is_exact_witness :
  In (mkMove 57 42 0 0) (generateMoves initialPosition).
Proof.
  apply (proj2 (generator_is_exact initialPosition (mkMove 57 42 0 0))). split.
  - constructor; cbn [from to captured promo]; try reflexivity; try discriminate.
    now left.
  - constructor; cbn [from to captured promo]; [now left |].
    right. left. split; [reflexivity |]. split; [reflexivity |].
    exists (-15). split; [cbn; tauto |]. split; [reflexivity |]. vm_compute. discriminate.
Defined.

(** X25.  Once [setLevel] has run, whatever level was asked for, the depth
    member is 2, 4 or 6 and the depth [aiMove] hands to [searchBestMove],
    two more when the material balance exceeds 1500, is 2, 4, 6 or 8; with a
    legal move on the board that search returns within a recursion budget
    of 8 calls, and [aiMove] returns the name of the move it found. *)
Theorem aiMove_returns_after_setLevel std_sort lvl g0 tt0 fuel draws :
  let st := Game.setLevel lvl (g0, tt0) in
  let g := fst st in
  let depth := Game.levelDepth g + (if Z.abs (evaluate (Game.pos g)) >? 1500 then 2 else 0) in
  snd (generateLegalMoves (Game.pos g) []) <> [] -> (8 <= fuel)%nat ->
  In (Game.levelDepth g) [2; 4; 6] /\
  In depth [2; 4; 6; 8] /\
  exists m pos1 table' r,
    searchBestMove std_sort fuel (Game.pos g) depth (Game.randomProbability g) draws (snd st) =
      Returned (m, pos1, table') /\
    Game.aiMove std_sort fuel draws st = Returned r /\
    fst r = (squareToAlgebraic (from m) ++ squareToAlgebraic (to m))%string.
Proof.
  intros st g depth Hne Hf.
  pose proof (setLevel_depth lvl (g0, tt0)) as Hd. fold st in Hd. fold g in Hd.
  split; [exact Hd |].
  assert (Hdepth : In depth [2; 4; 6; 8]).
  { subst depth. cbn [In] in *. destruct (_ >? _); lia. }
  split; [exact Hdepth |].
  destruct (aiMove_returns std_sort fuel draws g (snd st)) as [r Hr]; auto.
  { cbn [In] in Hd. lia. }
  { cbn [In] in Hd. lia. }
  replace st with (g, snd st) by (subst g; now destruct st).
  revert Hr. unfold Game.aiMove. fold depth. cbn [snd].
  destruct (searchBestMove std_sort fuel (Game.pos g) depth (Game.randomProbability g) draws
              (snd st)) as [[[m pos1] table'] | |]; try discriminate.
  destruct (makeMove pos1 m) as [pos2 u]. intros [= <-].
  exists m, pos1, table'. eexists. split; [reflexivity |]. split; reflexivity.
Qed.

Lemma aiMove_returns_after_setLevel_witness :
  exists r,
    Game.aiMove insertionSort 8 noDraws
      (Game.setLevel 3 (Game.mk mateInOne [] [] 0 0%Q EmptyString, ∅)) = Returned r.
Proof.
  destruct (aiMove_returns_after_setLevel insertionSort 3
              (Game.mk mateInOne [] [] 0 0%Q EmptyString) ∅ 8 noDraws)
    as (_ & _ & m & pos1 & table' & r & _ & Hr & _);
    [vm_compute; discriminate | lia |].
  exists r. exact Hr.
Defined.
